(** * The ModuleRelease controller of deckhouse-controller

    A shallow embedding of [package release]
    (deckhouse-controller/pkg/controller/module-controllers/release),
    with the parts of the Go runtime it talks to: [strings], [path] and
    [path/filepath], the file system calls of [os], the typed client and
    the listers of the control plane, and the restart timer.

    Layout: Go strings and paths; the file system; the control-plane
    records; the world the controller runs in and its monad; the
    controller's functions, in the order of the source; then the lemmas
    and the properties of the controller. *)

From Stdlib Require Import ZArith Ascii String.
From stdpp Require Import gmap strings list fin_maps pretty sorting.

Set Default Proof Using "Type".

(** ** Results of running a model *)

(** A Go function either returns, panics (nil dereference, index out of
    range), or, for the two recursions that are not structural, exhausts
    the recursion budget the model gives it. *)
Inductive outcome (A : Type) : Type :=
  | Done (a : A)
  | Panic (msg : string)
  | OutOfFuel.
Arguments Done {A} a.
Arguments Panic {A} msg.
Arguments OutOfFuel {A}.

(** ** Go [strings] *)

Module GoStrings.

(** [strings.TrimPrefix] *)
Definition TrimPrefix (s pre : string) : string :=
  if String.prefix pre s
  then substring (String.length pre) (String.length s - String.length pre) s
  else s.

(** [strings.Index]: the index of the first instance of [substr] in [s],
    or -1. *)
Fixpoint Index (s substr : string) : Z :=
  if String.prefix substr s then 0%Z
  else match s with
       | EmptyString => (-1)%Z
       | String _ r =>
           let i := Index r substr in
           if (i <? 0)%Z then (-1)%Z else (i + 1)%Z
       end.

(** [s[i:]] for [0 <= i <= len(s)]; Go panics outside that range, the
    callers here stay inside it. *)
Definition sliceFrom (s : string) (i : Z) : string :=
  substring (Z.to_nat i) (String.length s - Z.to_nat i) s.

Definition lowerAscii (c : ascii) : ascii :=
  let n := nat_of_ascii c in
  if (65 <=? n)%nat && (n <=? 90)%nat then ascii_of_nat (n + 32) else c.

(** [strings.ToLower], on ASCII text. *)
Fixpoint ToLower (s : string) : string :=
  match s with
  | EmptyString => EmptyString
  | String c r => String (lowerAscii c) (ToLower r)
  end.

(** [strings.Split(s, "/")] *)
Fixpoint splitSlash (s : string) : list string :=
  match s with
  | EmptyString => [EmptyString]
  | String c r =>
      if Ascii.eqb c "/" then EmptyString :: splitSlash r
      else match splitSlash r with
           | h :: t => String c h :: t
           | [] => [String c EmptyString]
           end
  end.

(** [strings.Join(elems, "/")] *)
Fixpoint joinSlash (elems : list string) : string :=
  match elems with
  | [] => EmptyString
  | [e] => e
  | e :: rest => e +:+ "/" +:+ joinSlash rest
  end.

(** [fmt.Sprintf("%d", n)] for an unsigned integer. *)
Definition decimal (n : N) : string := pretty n.

End GoStrings.

(** ** Go [path] and [path/filepath] (Unix) *)

Module GoPath.
Import GoStrings.

Definition IsAbs (p : string) : bool := String.prefix "/" p.

(** One element of the path under [Clean]. [out] is the cleaned prefix,
    last element first. An element ".." removes the element before it,
    unless there is none (it is dropped in a rooted path and kept in a
    relative one) or that one is itself a kept "..". *)
Definition cleanStep (rooted : bool) (out : list string) (elem : string)
  : list string :=
  if bool_decide (elem = "") || bool_decide (elem = ".") then out
  else if bool_decide (elem = "..") then
    match out with
    | top :: rest => if bool_decide (top = "..") then elem :: out else rest
    | [] => if rooted then [] else [elem]
    end
  else elem :: out.

Definition cleanElems (rooted : bool) (elems : list string) : list string :=
  rev (foldl (cleanStep rooted) [] elems).

Definition render (rooted : bool) (elems : list string) : string :=
  match elems with
  | [] => if rooted then "/" else "."
  | _ => (if rooted then "/" else "") +:+ joinSlash elems
  end.

(** [path.Clean]: the shortest path name equivalent to [p] by purely
    lexical processing. *)
Definition Clean (p : string) : string :=
  render (IsAbs p) (cleanElems (IsAbs p) (splitSlash p)).

(** [path.Join] and [filepath.Join]: leading empty elements are ignored,
    the rest is joined with slashes and cleaned; the empty string when
    there is nothing to join. *)
Fixpoint Join (elem : list string) : string :=
  match elem with
  | [] => ""
  | e :: rest => if bool_decide (e = "") then Join rest
                 else Clean (joinSlash elem)
  end.

Fixpoint dropTrailingEmpty (elems : list string) : list string :=
  match elems with
  | [] => []
  | e :: rest =>
      match dropTrailingEmpty rest with
      | [] => if bool_decide (e = "") then [] else [e]
      | rest' => e :: rest'
      end
  end.

(** [path.Base]: the last element of the path, trailing slashes
    removed. *)
Definition Base (p : string) : string :=
  if bool_decide (p = "") then "."
  else match last (dropTrailingEmpty (splitSlash p)) with
       | Some e => e
       | None => "/"
       end.

(** [path.Dir]: all but the last element of the path, cleaned. *)
Definition Dir (p : string) : string :=
  match splitSlash p with
  | [] | [_] => Clean ""
  | elems => Clean (joinSlash (removelast elems) +:+ "/")
  end.

(** The elements [filepath.Rel] compares: those of the cleaned path, with
    "." standing for no element at all. *)
Definition relElems (p : string) : list string :=
  if bool_decide (p = ".") then []
  else if bool_decide (p = "/") then [""]
  else splitSlash p.

Fixpoint stripCommon (base targ : list string) : list string * list string :=
  match base, targ with
  | b :: base', t :: targ' =>
      if bool_decide (b = t) then stripCommon base' targ' else (base, targ)
  | _, _ => (base, targ)
  end.

(** [filepath.Rel]: a path that is lexically equivalent to [targpath]
    when joined to [basepath]; [None] is its error. *)
Definition Rel (basepath targpath : string) : option string :=
  let base := Clean basepath in
  let targ := Clean targpath in
  if bool_decide (targ = base) then Some "."
  else if negb (Bool.eqb (IsAbs base) (IsAbs targ)) then None
  else
    let '(b, t) := stripCommon (relElems base) (relElems targ) in
    match b with
    | [] => Some (joinSlash t)
    | b0 :: _ =>
        if bool_decide (b0 = "..") then None
        else Some (joinSlash (replicate (length b) ".." ++ t))
    end.

Global Arguments Clean : simpl never.
Global Arguments Join : simpl never.

End GoPath.

Import GoStrings GoPath.

(** ** The file system, as [os] and [path/filepath] see it *)

Module OS.

Inductive errno : Type :=
  ENOENT | EEXIST | ENOTEMPTY | ENOTDIR | EACCES | ELOOP | EIO.

Definition errnoString (e : errno) : string :=
  match e with
  | ENOENT => "no such file or directory"
  | EEXIST => "file exists"
  | ENOTEMPTY => "directory not empty"
  | ENOTDIR => "not a directory"
  | EACCES => "permission denied"
  | ELOOP => "too many levels of symbolic links"
  | EIO => "input/output error"
  end.

(** Go's [error] values that occur here: [*os.PathError],
    [*os.LinkError], and the plain errors of [errors.New] and of the
    control-plane client. *)
Inductive error : Type :=
  | PathError (op path : string) (e : errno)
  | LinkError (op old new : string) (e : errno)
  | errorString (s : string).

(** [err.Error()] *)
Definition Error (err : error) : string :=
  match err with
  | PathError op path e => op +:+ " " +:+ path +:+ ": " +:+ errnoString e
  | LinkError op old new e =>
      op +:+ " " +:+ old +:+ " " +:+ new +:+ ": " +:+ errnoString e
  | errorString s => s
  end.

(** [os.IsNotExist] *)
Definition IsNotExist (err : option error) : bool :=
  match err with
  | Some (PathError _ _ ENOENT) | Some (LinkError _ _ _ ENOENT) => true
  | _ => false
  end.

Inductive node : Type :=
  | Directory
  | Regular
  | Symlink (target : string).

Definition isDirectory (n : node) : bool :=
  match n with Directory => true | _ => false end.

Inductive syscall : Type :=
  | SysLstat (name : string)
  | SysStat (name : string)
  | SysRemove (name : string)
  | SysRemoveAll (name : string)
  | SysSymlink (oldname newname : string)
  | SysReadDir (name : string).

(** The file system is a flat name space: [nodes] maps the cleaned path
    of every entry to what is there. The directories on the way to an
    entry are taken to be real directories, so a path is looked up as it
    is written; symbolic links are followed at the last element only.
    [faults] lets the environment fail a call for a reason the name
    space does not show (permissions, I/O errors); it is consulted
    first. *)
Record FS : Type := mkFS {
  nodes : gmap string node;
  faults : syscall -> option errno;
}.

Definition setNodes (fs : FS) (m : gmap string node) : FS :=
  {| nodes := m; faults := faults fs |}.

Definition noFaults : syscall -> option errno := fun _ => None.

(** Where a link found at [name] with text [target] leads. *)
Definition linkDestination (name target : string) : string :=
  if IsAbs target then Clean target else Join [Dir name; target].

Fixpoint followLinks (limit : nat) (m : gmap string node) (name : string)
  : errno + (string * node) :=
  match m !! name with
  | None => inl ENOENT
  | Some (Symlink target) =>
      match limit with
      | O => inl ELOOP
      | S limit' => followLinks limit' m (linkDestination name target)
      end
  | Some n => inr (name, n)
  end.

(** [os.Lstat]: the entry itself, links not followed. *)
Definition Lstat (name : string) (fs : FS) : node + error :=
  match faults fs (SysLstat name) with
  | Some e => inr (PathError "lstat" name e)
  | None =>
      match nodes fs !! name with
      | Some n => inl n
      | None => inr (PathError "lstat" name ENOENT)
      end
  end.

(** [os.Stat]: links followed; the kernel gives up after 40 of them. *)
Definition Stat (name : string) (fs : FS) : node + error :=
  match faults fs (SysStat name) with
  | Some e => inr (PathError "stat" name e)
  | None =>
      match followLinks 40 (nodes fs) name with
      | inr (_, n) => inl n
      | inl e => inr (PathError "stat" name e)
      end
  end.

Definition under (dir name : string) : bool :=
  String.prefix (dir +:+ "/") name.

Definition hasChildren (m : gmap string node) (dir : string) : bool :=
  existsb (under dir) (map_to_list m).*1.

(** [os.Remove]: unlinks a file or link, removes an empty directory. *)
Definition Remove (name : string) (fs : FS) : option error * FS :=
  match faults fs (SysRemove name) with
  | Some e => (Some (PathError "remove" name e), fs)
  | None =>
      match nodes fs !! name with
      | None => (Some (PathError "remove" name ENOENT), fs)
      | Some n =>
          if isDirectory n && hasChildren (nodes fs) name
          then (Some (PathError "remove" name ENOTEMPTY), fs)
          else (None, setNodes fs (delete name (nodes fs)))
      end
  end.

(** [os.RemoveAll]: removes the path and everything below it; a path that
    does not exist is no error. *)
Definition RemoveAll (name : string) (fs : FS) : option error * FS :=
  match faults fs (SysRemoveAll name) with
  | Some e => (Some (PathError "unlinkat" name e), fs)
  | None =>
      (None,
       setNodes fs
         (filter (λ kv, ¬ (kv.1 = name ∨ under name kv.1 = true)) (nodes fs)))
  end.

(** [os.Symlink]: creates [newname] as a link whose text is [oldname]. *)
Definition Symlink_ (oldname newname : string) (fs : FS)
  : option error * FS :=
  match faults fs (SysSymlink oldname newname) with
  | Some e => (Some (LinkError "symlink" oldname newname e), fs)
  | None =>
      match nodes fs !! newname with
      | Some _ => (Some (LinkError "symlink" oldname newname EEXIST), fs)
      | None => (None, setNodes fs (<[newname := Symlink oldname]> (nodes fs)))
      end
  end.

(** [os.DirEntry] *)
Record DirEntry : Type := mkDirEntry {
  Name : string;
  entryNode : node;
}.

Definition IsDir (d : DirEntry) : bool := isDirectory (entryNode d).

Fixpoint insertByName (d : DirEntry) (l : list DirEntry) : list DirEntry :=
  match l with
  | [] => [d]
  | d' :: l' =>
      if String.leb (Name d) (Name d') then d :: l
      else d' :: insertByName d l'
  end.

Definition sortByName (l : list DirEntry) : list DirEntry :=
  foldr insertByName [] l.

(** The entries directly inside [dir]. *)
Definition entryOf (dir : string) (kv : string * node) : option DirEntry :=
  if under dir kv.1 then
    let rest := TrimPrefix kv.1 (dir +:+ "/") in
    if bool_decide (rest = "") || bool_decide (Index rest "/" ≠ (-1)%Z)
    then None
    else Some (mkDirEntry rest kv.2)
  else None.

Definition entries (m : gmap string node) (dir : string) : list DirEntry :=
  sortByName (omap (entryOf dir) (map_to_list m)).

(** [os.ReadDir]: the entries of the directory, sorted by file name. *)
Definition ReadDir (name : string) (fs : FS) : list DirEntry + error :=
  match faults fs (SysReadDir name) with
  | Some e => inr (PathError "open" name e)
  | None =>
      match followLinks 40 (nodes fs) name with
      | inl e => inr (PathError "open" name e)
      | inr (dir, Directory) => inl (entries (nodes fs) dir)
      | inr _ => inr (PathError "readdirent" name ENOTDIR)
      end
  end.

(** [filepath.EvalSymlinks]: the path after the evaluation of symbolic
    links, cleaned; at most 255 links are walked. The empty path has no
    element to look up. *)
Definition EvalSymlinks (path : string) (fs : FS) : string + error :=
  if bool_decide (path = "") then inl (Clean "")
  else
    match faults fs (SysLstat path) with
    | Some e => inr (PathError "lstat" path e)
    | None =>
        match followLinks 255 (nodes fs) path with
        | inr (p, _) => inl (Clean p)
        | inl ELOOP => inr (errorString "EvalSymlinks: too many links")
        | inl e => inr (PathError "lstat" path e)
        end
    end.

(** What a [fs.WalkDirFunc] returns besides [nil]. *)
Inductive walkError : Type :=
  | SkipDir
  | SkipAll
  | WalkFailed (err : error).

(** A [fs.WalkDirFunc] whose closure state is [St]. The entry is [None]
    for Go's nil [DirEntry]; the function may panic. *)
Definition WalkDirFunc (St : Type) : Type :=
  string -> option DirEntry -> option error -> St ->
  outcome (option walkError * St).

Section WalkDir.
Context {St : Type} (fs : FS) (fn : WalkDirFunc St).

(** [filepath.walkDir]. [depth] bounds the nesting of directories. *)
Fixpoint walkDir (depth : nat) (path : string) (d : DirEntry) (s : St)
  : outcome (option walkError * St) :=
  match depth with
  | O => OutOfFuel
  | S depth' =>
      match fn path (Some d) None s with
      | Done (Some SkipDir, s1) =>
          Done (if IsDir d then None else Some SkipDir, s1)
      | Done (Some err, s1) => Done (Some err, s1)
      | Done (None, s1) =>
          if negb (IsDir d) then Done (None, s1)
          else
            let visit :=
              fix visit (dirs : list DirEntry) (s : St)
                : outcome (option walkError * St) :=
                match dirs with
                | [] => Done (None, s)
                | d1 :: dirs' =>
                    match walkDir depth' (Join [path; Name d1]) d1 s with
                    | Done (None, s') => visit dirs' s'
                    | Done (Some SkipDir, s') => Done (None, s')
                    | other => other
                    end
                end in
            match ReadDir path fs with
            | inl dirs => visit dirs s1
            | inr err =>
                (* second call, to report the ReadDir error *)
                match fn path (Some d) (Some err) s1 with
                | Done (Some SkipDir, s2) =>
                    Done (if IsDir d then None else Some SkipDir, s2)
                | Done (Some err', s2) => Done (Some err', s2)
                | Done (None, s2) => visit [] s2
                | other => other
                end
            end
      | other => other
      end
  end.

(** [filepath.WalkDir] *)
Definition WalkDir (root : string) (s : St) : outcome (option error * St) :=
  let r :=
    match Lstat root fs with
    | inr err => fn root None (Some err) s
    | inl n =>
        walkDir (S (size (nodes fs))) root
          (mkDirEntry (Base root) n) s
    end in
  match r with
  | Done (Some (WalkFailed err), s') => Done (Some err, s')
  | Done (_, s') => Done (None, s')
  | Panic msg => Panic msg
  | OutOfFuel => OutOfFuel
  end.

End WalkDir.

End OS.

Import OS.

(** ** Control-plane records *)

(** Modelled from the spec: [semver.Version] of
    github.com/Masterminds/semver, the numeric core of a version. *)
Record semver : Type := mkVersion {
  Major : N;
  Minor : N;
  Patch : N;
}.

(** [Version.String()] *)
Definition VersionString (v : semver) : string :=
  decimal (Major v) +:+ "." +:+ decimal (Minor v) +:+ "." +:+ decimal (Patch v).

(** [Version.LessThan] *)
Definition LessThan (a b : semver) : bool :=
  if negb (Major a =? Major b)%N then (Major a <? Major b)%N
  else if negb (Minor a =? Minor b)%N then (Minor a <? Minor b)%N
  else (Patch a <? Patch b)%N.

(** Modelled from the spec: [v1alpha1.ModuleRelease], whose declaration
    is in package v1alpha1 (section 3 of the spec lists its fields).
    [Source] is what [GetModuleSource()] returns. *)
Record ModuleReleaseSpec : Type := mkSpec {
  ModuleName : string;
  Version : semver;
  Weight : N;
}.

Record ModuleReleaseStatus : Type := mkStatus {
  Phase : string;
  Message : string;
  TransitionTime : Z;
}.

Record ModuleRelease : Type := mkRelease {
  ObjectName : string;
  Labels : gmap string string;
  Finalizers : list string;
  DeletionTimestamp : option Z;
  Source : string;
  Spec : ModuleReleaseSpec;
  Status : ModuleReleaseStatus;
}.

(** Modelled from the spec: [v1alpha1.ModuleSource], an opaque handle
    with a name and finalizers. *)
Record ModuleSource : Type := mkSource {
  SourceName : string;
  SourceFinalizers : list string;
}.

(** Modelled from the spec: the phase constants of package v1alpha1. *)
Definition PhasePending : string := "Pending".
Definition PhaseDeployed : string := "Deployed".
Definition PhaseSuperseded : string := "Superseded".
Definition PhaseSuspended : string := "Suspended".

Definition setStatus (mr : ModuleRelease) (st : ModuleReleaseStatus)
  : ModuleRelease :=
  {| ObjectName := ObjectName mr; Labels := Labels mr;
     Finalizers := Finalizers mr; DeletionTimestamp := DeletionTimestamp mr;
     Source := Source mr; Spec := Spec mr; Status := st |}.

Definition setPhase (mr : ModuleRelease) (phase : string) : ModuleRelease :=
  setStatus mr {| Phase := phase; Message := Message (Status mr);
                  TransitionTime := TransitionTime (Status mr) |}.

Definition setMessage (mr : ModuleRelease) (msg : string) : ModuleRelease :=
  setStatus mr {| Phase := Phase (Status mr); Message := msg;
                  TransitionTime := TransitionTime (Status mr) |}.

Definition setTransitionTime (mr : ModuleRelease) (t : Z) : ModuleRelease :=
  setStatus mr {| Phase := Phase (Status mr); Message := Message (Status mr);
                  TransitionTime := t |}.

Definition SetLabels (mr : ModuleRelease) (lb : gmap string string)
  : ModuleRelease :=
  {| ObjectName := ObjectName mr; Labels := lb;
     Finalizers := Finalizers mr; DeletionTimestamp := DeletionTimestamp mr;
     Source := Source mr; Spec := Spec mr; Status := Status mr |}.

Definition SetFinalizers (mr : ModuleRelease) (f : list string)
  : ModuleRelease :=
  {| ObjectName := ObjectName mr; Labels := Labels mr;
     Finalizers := f; DeletionTimestamp := DeletionTimestamp mr;
     Source := Source mr; Spec := Spec mr; Status := Status mr |}.

(** [controllerutil.ContainsFinalizer] and [controllerutil.AddFinalizer],
    on the list of finalizers. *)
Definition ContainsFinalizer (f : list string) (finalizer : string) : bool :=
  bool_decide (finalizer ∈ f).

Definition AddFinalizer (f : list string) (finalizer : string) : list string :=
  if ContainsFinalizer f finalizer then f else f ++ [finalizer].

(** [ctrl.Result] *)
Record Result : Type := mkResult {
  Requeue : bool;
  RequeueAfter : Z;
}.

Definition emptyResult : Result := {| Requeue := false; RequeueAfter := 0 |}.
Definition requeue : Result := {| Requeue := true; RequeueAfter := 0 |}.

(** ** The restart debouncer *)

(** [delayTimer] is the instant at which the timer fires, in
    milliseconds; [signals] are the instants at which SIGUSR2 was sent to
    process 1. *)
Record Debounce : Type := mkDebounce {
  delayTimer : Z;
  restartReason : string;
  signals : list Z;
}.

Definition delay : Z := 5000.

(** [emitRestart], run at the instant [now]. *)
Definition emitRestart (now : Z) (msg : string) (d : Debounce) : Debounce :=
  {| delayTimer := now + delay; restartReason := msg; signals := signals d |}.

(** One turn of [restartLoop] through [case <-c.delayTimer.C], the timer
    having fired at the instant [now]. [syscall.Kill] is taken to
    succeed; the loop ends the process otherwise. *)
Definition restartLoopFire (now : Z) (d : Debounce) : Debounce :=
  {| delayTimer := now + delay;
     restartReason := restartReason d;
     signals := if bool_decide (restartReason d ≠ "")
                then signals d ++ [now] else signals d |}.

(** [restartLoop] left to itself up to the instant [horizon]: the loop
    waits in [select] with the mutex held, so it takes each firing of the
    timer at the instant it fires. [turns] bounds the number of turns. *)
Fixpoint restartLoop (turns : nat) (horizon : Z) (d : Debounce) : Debounce :=
  match turns with
  | O => d
  | S turns' =>
      if (delayTimer d <=? horizon)%Z
      then restartLoop turns' horizon (restartLoopFire (delayTimer d) d)
      else d
  end.

(** The firings up to [horizon] are at most this many. *)
Definition turnsUntil (horizon : Z) (d : Debounce) : nat :=
  Z.to_nat ((horizon - delayTimer d) / delay + 1).

Definition idleUntil (horizon : Z) (d : Debounce) : Debounce :=
  restartLoop (turnsUntil horizon d) horizon d.



(** ** The world of the controller *)

(** A call of the typed client, with the object sent and whether the
    server accepted it. *)
Inductive ApiCall : Type :=
  | UpdateStatusCall (mr : ModuleRelease) (ok : bool)
  | UpdateCall (mr : ModuleRelease) (ok : bool)
  | UpdateSourceCall (ms : ModuleSource) (ok : bool)
  | ListCall (ok : bool).

(** [server] and [serverSources] are the records of the control plane;
    [releasesStore] and [sourcesStore] are the informer caches behind the
    two listers, whose objects the listers hand out by pointer (a pointer
    is the key of the object in the store). [apiFaults] is what the
    server answers to the coming calls of the typed client ([None], or no
    entry: the call is served); [apiLog] records the calls, oldest
    first. *)
Record World : Type := mkWorld {
  fs : FS;
  clock : Z;
  server : gmap string ModuleRelease;
  serverSources : gmap string ModuleSource;
  releasesStore : gmap string ModuleRelease;
  sourcesStore : gmap string ModuleSource;
  apiFaults : list (option error);
  apiLog : list ApiCall;
  sourceModules : gmap string string;
  configSources : gmap string string;
  debounce : Debounce;
  downloads : list (string * string * string);
}.

Definition setFs (w : World) (x : FS) : World :=
  mkWorld x (clock w) (server w) (serverSources w) (releasesStore w)
    (sourcesStore w) (apiFaults w) (apiLog w) (sourceModules w)
    (configSources w) (debounce w) (downloads w).

Definition setServer (w : World) (x : gmap string ModuleRelease) : World :=
  mkWorld (fs w) (clock w) x (serverSources w) (releasesStore w)
    (sourcesStore w) (apiFaults w) (apiLog w) (sourceModules w)
    (configSources w) (debounce w) (downloads w).

Definition setServerSources (w : World) (x : gmap string ModuleSource)
  : World :=
  mkWorld (fs w) (clock w) (server w) x (releasesStore w)
    (sourcesStore w) (apiFaults w) (apiLog w) (sourceModules w)
    (configSources w) (debounce w) (downloads w).

Definition setReleasesStore (w : World) (x : gmap string ModuleRelease)
  : World :=
  mkWorld (fs w) (clock w) (server w) (serverSources w) x
    (sourcesStore w) (apiFaults w) (apiLog w) (sourceModules w)
    (configSources w) (debounce w) (downloads w).

Definition setSourcesStore (w : World) (x : gmap string ModuleSource)
  : World :=
  mkWorld (fs w) (clock w) (server w) (serverSources w) (releasesStore w)
    x (apiFaults w) (apiLog w) (sourceModules w)
    (configSources w) (debounce w) (downloads w).

Definition setApiFaults (w : World) (x : list (option error)) : World :=
  mkWorld (fs w) (clock w) (server w) (serverSources w) (releasesStore w)
    (sourcesStore w) x (apiLog w) (sourceModules w)
    (configSources w) (debounce w) (downloads w).

Definition setApiLog (w : World) (x : list ApiCall) : World :=
  mkWorld (fs w) (clock w) (server w) (serverSources w) (releasesStore w)
    (sourcesStore w) (apiFaults w) x (sourceModules w)
    (configSources w) (debounce w) (downloads w).

Definition setSourceModules (w : World) (x : gmap string string) : World :=
  mkWorld (fs w) (clock w) (server w) (serverSources w) (releasesStore w)
    (sourcesStore w) (apiFaults w) (apiLog w) x
    (configSources w) (debounce w) (downloads w).

Definition setConfigSources (w : World) (x : gmap string string) : World :=
  mkWorld (fs w) (clock w) (server w) (serverSources w) (releasesStore w)
    (sourcesStore w) (apiFaults w) (apiLog w) (sourceModules w)
    x (debounce w) (downloads w).

Definition setDebounce (w : World) (x : Debounce) : World :=
  mkWorld (fs w) (clock w) (server w) (serverSources w) (releasesStore w)
    (sourcesStore w) (apiFaults w) (apiLog w) (sourceModules w)
    (configSources w) x (downloads w).

Definition setDownloads (w : World) (x : list (string * string * string))
  : World :=
  mkWorld (fs w) (clock w) (server w) (serverSources w) (releasesStore w)
    (sourcesStore w) (apiFaults w) (apiLog w) (sourceModules w)
    (configSources w) (debounce w) x.

(** The monad of the controller's methods: state passing over the world,
    with panics. *)
Definition M (A : Type) : Type := World -> outcome (A * World).

Definition ret {A} (a : A) : M A := fun w => Done (a, w).

Definition bind {A B} (m : M A) (k : A -> M B) : M B :=
  fun w =>
    match m w with
    | Done (a, w') => k a w'
    | Panic msg => Panic msg
    | OutOfFuel => OutOfFuel
    end.

Notation "x <- m ;; k" := (bind m (fun x => k))
  (at level 100, m at level 99, right associativity,
   format "'[v' x  <-  m  ;;  '/' k ']'").
Notation "m ;;; k" := (bind m (fun _ => k))
  (at level 100, right associativity, format "'[v' m  ;;;  '/' k ']'").

Definition get : M World := fun w => Done (w, w).
Definition modify (f : World -> World) : M unit := fun w => Done (tt, f w).
Definition panic {A} (msg : string) : M A := fun _ => Panic msg.

(** A function of the file system alone, run on the world's. *)
Definition onFS {A} (f : FS -> A * FS) : M A :=
  fun w => let '(a, x) := f (fs w) in Done (a, setFs w x).

Definition readFS {A} (f : FS -> A) : M A := fun w => Done (f (fs w), w).

(** *** The typed client *)

Definition nextAnswer : M (option error) :=
  fun w =>
    match apiFaults w with
    | [] => Done (None, w)
    | a :: rest => Done (a, setApiFaults w rest)
    end.

Definition record (call : ApiCall) : M unit :=
  modify (fun w => setApiLog w (apiLog w ++ [call])).

Definition notFound (kind name : string) : error :=
  errorString (kind +:+ " " +:+ name +:+ " not found").

(** [ModuleReleases().UpdateStatus]: replaces the status of the stored
    record. *)
Definition UpdateStatus (mr : ModuleRelease) : M (option error) :=
  a <- nextAnswer ;;
  w <- get ;;
  match a, server w !! ObjectName mr with
  | Some err, _ => record (UpdateStatusCall mr false) ;;; ret (Some err)
  | None, None =>
      record (UpdateStatusCall mr false) ;;;
      ret (Some (notFound "modulereleases.deckhouse.io" (ObjectName mr)))
  | None, Some stored =>
      modify (fun w => setServer w
                (<[ObjectName mr := setStatus stored (Status mr)]> (server w))) ;;;
      record (UpdateStatusCall mr true) ;;;
      ret None
  end.

(** [ModuleReleases().Update]: replaces the stored record but for its
    status, which has its own call. *)
Definition Update (mr : ModuleRelease) : M (option error) :=
  a <- nextAnswer ;;
  w <- get ;;
  match a, server w !! ObjectName mr with
  | Some err, _ => record (UpdateCall mr false) ;;; ret (Some err)
  | None, None =>
      record (UpdateCall mr false) ;;;
      ret (Some (notFound "modulereleases.deckhouse.io" (ObjectName mr)))
  | None, Some stored =>
      modify (fun w => setServer w
                (<[ObjectName mr := setStatus mr (Status stored)]> (server w))) ;;;
      record (UpdateCall mr true) ;;;
      ret None
  end.

(** [ModuleSources().Update] *)
Definition UpdateSource (ms : ModuleSource) : M (option error) :=
  a <- nextAnswer ;;
  w <- get ;;
  match a, serverSources w !! SourceName ms with
  | Some err, _ => record (UpdateSourceCall ms false) ;;; ret (Some err)
  | None, None =>
      record (UpdateSourceCall ms false) ;;;
      ret (Some (notFound "modulesources.deckhouse.io" (SourceName ms)))
  | None, Some _ =>
      modify (fun w => setServerSources w
                (<[SourceName ms := ms]> (serverSources w))) ;;;
      record (UpdateSourceCall ms true) ;;;
      ret None
  end.

(** [ModuleReleases().List] with empty options. *)
Definition ListReleases : M (list ModuleRelease * option error) :=
  a <- nextAnswer ;;
  w <- get ;;
  match a with
  | Some err => record (ListCall false) ;;; ret ([], Some err)
  | None => record (ListCall true) ;;; ret ((map_to_list (server w)).*2, None)
  end.

(** *** The listers and their pointers *)

(** [moduleReleasesLister.List] with the selector [module=<moduleName>]:
    pointers to the cached objects. *)
Definition listByModule (moduleName : string) : M (list (string * ModuleRelease)) :=
  w <- get ;;
  ret (filter (λ kv, Labels kv.2 !! "module" = Some moduleName)
         (map_to_list (releasesStore w))).

(** [moduleReleasesLister.List(labels.Everything())] *)
Definition listEverything : M (list ModuleRelease) :=
  w <- get ;;
  ret (map_to_list (releasesStore w)).*2.

(** [moduleSourcesLister.Get] *)
Definition getSource (name : string) : M (ModuleSource + error) :=
  w <- get ;;
  ret (match sourcesStore w !! name with
       | Some ms => inl ms
       | None => inr (notFound "modulesource.deckhouse.io" name)
       end).

Definition deref (p : string) : M ModuleRelease :=
  w <- get ;;
  match releasesStore w !! p with
  | Some mr => ret mr
  | None => panic "invalid memory address or nil pointer dereference"
  end.

Definition assign (p : string) (mr : ModuleRelease) : M unit :=
  modify (fun w => setReleasesStore w (<[p := mr]> (releasesStore w))).

(** A method that takes an object by pointer and may write to it, called
    on the cached object behind [p]: what it writes stays in the cache. *)
Definition onPointer {A} (p : string)
  (f : ModuleRelease -> M (ModuleRelease * A)) : M A :=
  mr <- deref p ;;
  r <- f mr ;;
  assign p r.1 ;;;
  ret r.2.

(** [s[index]] of a Go slice. *)
Definition at_ {A} (s : list A) (index : Z) : M A :=
  if (index <? 0)%Z then panic "index out of range"
  else match s !! Z.to_nat index with
       | Some a => ret a
       | None => panic "index out of range"
       end.

(** ** The controller *)

(** The fields of [Controller] that are set once, in [NewController];
    [sourceModules], the timer and the restart reason live in the
    world. *)
Record Controller : Type := mkController {
  externalModulesDir : string;
  symlinksDir : string;
}.

(** [NewController], [env] being the value of EXTERNAL_MODULES_DIR. *)
Definition NewController (env : string) : Controller :=
  {| externalModulesDir := env; symlinksDir := Join [env; "modules"] |}.

Definition fsReleaseFinalizer : string := "modules.deckhouse.io/exist-on-fs".
Definition sourceReleaseFinalizer : string := "modules.deckhouse.io/release-exists".

(** What [calculateRelease] leaves in the [releasePredictor]. *)
Record Prediction : Type := mkPrediction {
  currentReleaseIndex : Z;
  desiredReleaseIndex : Z;
  skippedPatchesIndexes : list Z;
}.

(** [fmt.Sprintf("%d-%s", weight, moduleName)] *)
Definition weighted (weight : N) (moduleName : string) : string :=
  decimal weight +:+ "-" +:+ moduleName.

Definition removeIfExists (name : string) (x : FS) : option error * FS :=
  match Lstat name x with
  | inl _ => Remove name x
  | inr _ => (None, x)
  end.

Definition enableModule
  (externalModulesDir oldSymlinkPath newSymlinkPath modulePath : string)
  (x : FS) : option error * FS :=
  let r1 := if bool_decide (oldSymlinkPath ≠ "")
            then removeIfExists oldSymlinkPath x else (None, x) in
  match r1 with
  | (Some err, x1) => (Some err, x1)
  | (None, x1) =>
      match removeIfExists newSymlinkPath x1 with
      | (Some err, x2) => (Some err, x2)
      | (None, x2) =>
          (* make absolute path for versioned module *)
          let moduleAbsPath :=
            Join [externalModulesDir; TrimPrefix modulePath "../"] in
          (* check that module exists on a disk *)
          match Stat moduleAbsPath x2 with
          | inr err =>
              if IsNotExist (Some err) then (Some err, x2)
              else Symlink_ modulePath newSymlinkPath x2
          | inl _ => Symlink_ modulePath newSymlinkPath x2
          end
      end
  end.

Definition isDigit (c : ascii) : bool :=
  let n := nat_of_ascii c in (48 <=? n)%nat && (n <=? 57)%nat.

Fixpoint dropDigits (s : string) : string :=
  match s with
  | String c r => if isDigit c then dropDigits r else s
  | EmptyString => EmptyString
  end.

(** The characters that mean something in a regular expression. *)
Definition isMeta (c : ascii) : bool :=
  existsb (Ascii.eqb c)
    ["\"; "."; "+"; "*"; "?"; "("; ")"; "|"; "["; "]"; "{"; "}"; "^"; "$"]%char.

Fixpoint literalName (s : string) : bool :=
  match s with
  | EmptyString => true
  | String c r => negb (isMeta c) && literalName r
  end.

(** [moduleRegexp.MatchString(name)] for the expression
    [^(([0-9]+)-)?(moduleName)$], where [moduleName] holds no character
    that means something in a regular expression ([literalName]): the
    name itself, or digits and a dash before it. *)
Definition moduleRegexpMatch (moduleName name : string) : bool :=
  bool_decide (name = moduleName)
  || match name with
     | String c _ =>
         isDigit c
         && match dropDigits name with
            | String "-" r => bool_decide (r = moduleName)
            | _ => false
            end
     | EmptyString => false
     end.

(** The closure [walkDir] of [findExistingModuleSymlink]; its state is
    the variable [symlinkPath]. *)
Definition findWalkDir (moduleName : string) : WalkDirFunc string :=
  fun path d err symlinkPath =>
    match d with
    | None => Panic "invalid memory address or nil pointer dereference"
    | Some d =>
        if negb (moduleRegexpMatch moduleName (Name d))
        then Done (None, symlinkPath)
        else Done (Some SkipDir, path)
    end.

Definition findExistingModuleSymlink (rootPath moduleName : string) (x : FS)
  : outcome (string * option error) :=
  match WalkDir x (findWalkDir moduleName) rootPath "" with
  | Done (err, symlinkPath) => Done (symlinkPath, err)
  | Panic msg => Panic msg
  | OutOfFuel => OutOfFuel
  end.

Definition generateModulePath (moduleName version : string) : string :=
  Join ["../"; moduleName; "v" +:+ version].

Definition isModuleExistsOnFS (symlinksDir symlinkPath modulePath : string)
  (x : FS) : bool :=
  match EvalSymlinks symlinkPath x with
  | inr _ => false
  | inl targetPath =>
      if IsAbs targetPath then
        match Rel symlinksDir targetPath with
        | None => false
        | Some targetPath => bool_decide (targetPath = modulePath)
        end
      else bool_decide (targetPath = modulePath)
  end.

Definition addLabels (mr : ModuleRelease) (labels : gmap string string)
  : ModuleRelease :=
  if bool_decide (size (Labels mr) = 0) then SetLabels mr labels
  else SetLabels mr (labels ∪ Labels mr).

Definition restoreModuleSymlink
  (externalModulesDir symlinkPath moduleRelativePath : string) (x : FS)
  : option error * FS :=
  (* make absolute path for versioned module *)
  let moduleAbsPath :=
    Join [externalModulesDir; TrimPrefix moduleRelativePath "../"] in
  (* check that module exists on a disk *)
  match Stat moduleAbsPath x with
  | inr err =>
      if IsNotExist (Some err) then (Some err, x)
      else Symlink_ moduleRelativePath symlinkPath x
  | inl _ => Symlink_ moduleRelativePath symlinkPath x
  end.

(** [sort.Sort(byVersion(...))], on pointers with the objects behind
    them; releases of one module differ in version, so the order of
    equal elements does not arise. *)
Fixpoint insertByVersion (r : string * ModuleRelease)
  (l : list (string * ModuleRelease)) : list (string * ModuleRelease) :=
  match l with
  | [] => [r]
  | r' :: l' =>
      if LessThan (Version (Spec r'.2)) (Version (Spec r.2))
      then r' :: insertByVersion r l'
      else r :: l
  end.

Definition sortByVersion (l : list (string * ModuleRelease))
  : list (string * ModuleRelease) :=
  foldr insertByVersion [] l.

Definition updateModuleReleaseStatus (mrCopy : ModuleRelease)
  : M (ModuleRelease * option error) :=
  w <- get ;;
  let mrCopy := setTransitionTime mrCopy (clock w) in
  err <- UpdateStatus mrCopy ;;
  ret (mrCopy, err).

Definition updateModuleRelease (mrCopy : ModuleRelease) : M (option error) :=
  Update mrCopy.

Definition suspendModuleVersionForRelease (err : error)
  (release : ModuleRelease) : M (ModuleRelease * option error) :=
  let err := if IsNotExist (Some err) then errorString "not found" else err in
  let release := setPhase release PhaseSuspended in
  let release :=
    setMessage release
      ("Desired version of the module met problems: " +:+ Error err) in
  updateModuleReleaseStatus release.

(** [c.emitRestart], at the instant of the world's clock. *)
Definition emitRestartNow (msg : string) : M unit :=
  modify (fun w => setDebounce w (emitRestart (clock w) msg (debounce w))).

(** [controllerutil.RemoveFinalizer] *)
Definition RemoveFinalizer (f : list string) (finalizer : string) : list string :=
  filter (λ e, e ≠ finalizer) f.

Definition readModulesFromFS (dir : string) (x : FS)
  : gmap string string + error :=
  match ReadDir dir x with
  | inr err => inr err
  | inl moduleLinks =>
      inl (foldl
             (fun (modules : gmap string string) moduleLink =>
                let index := Index (Name moduleLink) "-" in
                if bool_decide (index = (-1)%Z) then modules
                else
                  let moduleName := sliceFrom (Name moduleLink) (index + 1) in
                  <[moduleName := Join [dir; Name moduleLink]]> modules)
             ∅ moduleLinks)
  end.

Fixpoint forEach {A} (l : list A) (body : A -> M unit) : M unit :=
  match l with
  | [] => ret tt
  | a :: rest => body a ;;; forEach rest body
  end.

Section Controller.

(** [newReleasePredictor] and [calculateRelease] are in another file of
    the package. The predictor is taken as it is used: from the releases
    of a module, sorted by version, to the three indexes; its [releases]
    are the slice it was given. *)
Variable calculateRelease : list ModuleRelease -> Prediction.

(** [downloader.NewModuleDownloader(dir, ms, opts).DownloadByModuleVersion]
    of package downloader: from the directory, the source, the module
    name and the version, on the file system. *)
Variable DownloadByModuleVersion :
  string -> ModuleSource -> string -> string -> FS -> option error * FS.

Variable c : Controller.

(** Lines 373-379: the search for the module's symlink, and the
    fallback. *)
Definition currentSymlink (moduleName : string) : M string :=
  w <- get ;;
  match findExistingModuleSymlink (symlinksDir c) moduleName (fs w) with
  | Done (currentModuleSymlink, None) => ret currentModuleSymlink
  | Done (_, Some _) => ret ("900-" +:+ moduleName) (* fallback *)
  | Panic msg => panic msg
  | OutOfFuel => fun _ => OutOfFuel
  end.

(** Lines 383-405: the latest release is the deployed one; its symlink is
    checked and restored. Returns what the function returns there, or the
    reason recorded. *)
Definition restoreLatest (releases : list string) (pred : Prediction)
  (moduleName currentModuleSymlink : string)
  : M ((Result * option error) + string) :=
  if bool_decide (currentReleaseIndex pred = (Z.of_nat (length releases) - 1)%Z)
  then
    (* latest release deployed *)
    p <- at_ releases (currentReleaseIndex pred) ;;
    deployedRelease <- deref p ;;
    modify (fun w => setConfigSources w
              (<[ModuleName (Spec deployedRelease) := Source deployedRelease]>
                 (configSources w))) ;;;
    modify (fun w => setSourceModules w
              (<[ModuleName (Spec deployedRelease) := Source deployedRelease]>
                 (sourceModules w))) ;;;
    (* check symlink exists on FS, relative symlink *)
    let modulePath :=
      generateModulePath moduleName
        (VersionString (Version (Spec deployedRelease))) in
    linked <- readFS (isModuleExistsOnFS (symlinksDir c) currentModuleSymlink
                        modulePath) ;;
    if negb linked then
      let newModuleSymlink :=
        Join [symlinksDir c;
              weighted (Weight (Spec deployedRelease)) moduleName] in
      err <- onFS (enableModule (externalModulesDir c) currentModuleSymlink
                     newModuleSymlink modulePath) ;;
      match err with
      | Some err =>
          e <- onPointer p (suspendModuleVersionForRelease err) ;;
          match e with
          | Some e => ret (inl (requeue, Some e))
          | None => ret (inl (requeue, Some err))
          end
      | None => ret (inr "one of modules is not enabled")
      end
    else ret (inr "")
  else ret (inr "").

(** Lines 407-416. *)
Fixpoint supersedeSkipped (releases : list string) (indexes : list Z)
  : M (option error) :=
  match indexes with
  | [] => ret None
  | index :: rest =>
      release <- at_ releases index ;;
      e <- onPointer release
             (fun r => updateModuleReleaseStatus (setPhase r PhaseSuperseded)) ;;
      match e with
      | Some e => ret (Some e)
      | None => supersedeSkipped releases rest
      end
  end.

(** Lines 418-426. *)
Definition supersedeCurrent (releases : list string) (pred : Prediction)
  : M (option error) :=
  if (0 <=? currentReleaseIndex pred)%Z then
    release <- at_ releases (currentReleaseIndex pred) ;;
    onPointer release
      (fun r => updateModuleReleaseStatus
                  (setMessage (setPhase r PhaseSuperseded) ""))
  else ret None.

(** [sendDocumentation] returns at once; the rest of its body is dead. *)
Definition sendDocumentation (modulePath : string) : M unit := ret tt.

(** Lines 428-449. Returns the error of the status write that ends the
    function, or the reason recorded. *)
Definition deployDesired (releases : list string) (pred : Prediction)
  (moduleName currentModuleSymlink reason : string) : M (error + string) :=
  if (0 <=? desiredReleaseIndex pred)%Z then
    p <- at_ releases (desiredReleaseIndex pred) ;;
    release <- deref p ;;
    let modulePath :=
      generateModulePath moduleName (VersionString (Version (Spec release))) in
    let newModuleSymlink :=
      Join [symlinksDir c; weighted (Weight (Spec release)) moduleName] in
    err <- onFS (enableModule (externalModulesDir c) currentModuleSymlink
                   newModuleSymlink modulePath) ;;
    e <- match err with
         | Some err => onPointer p (suspendModuleVersionForRelease err)
         | None => ret None
         end ;;
    match e with
    | Some e => ret (inl e)
    | None =>
        sendDocumentation modulePath ;;;
        e <- onPointer p
               (fun r => updateModuleReleaseStatus
                           (setMessage (setPhase r PhaseDeployed) "")) ;;
        match e with
        | Some e => ret (inl e)
        | None => ret (inr "a new module release found")
        end
    end
  else ret (inr reason).

Definition reconcilePendingRelease (mr : ModuleRelease)
  : M (Result * option error) :=
  let moduleName := ModuleName (Spec mr) in
  otherReleases <- listByModule moduleName ;;
  let otherReleases := sortByVersion otherReleases in
  let releases := otherReleases.*1 in
  let pred := calculateRelease otherReleases.*2 in
  (* search symlink for module by regexp *)
  currentModuleSymlink <- currentSymlink moduleName ;;
  r <- restoreLatest releases pred moduleName currentModuleSymlink ;;
  match r with
  | inl res => ret res
  | inr modulesChangedReason =>
      e <- supersedeSkipped releases (skippedPatchesIndexes pred) ;;
      match e with
      | Some e => ret (requeue, Some e)
      | None =>
          e <- supersedeCurrent releases pred ;;
          match e with
          | Some e => ret (requeue, Some e)
          | None =>
              r <- deployDesired releases pred moduleName currentModuleSymlink
                     modulesChangedReason ;;
              match r with
              | inl e => ret (requeue, Some e)
              | inr modulesChangedReason =>
                  (if bool_decide (modulesChangedReason ≠ "")
                   then emitRestartNow modulesChangedReason
                   else ret tt) ;;;
                  ret (emptyResult, None)
              end
          end
      end
  end.

Definition createOrUpdateReconcile (roMR : ModuleRelease)
  : M (Result * option error) :=
  let mr := roMR in
  let phase := Phase (Status mr) in
  if bool_decide (phase = "") then
    r <- updateModuleReleaseStatus (setPhase mr PhasePending) ;;
    match r.2 with
    | Some e => ret (requeue, Some e)
    | None => ret (emptyResult, None)
    end
  else if bool_decide (phase = PhaseSuperseded)
          || bool_decide (phase = PhaseSuspended) then
    (* update labels *)
    let mr := addLabels mr {[ "status" := ToLower (Phase (Status mr)) ]} in
    err <- updateModuleRelease mr ;;
    match err with
    | Some err => ret (requeue, Some err)
    | None => ret (emptyResult, None)
    end
  else if bool_decide (phase = PhaseDeployed) then
    (* add finalizer and status label *)
    let mr :=
      if negb (ContainsFinalizer (Finalizers mr) fsReleaseFinalizer)
      then SetFinalizers mr (AddFinalizer (Finalizers mr) fsReleaseFinalizer)
      else mr in
    let mr := addLabels mr {[ "status" := ToLower PhaseDeployed ]} in
    e <- updateModuleRelease mr ;;
    match e with
    | Some _ =>
        e' <- updateModuleRelease mr ;;
        ret (requeue, e')
    | None =>
        (* at least one release for module source is deployed, add
           finalizer to prevent module source deletion *)
        ms <- getSource (Source mr) ;;
        match ms with
        | inr err => ret (requeue, Some err)
        | inl ms =>
            if negb (ContainsFinalizer (SourceFinalizers ms)
                       sourceReleaseFinalizer) then
              let ms :=
                {| SourceName := SourceName ms;
                   SourceFinalizers :=
                     AddFinalizer (SourceFinalizers ms) sourceReleaseFinalizer |} in
              err <- UpdateSource ms ;;
              match err with
              | Some err => ret (requeue, Some err)
              | None => ret (emptyResult, None)
              end
            else ret (emptyResult, None)
        end
    end
  else
    (* process only pending releases *)
    reconcilePendingRelease mr.

(** only ModuleRelease with active finalizer can get here, we have to
    remove the module on filesystem and remove the finalizer *)
Definition deleteReconcile (roMR : ModuleRelease) : M (Result * option error) :=
  let modulePath :=
    Join [externalModulesDir c; ModuleName (Spec roMR);
          "v" +:+ VersionString (Version (Spec roMR))] in
  err <- onFS (RemoveAll modulePath) ;;
  match err with
  | Some err => ret (requeue, Some err)
  | None =>
      err <- (if bool_decide (Phase (Status roMR) = PhaseDeployed) then
                let symlinkPath :=
                  Join [externalModulesDir c; "modules";
                        weighted (Weight (Spec roMR)) (ModuleName (Spec roMR))] in
                onFS (RemoveAll symlinkPath)
              else ret None) ;;
      match err with
      | Some err => ret (requeue, Some err)
      | None =>
          if negb (ContainsFinalizer (Finalizers roMR) fsReleaseFinalizer)
          then ret (emptyResult, None)
          else
            let mr :=
              SetFinalizers roMR
                (RemoveFinalizer (Finalizers roMR) fsReleaseFinalizer) in
            err <- Update mr ;;
            match err with
            | Some err => ret (requeue, Some err)
            | None => ret (emptyResult, None)
            end
      end
  end.

Definition Reconcile (releaseName : string) : M (Result * option error) :=
  w <- get ;;
  match releasesStore w !! releaseName with
  | None => ret (emptyResult, None)
  | Some mr =>
      match DeletionTimestamp mr with
      | Some _ => deleteReconcile mr
      | None => createOrUpdateReconcile mr
      end
  end.

(** The body of the loop of [restoreAbsentSourceModules], for one
    release of the list; every [continue] ends it. *)
Definition restoreAbsentItem (item : ModuleRelease) : M unit :=
  let symlinksDir := Join [externalModulesDir c; "modules"] in
  if bool_decide (Phase (Status item) ≠ "Deployed") then ret tt
  else
    let moduleDir :=
      Join [symlinksDir;
            weighted (Weight (Spec item)) (ModuleName (Spec item))] in
    st <- readFS (Stat moduleDir) ;;
    match st with
    | inl _ => ret tt
    | inr err =>
        if IsNotExist (Some err) then
          let moduleVersion := "v" +:+ VersionString (Version (Spec item)) in
          let moduleName := ModuleName (Spec item) in
          let moduleSource := Source item in
          ms <- getSource moduleSource ;;
          match ms with
          | inr _ => ret tt
          | inl ms =>
              modify (fun w => setDownloads w
                        (downloads w ++ [(SourceName ms, moduleName, moduleVersion)])) ;;;
              err <- onFS (DownloadByModuleVersion (externalModulesDir c) ms
                             moduleName moduleVersion) ;;
              match err with
              | Some _ => ret tt
              | None =>
                  (* restore symlink *)
                  let moduleRelativePath :=
                    Join ["../"; moduleName; moduleVersion] in
                  let symlinkPath :=
                    Join [symlinksDir;
                          weighted (Weight (Spec item)) moduleName] in
                  onFS (restoreModuleSymlink (externalModulesDir c) symlinkPath
                          moduleRelativePath) ;;;
                  ret tt
              end
          end
        else ret tt
    end.

(** restoreAbsentSourceModules checks ModuleReleases with Deployed status
    and restore them on the FS *)
Definition restoreAbsentSourceModules : M (option error) :=
  releaseList <- ListReleases ;;
  match releaseList.2 with
  | Some err => ret (Some err)
  | None => forEach releaseList.1 restoreAbsentItem ;;; ret None
  end.

Definition deleteModulesWithAbsentRelease : M (option error) :=
  let symlinksDir := Join [externalModulesDir c; "modules"] in
  r <- readFS (readModulesFromFS symlinksDir) ;;
  match r with
  | inr err =>
      ret (Some (errorString
                   ("read source modules from the filesystem failed: "
                    +:+ Error err)))
  | inl fsModulesLinks =>
      releases <- listEverything ;;
      modify (fun w => setSourceModules w
                (foldl (fun (m : gmap string string) release =>
                          <[ModuleName (Spec release) := Source release]> m)
                   (sourceModules w) releases)) ;;;
      let fsModulesLinks :=
        foldl (fun (m : gmap string string) release =>
                 delete (ModuleName (Spec release)) m)
          fsModulesLinks releases in
      onFS (fun x =>
              (tt, foldl (fun x moduleLinkPath => (RemoveAll moduleLinkPath x).2)
                     x (map_to_list fsModulesLinks).*2)) ;;;
      ret None
  end.


End Controller.

(** [GetModuleSources] *)
Definition GetModuleSources : M (gmap string string) :=
  w <- get ;;
  ret (sourceModules w).

(** What [c.workqueue.Get()] hands out: a key, or an object that is no
    string ([shown] is how [%#v] prints it). *)
Inductive QueueItem : Type :=
  | KeyItem (key : string)
  | ForeignItem (shown : string).

(** The calls [processNextWorkItem] makes on the workqueue. *)
Inductive QueueCall : Type :=
  | QueueDone (obj : QueueItem)
  | QueueForget (obj : QueueItem)
  | QueueAddAfter (key : string) (after : Z)
  | QueueAddRateLimited (key : string).

Section Worker.
Variable calculateRelease : list ModuleRelease -> Prediction.
Variable c : Controller.

(** [processNextWorkItem], [got] being what [c.workqueue.Get()] returns
    ([None] when the queue is shut down). It returns what the function
    returns and the calls it made on the queue, in their order; the
    deferred [Done] comes last. *)
Definition processNextWorkItem (got : option QueueItem)
  : M (bool * list QueueCall) :=
  match got with
  | None => ret (false, [])
  | Some (ForeignItem shown) =>
      ret (true, [QueueForget (ForeignItem shown);
                  QueueDone (ForeignItem shown)])
  | Some (KeyItem key) =>
      (* run reconcile loop *)
      r <- Reconcile calculateRelease c key ;;
      let result := r.1 in
      let call :=
        if bool_decide (RequeueAfter result ≠ 0%Z)
        then QueueAddAfter key (RequeueAfter result)
        else if Requeue result then QueueAddRateLimited key
        else QueueForget (KeyItem key) in
      ret (true, [call; QueueDone (KeyItem key)])
  end.

(** [runWorker], over what the queue hands out from now on. *)
Fixpoint runWorker (gets : list (option QueueItem)) : M (list QueueCall) :=
  match gets with
  | [] => ret []
  | got :: rest =>
      r <- processNextWorkItem got ;;
      if r.1 then
        calls <- runWorker rest ;;
        ret (r.2 ++ calls)
      else ret r.2
  end.

End Worker.

(** ** Notions used in the statements *)

(** The file system once [enableModule] has removed the two links. *)
Definition linksRemoved (oldSymlinkPath newSymlinkPath : string) (x : FS) : FS :=
  setNodes x
    (delete newSymlinkPath
       (if bool_decide (oldSymlinkPath ≠ "")
        then delete oldSymlinkPath (nodes x) else nodes x)).

(** [n] instants, [delay] apart, from [first] on. *)
Definition firings (first : Z) (n : nat) : list Z :=
  (λ i, first + delay * Z.of_nat i)%Z <$> seq 0 n.


(** ** A predictor, a downloader and worlds to run the controller in *)

Fixpoint lastIndexOf (phase : string) (i : Z) (l : list ModuleRelease)
  (found : Z) : Z :=
  match l with
  | [] => found
  | r :: l' =>
      lastIndexOf phase (i + 1) l'
        (if bool_decide (Phase (Status r) = phase) then i else found)
  end.

(** Modelled from the spec: the release predictor of section 4.2, with
    the default policy that always promotes the highest version.
    [currentReleaseIndex] is the index of the Deployed release, or -1;
    [desiredReleaseIndex] is the highest index of a Pending release above
    it, or -1; the Pending releases between the two are the skipped
    patches. *)
Definition specPredictor (releases : list ModuleRelease) : Prediction :=
  let current := lastIndexOf PhaseDeployed 0 releases (-1) in
  let pending := lastIndexOf PhasePending 0 releases (-1) in
  let desired := if (current <? pending)%Z then pending else (-1)%Z in
  {| currentReleaseIndex := current;
     desiredReleaseIndex := desired;
     skippedPatchesIndexes :=
       filter (λ i, (current < i < desired)%Z
                    ∧ Phase ∘ Status <$> releases !! Z.to_nat i
                      = Some PhasePending)
         (Z.of_nat <$> seq 0 (length releases)) |}.

(** Modelled from the spec: a downloader that meets its contract, leaving
    the payload directory [dir/<moduleName>/<version>] on disk. *)
Definition fetchPayload (dir : string) (ms : ModuleSource)
  (moduleName moduleVersion : string) (x : FS) : option error * FS :=
  (None,
   setNodes x (<[Join [dir; moduleName; moduleVersion] := Directory]> (nodes x))).

(** A downloader that fails. *)
Definition fetchNothing (dir : string) (ms : ModuleSource)
  (moduleName moduleVersion : string) (x : FS) : option error * FS :=
  (Some (errorString "registry is unreachable"), x).

Definition release (name moduleName : string) (version : semver)
  (weight : N) (phase : string) : ModuleRelease :=
  {| ObjectName := name; Labels := {[ "module" := moduleName ]};
     Finalizers := []; DeletionTimestamp := None; Source := "S1";
     Spec := mkSpec moduleName version weight;
     Status := mkStatus phase "" 0 |}.

(** A world at the instant 1000, with the source S1, the informer caches
    in step with the server, a server that serves every call, and the
    timer as [NewController] arms it. *)
Definition worldOf (x : FS) (releases : list ModuleRelease) : World :=
  let stored : gmap string ModuleRelease :=
    list_to_map ((λ r, (ObjectName r, r)) <$> releases) in
  let sources : gmap string ModuleSource := {[ "S1" := mkSource "S1" [] ]} in
  {| fs := x; clock := 1000; server := stored; serverSources := sources;
     releasesStore := stored; sourcesStore := sources; apiFaults := [];
     apiLog := []; sourceModules := ∅; configSources := ∅;
     debounce := mkDebounce 5000 "" []; downloads := [] |}.

Definition directories (names : list string) : list (string * node) :=
  (λ n, (n, Directory)) <$> names.

(** ROOT = /ext with mod-a 1.0.0 enabled and the payload of 1.0.1 on
    disk. *)
Definition fsModA : FS :=
  mkFS (list_to_map
          (directories ["/ext"; "/ext/modules"; "/ext/mod-a";
                        "/ext/mod-a/v1.0.0"; "/ext/mod-a/v1.0.1"]
           ++ [("/ext/modules/10-mod-a", Symlink "../mod-a/v1.0.0")]))
    noFaults.

(** The same, with [os.Stat] on the payload of 1.0.1 refused. *)
Definition fsModADenied : FS :=
  mkFS (nodes fsModA)
    (fun call =>
       match call with
       | SysStat name =>
           if bool_decide (name = "/ext/mod-a/v1.0.1") then Some EACCES
           else None
       | _ => None
       end).

(** ROOT = /ext with no module on disk. *)
Definition fsEmpty : FS :=
  mkFS (list_to_map (directories ["/ext"; "/ext/modules"])) noFaults.

(** The status writes of a log: name, phase and message sent, and
    whether the server took them. *)
Definition statusWrite (call : ApiCall)
  : option (string * string * string * bool) :=
  match call with
  | UpdateStatusCall mr ok =>
      Some (ObjectName mr, Phase (Status mr), Message (Status mr), ok)
  | _ => None
  end.

Definition statusWrites (log : list ApiCall)
  : list (string * string * string * bool) :=
  omap statusWrite log.

(** The label and finalizer writes of a log. *)
Definition isUpdate (call : ApiCall) : bool :=
  match call with
  | UpdateCall _ _ | UpdateSourceCall _ _ => true
  | _ => false
  end.

(** Scenario 3 of the spec: mod-b 2.0.0 is Pending and its payload is not
    on disk. *)
Definition modB : ModuleRelease :=
  release "mod-b-v2.0.0" "mod-b" (mkVersion 2 0 0) 20 PhasePending.

(** Whether the character occurs in the string. *)
Fixpoint occurs (c : ascii) (s : string) : bool :=
  match s with
  | EmptyString => false
  | String a r => Ascii.eqb a c || occurs c r
  end.

(** A path element such as a file name: not empty, not "." or "..", and
    without a slash. *)
Definition plainElem (e : string) : bool :=
  negb (bool_decide (e = "")) && negb (bool_decide (e = "."))
  && negb (bool_decide (e = "..")) && negb (occurs "/" e).

(** What [Clean] has kept so far, last element first: plain elements
    above kept ".." elements, and no ".." in a rooted path. *)
Definition cleanShape (rooted : bool) (out : list string) : Prop :=
  ∃ plains dots,
    out = plains ++ dots
    ∧ Forall (λ e, plainElem e = true) plains
    ∧ Forall (λ e, e = "..") dots
    ∧ (rooted = true -> dots = []).

(** A cleaned path with at least one element: any result of [Clean] but
    "/" and ".". *)
Definition properDir (dir : string) : Prop :=
  ∃ s, dir = Clean s ∧ cleanElems (IsAbs s) (splitSlash s) ≠ [].


(** Scenario 5 of the spec: mod-c 3.1.0 is Deployed and ROOT/modules has
    no entry for it; before it in the list, a Deployed release whose
    source is not known. *)
Definition modC : ModuleRelease :=
  release "mod-c-v3.1.0" "mod-c" (mkVersion 3 1 0) 5 PhaseDeployed.


(** The releases of a module as the Pending pass lists them: pointers
    and objects, sorted by version (lines 363-368). *)
Definition releasesOf (moduleName : string) (w : World)
  : list (string * ModuleRelease) :=
  sortByVersion
    (filter (λ kv, Labels kv.2 !! "module" = Some moduleName)
       (map_to_list (releasesStore w))).

(** The cached objects keep their names. *)
Definition sameNames (w w' : World) : Prop :=
  ∀ p, ObjectName <$> releasesStore w' !! p = ObjectName <$> releasesStore w !! p.

(** A status write of the release named [name] with the phase [phase]. *)
Definition writes (name phase : string) (ok : bool) (call : ApiCall) : Prop :=
  ∃ obj, call = UpdateStatusCall obj ok
         ∧ ObjectName obj = name ∧ Phase (Status obj) = phase.

(** A status write with a phase other than Deployed. *)
Definition writesNoDeployed (call : ApiCall) : Prop :=
  ∃ obj ok, call = UpdateStatusCall obj ok
            ∧ Phase (Status obj) ≠ PhaseDeployed.

(** The calls a pass added to the log. *)
Definition callsSince (w w' : World) : list ApiCall :=
  drop (length (apiLog w)) (apiLog w').

(** Scenario 2 of the spec: mod-a 1.0.0 is Deployed, 1.0.1 and 1.0.2
    arrive together as Pending with their payloads on disk; 1.0.1 carries
    a message. *)
Definition modA100 : ModuleRelease :=
  release "mod-a-v1.0.0" "mod-a" (mkVersion 1 0 0) 10 PhaseDeployed.

Definition modA101 : ModuleRelease :=
  setMessage (release "mod-a-v1.0.1" "mod-a" (mkVersion 1 0 1) 10 PhasePending)
    "waiting for the update window".

Definition modA102 : ModuleRelease :=
  release "mod-a-v1.0.2" "mod-a" (mkVersion 1 0 2) 10 PhasePending.

Definition fsPatches : FS :=
  mkFS (list_to_map
          (directories ["/ext"; "/ext/modules"; "/ext/mod-a";
                        "/ext/mod-a/v1.0.0"; "/ext/mod-a/v1.0.1";
                        "/ext/mod-a/v1.0.2"]
           ++ [("/ext/modules/10-mod-a", Symlink "../mod-a/v1.0.0")]))
    noFaults.

Definition worldPatches : World :=
  worldOf fsPatches [modA102; modA100; modA101].

(** The informer caches catch up with the server: what they hold is what
    the server stores. *)
Definition resync (w : World) : World :=
  setSourcesStore (setReleasesStore w (server w)) (serverSources w).

(** The cache of sources is in step with the server, and a source is
    stored under its name. *)
Definition sourcesInStep (w : World) : Prop :=
  sourcesStore w = serverSources w
  ∧ ∀ k ms, serverSources w !! k = Some ms -> SourceName ms = k.

(** A release that was superseded and labelled by an earlier pass. *)
Definition modOld : ModuleRelease :=
  SetLabels (release "mod-a-v0.9.0" "mod-a" (mkVersion 0 9 0) 10 PhaseSuperseded)
    {[ "module" := "mod-a"; "status" := "superseded" ]}.

(** ** Notions for the further properties *)

(** [b] is not below [a] in version: the order [sort.Sort] leaves between
    an element and the ones after it. *)
Definition ascending (a b : string * ModuleRelease) : Prop :=
  LessThan (Version (Spec b.2)) (Version (Spec a.2)) = false.


(** Every run of [m] that returns leaves a world related by [R] to the
    one it started in, and a result in [Q]. *)
Definition keeps {A} (R : World -> World -> Prop) (Q : A -> Prop) (m : M A)
  : Prop :=
  ∀ w a w', m w = Done (a, w') -> R w w' ∧ Q a.

Definition anyWorlds (w w' : World) : Prop := True.

Definition anyResult {A} (a : A) : Prop := True.

(** What a pass may return: success with no requeue, or a requeue at
    once. *)
Definition passResult (res : Result * option error) : Prop :=
  res = (emptyResult, None) ∨ res.1 = requeue.

(** A release with its status blanked: what the pass over a Pending
    release never changes. *)
Definition eraseStatus (r : ModuleRelease) : ModuleRelease :=
  setStatus r (mkStatus "" "" 0).

Definition isStatusCall (call : ApiCall) : Prop :=
  ∃ obj ok, call = UpdateStatusCall obj ok.

(** The worlds before and after a run that wrote nothing but statuses. *)
Definition statusPass (w w' : World) : Prop :=
  serverSources w' = serverSources w
  ∧ (∀ name, eraseStatus <$> server w' !! name = eraseStatus <$> server w !! name)
  ∧ ∃ l, apiLog w' = apiLog w ++ l ∧ Forall isStatusCall l.

(** The worlds before and after a run that touched neither the disk, nor
    the timer, nor the cache of releases, nor any status, and whose calls
    were label and finalizer writes. *)
Definition labelPass (w w' : World) : Prop :=
  fs w' = fs w ∧ debounce w' = debounce w
  ∧ releasesStore w' = releasesStore w
  ∧ (∀ name, Status <$> server w' !! name = Status <$> server w !! name)
  ∧ ∃ l, apiLog w' = apiLog w ++ l ∧ Forall (λ call, isUpdate call = true) l.

(** [p] is [dir] or lies below it: what [os.RemoveAll dir] removes. *)
Definition within (dir p : string) : Prop := p = dir ∨ under dir p = true.

(** mod-b 2.0.0 as it is when the cluster has just taken it: no phase
    yet. *)
Definition modBNew : ModuleRelease := setPhase modB "".

(** mod-b 2.0.0 Pending, without the label [module]. *)
Definition modBBare : ModuleRelease := SetLabels modB ∅.

(** mod-a 1.0.0 Deployed with its finalizer, being deleted. *)
Definition modAGoing : ModuleRelease :=
  {| ObjectName := "mod-a-v1.0.0"; Labels := {[ "module" := "mod-a" ]};
     Finalizers := ["keep"; fsReleaseFinalizer];
     DeletionTimestamp := Some 900%Z; Source := "S1";
     Spec := mkSpec "mod-a" (mkVersion 1 0 0) 10;
     Status := mkStatus PhaseDeployed "" 0 |}.

(** The worlds before and after a run that made no call, left the
    cluster and the caches alone, and removed or replaced nothing on
    disk. *)
Definition onlyAdds (w w' : World) : Prop :=
  (∀ p n, nodes (fs w) !! p = Some n -> nodes (fs w') !! p = Some n)
  ∧ apiLog w' = apiLog w ∧ server w' = server w
  ∧ serverSources w' = serverSources w
  ∧ releasesStore w' = releasesStore w.

(** A downloader that leaves the payload directory where nothing is yet,
    and touches nothing that exists. *)
Definition fetchIfAbsent (dir : string) (ms : ModuleSource)
  (moduleName moduleVersion : string) (x : FS) : option error * FS :=
  match nodes x !! Join [dir; moduleName; moduleVersion] with
  | Some _ => (None, x)
  | None => fetchPayload dir ms moduleName moduleVersion x
  end.

(** What [readModulesFromFS] takes for the name of the module in the name
    of a link: what follows the first '-'. *)
Definition moduleOfLink (name : string) : string :=
  sliceFrom name (Index name "-" + 1).

(** ROOT/modules with a dangling link for mod-c 3.0.0, whose payload is
    gone. *)
Definition fsDangling : FS :=
  mkFS (list_to_map
          (directories ["/ext"; "/ext/modules"]
           ++ [("/ext/modules/5-mod-c", Symlink "../mod-c/v3.0.0")]))
    noFaults.

(** ROOT/modules with the links of mod-a, which has a release, and of
    old-mod, which has none; below the payload of old-mod, a file. *)
Definition fsOrphan : FS :=
  mkFS (list_to_map
          (directories ["/ext"; "/ext/modules"; "/ext/mod-a";
                        "/ext/mod-a/v1.0.0"; "/ext/old-mod";
                        "/ext/old-mod/v0.1.0"]
           ++ [("/ext/modules/10-mod-a", Symlink "../mod-a/v1.0.0");
               ("/ext/modules/30-old-mod", Symlink "../old-mod/v0.1.0")]))
    noFaults.



(** The items a worker has called [Done] on, in the order of the
    calls. *)
Definition doneItems (calls : list QueueCall) : list QueueItem :=
  omap (λ call, match call with QueueDone obj => Some obj | _ => None end) calls.

(** A string of decimal digits. *)
Fixpoint allDigits (s : string) : bool :=
  match s with
  | EmptyString => true
  | String c r => isDigit c && allDigits r
  end.

(** mod-a 0.9.0 arrives as Pending when 1.0.0 is already deployed. *)
Definition modA090 : ModuleRelease :=
  release "mod-a-v0.9.0" "mod-a" (mkVersion 0 9 0) 10 PhasePending.

(** * Properties *)

(** ** Strings and paths *)

Lemma app_String (c : ascii) (r s : string) :
  String c r +:+ s = String c (r +:+ s).
Proof. done. Qed.

Lemma app_empty (s : string) : "" +:+ s = s.
Proof. done. Qed.

Lemma append_assoc (a b c : string) : (a +:+ b) +:+ c = a +:+ b +:+ c.
Proof.
  induction a as [|x a IH]; [done|]. rewrite !app_String. by rewrite IH.
Qed.

Lemma prefix_char (c : ascii) (s : string) :
  String.prefix (String c "") s =
    match s with String a _ => Ascii.eqb a c | EmptyString => false end.
Proof.
  destruct s as [|a r]; simpl; [done|].
  destruct (ascii_dec c a) as [->|Hne].
  - rewrite Ascii.eqb_refl. by destruct r.
  - symmetry. apply Ascii.eqb_neq. congruence.
Qed.

(** [strings.Index(s, c) == -1] says that [c] does not occur in [s]. *)
Lemma Index_char (c : ascii) (s : string) :
  Index s (String c "") = (-1)%Z <-> occurs c s = false.
Proof.
  assert (H : ∀ s, (Index s (String c "") = (-1)%Z <-> occurs c s = false)
                   ∧ (-1 <= Index s (String c ""))%Z).
  { clear s. induction s as [|a r [IH1 IH2]].
    - simpl. split; [done|lia].
    - cbn [Index occurs]. rewrite prefix_char.
      destruct (Ascii.eqb a c); simpl; [split; [done|lia]|].
      destruct (Z.ltb_spec (Index r (String c "")) 0); split; try lia.
      + split; [|done]. intros _. apply IH1. lia.
      + split; [lia|]. intros Ho. apply IH1 in Ho. lia. }
  apply H.
Qed.

Lemma splitSlash_nonempty (s : string) : splitSlash s ≠ [].
Proof.
  destruct s as [|c r]; simpl; [done|].
  destruct (Ascii.eqb c "/"); [done|]. by destruct (splitSlash r).
Qed.

Lemma splitSlash_plain (s : string) : occurs "/" s = false -> splitSlash s = [s].
Proof.
  induction s as [|c r IH]; simpl; [done|].
  destruct (Ascii.eqb c "/"); simpl; [done|]. intros Hr. by rewrite IH.
Qed.

Lemma splitSlash_app (a b : string) :
  splitSlash (a +:+ "/" +:+ b) = splitSlash a ++ splitSlash b.
Proof.
  induction a as [|c r IH]; [done|].
  rewrite app_String. simpl. rewrite IH.
  destruct (Ascii.eqb c "/"); [done|].
  pose proof (splitSlash_nonempty r). by destruct (splitSlash r).
Qed.

Lemma splitSlash_elems (s : string) :
  Forall (λ e, occurs "/" e = false) (splitSlash s).
Proof.
  induction s as [|c r IH]; simpl; [by repeat constructor|].
  destruct (Ascii.eqb c "/") eqn:Hc; [by constructor|].
  destruct (splitSlash r) as [|h t]; [by repeat constructor; simpl; rewrite Hc|].
  inversion_clear IH. constructor; [|done]. simpl. by rewrite Hc.
Qed.

Lemma splitSlash_joinSlash (elems : list string) :
  elems ≠ [] ->
  Forall (λ e, occurs "/" e = false) elems ->
  splitSlash (joinSlash elems) = elems.
Proof.
  induction elems as [|e rest IH]; [done|]. intros _ Hall.
  inversion_clear Hall as [|?? He Hrest].
  destruct rest as [|e' rest'].
  - simpl. by apply splitSlash_plain.
  - change (joinSlash (e :: e' :: rest'))
      with (e +:+ "/" +:+ joinSlash (e' :: rest')).
    rewrite splitSlash_app, splitSlash_plain, IH by done. done.
Qed.

Lemma joinSlash_snoc (elems : list string) (n : string) :
  elems ≠ [] -> joinSlash (elems ++ [n]) = joinSlash elems +:+ "/" +:+ n.
Proof.
  induction elems as [|e rest IH]; [done|]. intros _.
  destruct rest as [|e' rest']; [done|].
  change (joinSlash ((e :: e' :: rest') ++ [n]))
    with (e +:+ "/" +:+ joinSlash ((e' :: rest') ++ [n])).
  rewrite IH by done.
  change (joinSlash (e :: e' :: rest'))
    with (e +:+ "/" +:+ joinSlash (e' :: rest')).
  by rewrite !append_assoc.
Qed.

Lemma plainElem_spec (e : string) :
  plainElem e = true <->
  e ≠ "" ∧ e ≠ "." ∧ e ≠ ".." ∧ occurs "/" e = false.
Proof.
  unfold plainElem. rewrite !andb_true_iff, !negb_true_iff.
  rewrite !bool_decide_eq_false. tauto.
Qed.

Lemma cleanStep_plain (rooted : bool) (out : list string) (e : string) :
  plainElem e = true -> cleanStep rooted out e = e :: out.
Proof.
  intros (H1 & H2 & H3 & _)%plainElem_spec. unfold cleanStep.
  by rewrite !bool_decide_eq_false_2.
Qed.

Lemma cleanStep_shape (rooted : bool) (out : list string) (e : string) :
  occurs "/" e = false ->
  cleanShape rooted out -> cleanShape rooted (cleanStep rooted out e).
Proof.
  intros He (plains & dots & -> & Hp & Hd & Hr). unfold cleanStep.
  destruct (decide (e = "")) as [->|H1]; [by exists plains, dots|].
  destruct (decide (e = ".")) as [->|H2]; [by exists plains, dots|].
  rewrite !bool_decide_eq_false_2 by done. simpl.
  case_bool_decide as H3.
  - subst e. destruct plains as [|p plains]; simpl.
    + destruct dots as [|d dots].
      * destruct rooted; [by exists [], []|].
        exists [], [".."]. by repeat split; try constructor.
      * inversion Hd; subst. rewrite bool_decide_eq_true_2 by done.
        exists [], (".." :: ".." :: dots).
        repeat split; try done; try by repeat constructor.
        intros Ht. by specialize (Hr Ht).
    + inversion_clear Hp as [|?? Hpp Hps].
      apply plainElem_spec in Hpp as Hpp'.
      rewrite bool_decide_eq_false_2 by tauto.
      by exists plains, dots.
  - exists (e :: plains), dots. repeat split; try done.
    constructor; [|done]. by apply plainElem_spec.
Qed.

Lemma foldl_cleanStep_shape (rooted : bool) (elems out : list string) :
  Forall (λ e, occurs "/" e = false) elems ->
  cleanShape rooted out -> cleanShape rooted (foldl (cleanStep rooted) out elems).
Proof.
  revert out. induction elems as [|e elems IH]; intros out Hall Hs; [done|].
  inversion_clear Hall. simpl. apply IH; [done|]. by apply cleanStep_shape.
Qed.

Lemma cleanShape_nil (rooted : bool) : cleanShape rooted [].
Proof. exists [], []. by repeat split. Qed.

Lemma foldl_cleanStep_plains (rooted : bool) (plains out : list string) :
  Forall (λ e, plainElem e = true) plains ->
  foldl (cleanStep rooted) out plains = rev plains ++ out.
Proof.
  revert out. induction plains as [|p plains IH]; intros out Hall; [done|].
  inversion_clear Hall. simpl. rewrite cleanStep_plain, IH by done.
  by rewrite <- app_assoc.
Qed.

Lemma foldl_cleanStep_dots (dots out : list string) :
  Forall (λ e, e = "..") dots -> Forall (λ e, e = "..") out ->
  foldl (cleanStep false) out dots = rev dots ++ out.
Proof.
  revert out. induction dots as [|d dots IH]; intros out Hd Ho; [done|].
  inversion_clear Hd; subst. simpl.
  assert (cleanStep false out ".." = ".." :: out) as ->.
  { unfold cleanStep. simpl. destruct out as [|t out]; [done|].
    inversion_clear Ho; subst. done. }
  rewrite IH by (done || by constructor). by rewrite <- app_assoc.
Qed.

(** Cleaning what [Clean] kept gives it back. *)
Lemma foldl_cleanStep_again (rooted : bool) (out : list string) :
  cleanShape rooted out -> foldl (cleanStep rooted) [] (rev out) = out.
Proof.
  intros (plains & dots & -> & Hp & Hd & Hr).
  rewrite rev_app_distr, foldl_app.
  assert (foldl (cleanStep rooted) [] (rev dots) = dots) as ->.
  { destruct rooted.
    - by rewrite Hr.
    - rewrite foldl_cleanStep_dots, rev_involutive, app_nil_r; try done.
      by apply Forall_rev. }
  rewrite foldl_cleanStep_plains, rev_involutive; [done|].
  by apply Forall_rev.
Qed.

Lemma cleanShape_elems (rooted : bool) (out : list string) :
  cleanShape rooted out ->
  Forall (λ e, e ≠ "" ∧ occurs "/" e = false) out.
Proof.
  intros (plains & dots & -> & Hp & Hd & _). apply Forall_app. split.
  - eapply Forall_impl; [exact Hp|]. intros e He%plainElem_spec. tauto.
  - eapply Forall_impl; [exact Hd|]. by intros e ->.
Qed.

Lemma IsAbs_String (a : ascii) (r : string) :
  IsAbs (String a r) = Ascii.eqb a "/".
Proof. unfold IsAbs. by rewrite prefix_char. Qed.

Lemma IsAbs_app (s t : string) : s ≠ "" -> IsAbs (s +:+ t) = IsAbs s.
Proof. destruct s as [|a r]; [done|]. intros _. by rewrite app_String, !IsAbs_String. Qed.

Lemma IsAbs_plain (e : string) : e ≠ "" -> occurs "/" e = false -> IsAbs e = false.
Proof.
  destruct e as [|a r]; [done|]. intros _. rewrite IsAbs_String. simpl.
  by destruct (Ascii.eqb a "/").
Qed.

Lemma IsAbs_joinSlash (e : string) (rest : list string) :
  e ≠ "" -> occurs "/" e = false -> IsAbs (joinSlash (e :: rest)) = false.
Proof.
  intros H1 H2. destruct rest as [|e' rest]; simpl.
  - by apply IsAbs_plain.
  - rewrite IsAbs_app by done. by apply IsAbs_plain.
Qed.

Lemma IsAbs_render (rooted : bool) (elems : list string) :
  Forall (λ e, e ≠ "" ∧ occurs "/" e = false) elems ->
  IsAbs (render rooted elems) = rooted.
Proof.
  intros Hall. destruct elems as [|e rest]; [by destruct rooted|].
  inversion_clear Hall as [|?? [H1 H2] _]. unfold render.
  destruct rooted; [by rewrite IsAbs_app|]. rewrite app_empty. by apply IsAbs_joinSlash.
Qed.

Lemma cleanElems_render (rooted : bool) (out : list string) :
  cleanShape rooted out ->
  cleanElems rooted (splitSlash (render rooted (rev out))) = rev out.
Proof.
  intros Hs. pose proof (cleanShape_elems _ _ Hs) as Hall.
  apply Forall_rev in Hall.
  destruct (rev out) as [|e rest] eqn:Hrev.
  - by destruct rooted.
  - assert (Hsplit : splitSlash (joinSlash (e :: rest)) = e :: rest).
    { apply splitSlash_joinSlash; [done|].
      eapply Forall_impl; [exact Hall|]. by intros ? [_ ?]. }
    unfold cleanElems, render. rewrite <- Hrev in *.
    destruct rooted.
    + destruct (rev out) eqn:E; [done|]. rewrite <- E in *.
      change ("/" +:+ joinSlash (rev out)) with ("" +:+ "/" +:+ joinSlash (rev out)).
      rewrite splitSlash_app, Hsplit. simpl.
      by rewrite foldl_cleanStep_again.
    + destruct (rev out) eqn:E; [done|]. rewrite <- E in *.
      rewrite app_empty, Hsplit. by rewrite foldl_cleanStep_again.
Qed.

Lemma Clean_shape (s : string) :
  cleanShape (IsAbs s) (foldl (cleanStep (IsAbs s)) [] (splitSlash s)).
Proof.
  apply foldl_cleanStep_shape; [apply splitSlash_elems|apply cleanShape_nil].
Qed.

(** [Clean] is idempotent, as its documentation says. *)
Lemma Clean_idempotent (s : string) : Clean (Clean s) = Clean s.
Proof.
  pose proof (Clean_shape s) as Hs.
  set (r := IsAbs s) in *.
  set (out := foldl (cleanStep r) [] (splitSlash s)) in *.
  assert (HC : Clean s = render r (rev out)) by reflexivity.
  rewrite HC. unfold Clean.
  rewrite IsAbs_render
    by (apply Forall_rev; by eapply cleanShape_elems).
  by rewrite cleanElems_render.
Qed.

Lemma joinSlash_not_empty (e : string) (rest : list string) :
  e ≠ "" -> joinSlash (e :: rest) ≠ "".
Proof. destruct e; [done|]. intros _. by destruct rest. Qed.

Lemma render_not_empty (rooted : bool) (elems : list string) :
  Forall (λ e, e ≠ "" ∧ occurs "/" e = false) elems ->
  render rooted elems ≠ "".
Proof.
  intros Hall. destruct elems as [|e rest]; [by destruct rooted|].
  inversion_clear Hall as [|?? [H1 _] _]. unfold render.
  destruct rooted; [done|]. rewrite app_empty. by apply joinSlash_not_empty.
Qed.

Lemma Clean_not_empty (s : string) : Clean s ≠ "".
Proof.
  apply render_not_empty. apply Forall_rev.
  eapply cleanShape_elems, Clean_shape.
Qed.

Lemma render_snoc (rooted : bool) (elems : list string) (n : string) :
  elems ≠ [] ->
  render rooted (elems ++ [n]) = render rooted elems +:+ "/" +:+ n.
Proof.
  intros Hne. unfold render.
  destruct elems as [|e rest]; [done|].
  change ((e :: rest) ++ [n]) with (e :: (rest ++ [n])).
  cbv iota. change (e :: rest ++ [n]) with ((e :: rest) ++ [n]).
  rewrite joinSlash_snoc by done. by rewrite append_assoc.
Qed.

Lemma cleanElems_snoc (rooted : bool) (elems : list string) (n : string) :
  plainElem n = true ->
  cleanElems rooted (elems ++ [n]) = cleanElems rooted elems ++ [n].
Proof.
  intros Hn. unfold cleanElems. rewrite foldl_app. simpl.
  by rewrite cleanStep_plain.
Qed.

Lemma Clean_snoc (s n : string) :
  s ≠ "" -> plainElem n = true ->
  Clean (s +:+ "/" +:+ n) =
    render (IsAbs s) (cleanElems (IsAbs s) (splitSlash s) ++ [n]).
Proof.
  intros Hs Hn. unfold Clean at 1.
  rewrite IsAbs_app, splitSlash_app by done.
  apply plainElem_spec in Hn as Hn'.
  rewrite (splitSlash_plain n) by tauto.
  by rewrite cleanElems_snoc.
Qed.

Lemma properDir_not_empty (dir : string) : properDir dir -> dir ≠ "".
Proof. intros (s & -> & _). apply Clean_not_empty. Qed.

Lemma properDir_elems (s : string) :
  IsAbs (Clean s) = IsAbs s
  ∧ cleanElems (IsAbs s) (splitSlash (Clean s)) = cleanElems (IsAbs s) (splitSlash s).
Proof.
  pose proof (Clean_shape s) as Hs. split.
  - apply IsAbs_render, Forall_rev. by eapply cleanShape_elems.
  - by apply cleanElems_render.
Qed.

(** Joining a file name to a cleaned directory appends it. *)
Lemma Join_child (dir n : string) :
  properDir dir -> plainElem n = true ->
  Join [dir; n] = dir +:+ "/" +:+ n.
Proof.
  intros Hd Hn. pose proof (properDir_not_empty _ Hd) as Hne.
  destruct Hd as (s & -> & Hcs).
  unfold Join. rewrite bool_decide_eq_false_2 by done.
  change (joinSlash [Clean s; n]) with (Clean s +:+ "/" +:+ n).
  rewrite Clean_snoc by done.
  destruct (properDir_elems s) as [-> ->].
  by rewrite render_snoc.
Qed.

Lemma properDir_child (dir n : string) :
  properDir dir -> plainElem n = true -> properDir (dir +:+ "/" +:+ n).
Proof.
  intros Hd Hn. exists (dir +:+ "/" +:+ n). split.
  - rewrite <- (Join_child dir n) at 1 by done.
    unfold Join. rewrite bool_decide_eq_false_2
      by (by apply properDir_not_empty). done.
  - rewrite IsAbs_app, splitSlash_app by (by apply properDir_not_empty).
    apply plainElem_spec in Hn as Hn'.
    rewrite (splitSlash_plain n) by tauto.
    rewrite cleanElems_snoc by done. by destruct (cleanElems _ _).
Qed.

Lemma properDir_Join (root n : string) :
  plainElem n = true -> properDir (Join [root; n]).
Proof.
  intros Hn. apply plainElem_spec in Hn as Hn'.
  destruct (decide (root = "")) as [->|Hr].
  - exists n. split.
    + unfold Join. rewrite bool_decide_eq_true_2 by done.
      by rewrite bool_decide_eq_false_2 by tauto.
    + rewrite splitSlash_plain by tauto.
      unfold cleanElems. simpl. by rewrite cleanStep_plain.
  - exists (root +:+ "/" +:+ n). split.
    + unfold Join. by rewrite bool_decide_eq_false_2.
    + rewrite IsAbs_app, splitSlash_app by done.
      rewrite (splitSlash_plain n) by tauto.
      rewrite cleanElems_snoc by done. by destruct (cleanElems _ _).
Qed.

(** ** Decimal numbers and the names built from them *)

Lemma pretty_N_char_not_slash (x : N) : Ascii.eqb (pretty_N_char x) "/" = false.
Proof. unfold pretty_N_char. by repeat case_match. Qed.

Lemma pretty_N_go_no_slash (x : N) (s : string) :
  occurs "/" s = false -> occurs "/" (pretty_N_go x s) = false.
Proof.
  revert s. induction (N.lt_wf_0 x) as [x _ IH]; intros s Hs.
  assert (x = 0 ∨ 0 < x)%N as [->|?] by lia.
  - by rewrite pretty_N_go_0.
  - rewrite pretty_N_go_step by done. apply IH.
    + by apply N.div_lt.
    + simpl. by rewrite pretty_N_char_not_slash.
Qed.

Lemma decimal_no_slash (n : N) : occurs "/" (decimal n) = false.
Proof.
  unfold decimal, pretty, pretty_N. case_decide; [done|].
  by apply pretty_N_go_no_slash.
Qed.

Lemma occurs_app (c : ascii) (a b : string) :
  occurs c (a +:+ b) = occurs c a || occurs c b.
Proof.
  induction a as [|x a IH]; [done|]. rewrite app_String. simpl.
  rewrite IH. by rewrite orb_assoc.
Qed.

Lemma VersionString_no_slash (v : semver) : occurs "/" (VersionString v) = false.
Proof.
  unfold VersionString. rewrite !occurs_app, !decimal_no_slash. reflexivity.
Qed.

Lemma versionDir_plain (v : semver) : plainElem ("v" +:+ VersionString v) = true.
Proof.
  apply plainElem_spec. repeat split; try done.
  rewrite occurs_app, VersionString_no_slash. reflexivity.
Qed.

(** The relative path of a payload, for a module name that is a plain
    file name. *)
Lemma Join_payload (moduleName version : string) :
  plainElem moduleName = true -> plainElem version = true ->
  Join ["../"; moduleName; version] = "../" +:+ moduleName +:+ "/" +:+ version.
Proof.
  intros Hn Hv. unfold Join. rewrite bool_decide_eq_false_2 by done.
  change (joinSlash ["../"; moduleName; version])
    with (".." +:+ "/" +:+ "" +:+ "/" +:+ moduleName +:+ "/" +:+ version).
  unfold Clean. rewrite IsAbs_app by done.
  rewrite !splitSlash_app. 
  apply plainElem_spec in Hn as Hn'. apply plainElem_spec in Hv as Hv'.
  rewrite (splitSlash_plain moduleName), (splitSlash_plain version) by tauto.
  unfold cleanElems. simpl.
  rewrite (cleanStep_plain _ _ moduleName), (cleanStep_plain _ _ version) by done.
  done.
Qed.

Lemma generateModulePath_plain (moduleName : string) (v : semver) :
  plainElem moduleName = true ->
  generateModulePath moduleName (VersionString v)
    = "../" +:+ moduleName +:+ "/v" +:+ VersionString v.
Proof.
  intros Hn. unfold generateModulePath.
  by rewrite Join_payload by auto using versionDir_plain.
Qed.
(** ** The file system calls *)

Lemma setNodes_same (x : FS) : setNodes x (nodes x) = x.
Proof. by destruct x. Qed.

Lemma removeIfExists_gone (name : string) (x : FS) :
  faults x (SysLstat name) = None ->
  faults x (SysRemove name) = None ->
  nodes x !! name ≠ Some Directory ->
  removeIfExists name x = (None, setNodes x (delete name (nodes x))).
Proof.
  intros Hl Hr Hdir. unfold removeIfExists, Lstat, Remove. rewrite Hl, Hr.
  destruct (nodes x !! name) as [n|] eqn:Hn.
  - by destruct n.
  - rewrite delete_id by done. by rewrite setNodes_same.
Qed.

Lemma enableModule_after_removals (root old new target : string) (x : FS) :
  nodes x !! old ≠ Some Directory ->
  nodes x !! new ≠ Some Directory ->
  faults x (SysLstat old) = None -> faults x (SysRemove old) = None ->
  faults x (SysLstat new) = None -> faults x (SysRemove new) = None ->
  enableModule root old new target x =
    let x2 := linksRemoved old new x in
    match Stat (Join [root; TrimPrefix target "../"]) x2 with
    | inr err =>
        if IsNotExist (Some err) then (Some err, x2)
        else Symlink_ target new x2
    | inl _ => Symlink_ target new x2
    end.
Proof.
  intros Ho Hn Hlo Hro Hln Hrn. unfold enableModule, linksRemoved.
  case_bool_decide as Hne.
  - rewrite (removeIfExists_gone old) by done.
    rewrite (removeIfExists_gone new); [done..|].
    simpl. destruct (decide (new = old)) as [->|Hd].
    + by rewrite lookup_delete_eq.
    + by rewrite lookup_delete_ne.
  - by rewrite (removeIfExists_gone new).
Qed.

Lemma Symlink_fresh (target new : string) (x : FS) :
  faults x (SysSymlink target new) = None ->
  nodes x !! new = None ->
  Symlink_ target new x = (None, setNodes x (<[new := Symlink target]> (nodes x))).
Proof. intros Hf Hn. unfold Symlink_. by rewrite Hf, Hn. Qed.

Lemma linksRemoved_faults old new x : faults (linksRemoved old new x) = faults x.
Proof. done. Qed.

Lemma linksRemoved_new old new x : nodes (linksRemoved old new x) !! new = None.
Proof. apply lookup_delete_eq. Qed.



(** ** [enableModule] *)


(** C9. In [enableModule] the check of the payload fails the call for a
    not-exist error of [os.Stat] only: with any other error of
    [os.Stat] the call goes on to [os.Symlink] and returns what that
    returns, which is the new link when [os.Symlink] is not failed. *)
Theorem enableModule_ignores_other_stat_errors
  (root old new target : string) (x : FS) (err : error) :
  nodes x !! old ≠ Some Directory ->
  nodes x !! new ≠ Some Directory ->
  faults x (SysLstat old) = None -> faults x (SysRemove old) = None ->
  faults x (SysLstat new) = None -> faults x (SysRemove new) = None ->
  Stat (Join [root; TrimPrefix target "../"]) (linksRemoved old new x) = inr err ->
  IsNotExist (Some err) = false ->
  enableModule root old new target x
    = Symlink_ target new (linksRemoved old new x)
  ∧ (faults x (SysSymlink target new) = None ->
     ∃ x', enableModule root old new target x = (None, x')
           ∧ nodes x' !! new = Some (Symlink target)).
Proof.
  intros Ho Hn Hlo Hro Hln Hrn Hst Hne.
  pose proof (enableModule_after_removals root old new target x
                Ho Hn Hlo Hro Hln Hrn) as E.
  cbv zeta in E. rewrite Hst, Hne in E. split; [exact E|].
  intros Hs. rewrite E.
  rewrite Symlink_fresh
    by (by rewrite ?linksRemoved_faults; auto using linksRemoved_new).
  eexists; split; [done|]. apply lookup_insert_eq.
Qed.


Lemma enableModule_ignores_other_stat_errors_witness :
  ∃ x', enableModule "/ext" "/ext/modules/10-mod-a" "/ext/modules/20-mod-a"
          "../mod-a/v1.0.1" fsModADenied = (None, x')
        ∧ nodes x' !! "/ext/modules/20-mod-a" = Some (Symlink "../mod-a/v1.0.1").
Proof.
  destruct (enableModule_ignores_other_stat_errors "/ext"
              "/ext/modules/10-mod-a" "/ext/modules/20-mod-a"
              "../mod-a/v1.0.1" fsModADenied
              (PathError "stat" "/ext/mod-a/v1.0.1" EACCES))
    as [_ H]; try (vm_compute; congruence).
  apply H. reflexivity.
Defined.

(** ** The restart debouncer *)

Lemma firings_S (first : Z) (n : nat) :
  firings first (S n) = first :: firings (first + delay) n.
Proof.
  unfold firings. simpl. f_equal; [lia|].
  rewrite <- fmap_S_seq, <- list_fmap_compose.
  apply list_fmap_ext. intros _ i _. simpl. lia.
Qed.

Lemma restartLoop_reason (turns : nat) (horizon : Z) (d : Debounce) :
  restartReason (restartLoop turns horizon d) = restartReason d.
Proof.
  revert d. induction turns as [|n IH]; intros d; simpl; [done|].
  destruct (delayTimer d <=? horizon)%Z; [|done]. by rewrite IH.
Qed.

Lemma restartLoop_quiet (turns : nat) (horizon : Z) (d : Debounce) :
  restartReason d = "" ->
  signals (restartLoop turns horizon d) = signals d.
Proof.
  revert d. induction turns as [|n IH]; intros d Hd; simpl; [done|].
  destruct (delayTimer d <=? horizon)%Z; [|done].
  rewrite IH by done. unfold restartLoopFire; simpl.
  by rewrite Hd.
Qed.

Lemma restartLoop_fires (turns : nat) (horizon : Z) (d : Debounce) :
  restartReason d ≠ "" ->
  (turns = 0%nat ∨ (delayTimer d + delay * (Z.of_nat turns - 1) <= horizon)%Z) ->
  restartLoop turns horizon d =
    {| delayTimer := delayTimer d + delay * Z.of_nat turns;
       restartReason := restartReason d;
       signals := signals d ++ firings (delayTimer d) turns |}.
Proof.
  unfold delay. revert d. induction turns as [|n IH]; intros d Hd Hh; simpl.
  - destruct d; simpl. f_equal; [lia|]. by rewrite app_nil_r.
  - destruct Hh as [|Hh]; [done|].
    rewrite (proj2 (Z.leb_le _ _)) by lia.
    rewrite IH; simpl.
    + rewrite bool_decide_eq_true_2 by done.
      rewrite firings_S, <- app_assoc. unfold delay. simpl. f_equal. lia.
    + done.
    + unfold delay. destruct n; [by left|right; lia].
Qed.

Lemma turnsUntil_fits (horizon : Z) (d : Debounce) :
  turnsUntil horizon d = 0%nat
  ∨ (delayTimer d + delay * (Z.of_nat (turnsUntil horizon d) - 1) <= horizon)%Z.
Proof.
  unfold turnsUntil, delay.
  destruct (decide (delayTimer d <= horizon)%Z) as [Hle|Hgt].
  - right. rewrite Z2Nat.id.
    + pose proof (Z.mul_div_le (horizon - delayTimer d) 5000). lia.
    + pose proof (Z.div_pos (horizon - delayTimer d) 5000). lia.
  - left.
    assert ((horizon - delayTimer d) / 5000 < 0)%Z
      by (apply Z.div_lt_upper_bound; lia).
    lia.
Qed.


(** The turns [idleUntil] gives the loop are enough: the timer is then
    set past the horizon. *)
Lemma idleUntil_rearmed (horizon : Z) (d : Debounce) :
  restartReason d ≠ "" ->
  (horizon < delayTimer (idleUntil horizon d))%Z.
Proof.
  intros Hd. unfold idleUntil.
  rewrite restartLoop_fires by auto using turnsUntil_fits. simpl.
  unfold turnsUntil, delay.
  destruct (decide (delayTimer d <= horizon)%Z) as [Hle|Hgt].
  - rewrite Z2Nat.id
      by (pose proof (Z.div_pos (horizon - delayTimer d) 5000); lia).
    pose proof (Z.mod_pos_bound (horizon - delayTimer d) 5000).
    pose proof (Z.div_mod (horizon - delayTimer d) 5000). lia.
  - lia.
Qed.






(** ** The search for the current symlink *)

Lemma findWalkDir_result (moduleName path : string) (d : option DirEntry)
  (err : option error) (s : string) (r : option walkError) (s' : string) :
  findWalkDir moduleName path d err s = Done (r, s') ->
  r = None ∨ r = Some SkipDir.
Proof.
  unfold findWalkDir. destruct d as [d|]; [|done].
  destruct (negb _); intros [= <- <-]; auto.
Qed.

Section WalkNeverFails.
Context {St : Type} (x : FS) (fn : WalkDirFunc St).
Hypothesis fn_result : ∀ path d err s r s',
  fn path d err s = Done (r, s') -> r = None ∨ r = Some SkipDir.

Lemma walkDir_never_fails (depth : nat) :
  ∀ path d s r s',
    walkDir x fn depth path d s = Done (r, s') ->
    r = None ∨ r = Some SkipDir.
Proof using fn_result.
  induction depth as [|depth IH]; intros path d s r s'; simpl; [done|].
  destruct (fn path (Some d) None s) as [[[[| |e]|] s1]| |] eqn:E1; try done.
  - destruct (IsDir d); intros [= <- <-]; auto.
  - intros [= <- <-]. by apply fn_result in E1 as [|].
  - by apply fn_result in E1 as [|].
  - destruct (negb (IsDir d)); [intros [= <- <-]; auto|].
    assert (Hvisit : ∀ dirs s0 r0 s0',
      (fix visit (dirs : list DirEntry) (s : St)
         : outcome (option walkError * St) :=
         match dirs with
         | [] => Done (None, s)
         | d1 :: dirs' =>
             match walkDir x fn depth (Join [path; Name d1]) d1 s with
             | Done (None, s') => visit dirs' s'
             | Done (Some SkipDir, s') => Done (None, s')
             | other => other
             end
         end) dirs s0 = Done (r0, s0') -> r0 = None ∨ r0 = Some SkipDir).
    { induction dirs as [|d1 dirs IHd]; intros s0 r0 s0'; [intros [= <- <-]; auto|].
      destruct (walkDir x fn depth (Join [path; Name d1]) d1 s0)
        as [[[[| |e]|] s2]| |] eqn:E2; try done.
      - intros [= <- <-]; auto.
      - by apply IH in E2 as [|].
      - by apply IH in E2 as [|].
      - apply IHd. }
    destruct (ReadDir path x) as [dirs|err]; [apply Hvisit|].
    destruct (fn path (Some d) (Some err) s1)
      as [[[[| |e]|] s2]| |] eqn:E3; try done.
    + destruct (IsDir d); intros [= <- <-]; auto.
    + by apply fn_result in E3 as [|].
    + by apply fn_result in E3 as [|].
    + intros [= <- <-]; auto.
Qed.

End WalkNeverFails.

(** [findExistingModuleSymlink] never returns an error: the closure
    returns nil or [filepath.SkipDir], and [filepath.WalkDir] turns
    [SkipDir] into nil. *)
Lemma findExistingModuleSymlink_no_error (rootPath moduleName : string)
  (x : FS) (symlinkPath : string) (err : option error) :
  findExistingModuleSymlink rootPath moduleName x = Done (symlinkPath, err) ->
  err = None.
Proof.
  unfold findExistingModuleSymlink, WalkDir.
  destruct (Lstat rootPath x) as [n|e]; [|done].
  destruct (walkDir _ _ _ _ _ _) as [[[[| |e]|] s]| |] eqn:E;
    try done; try (by intros [= <- <-]).
  apply walkDir_never_fails in E as [|]; [done..|].
  apply findWalkDir_result.
Qed.

(** So the fallback "900-<moduleName>" is never what the caller takes:
    the path it takes is the one the walk left, the empty string when no
    entry matched. *)
Lemma currentSymlink_is_the_walk (c : Controller) (moduleName : string)
  (w w' : World) (p : string) :
  currentSymlink c moduleName w = Done (p, w') ->
  findExistingModuleSymlink (symlinksDir c) moduleName (fs w) = Done (p, None)
  ∧ w' = w.
Proof.
  unfold currentSymlink, bind, get.
  destruct (findExistingModuleSymlink _ _ _) as [[q [e|]]| |] eqn:E; try done.
  - by apply findExistingModuleSymlink_no_error in E.
  - by intros [= <- <-].
Qed.


(** ** The Pending pass when [enableModule] fails *)

(** C1, on the code: scenario 3 of the spec, mod-b 2.0.0 Pending with no
    payload on disk and a server that takes every write. The pass writes
    Suspended with the message, then goes on: it writes Deployed with the
    message cleared over it, records the reason of a restart and returns
    success. No finalizer is written and no symlink is made. *)
Theorem failed_enable_still_deploys :
  match reconcilePendingRelease specPredictor (NewController "/ext") modB
          (worldOf fsEmpty [modB]) with
  | Done (res, w') =>
      res = (emptyResult, None)
      ∧ statusWrites (apiLog w') =
          [("mod-b-v2.0.0", "Suspended",
            "Desired version of the module met problems: not found", true);
           ("mod-b-v2.0.0", "Deployed", "", true)]
      ∧ Phase ∘ Status <$> server w' !! "mod-b-v2.0.0" = Some "Deployed"
      ∧ Finalizers <$> server w' !! "mod-b-v2.0.0" = Some []
      ∧ restartReason (debounce w') = "a new module release found"
      ∧ nodes (fs w') !! "/ext/modules/20-mod-b" = None
  | _ => False
  end.
Proof. vm_compute. repeat split. Qed.

(** ** The purge of orphans at preflight *)

Lemma prefix_app (a b c : string) :
  String.prefix (a +:+ b) (a +:+ c) = String.prefix b c.
Proof.
  induction a as [|x a IH]; [done|]. rewrite !app_String. simpl.
  by destruct (ascii_dec x x).
Qed.

Lemma prefix_occurs (n t s : string) (c : ascii) :
  String.prefix (n +:+ String c t) s = true -> occurs c s = true.
Proof.
  revert s. induction n as [|x n IH]; intros s.
  - rewrite app_empty. destruct s as [|a r]; simpl; [done|].
    destruct (ascii_dec c a) as [->|]; [|done]. by rewrite Ascii.eqb_refl.
  - rewrite app_String. destruct s as [|a r]; simpl; [done|].
    destruct (ascii_dec x a); [|done]. intros H%IH. rewrite H.
    by destruct (Ascii.eqb a c).
Qed.

(** A sibling with another name is not below an entry of the
    directory. *)
Lemma under_sibling (dir n name : string) :
  occurs "/" name = false ->
  under (dir +:+ "/" +:+ n) (dir +:+ "/" +:+ name) = false.
Proof.
  intros Hname. unfold under. rewrite !append_assoc, !prefix_app.
  destruct (String.prefix _ _) eqn:E; [|done].
  apply prefix_occurs in E. congruence.
Qed.

Lemma RemoveAll_other (p q : string) (x : FS) :
  q ≠ p -> under p q = false ->
  nodes (RemoveAll p x).2 !! q = nodes x !! q.
Proof.
  intros Hne Hu. unfold RemoveAll.
  destruct (faults x (SysRemoveAll p)); [done|]. simpl.
  destruct (nodes x !! q) as [v|] eqn:E.
  - apply map_lookup_filter_Some. split; [done|]. simpl.
    intros [?|?]; congruence.
  - apply map_lookup_filter_None. by left.
Qed.

Lemma insertByName_Forall (P : DirEntry -> Prop) (d : DirEntry)
  (l : list DirEntry) :
  P d -> Forall P l -> Forall P (insertByName d l).
Proof.
  intros Hd. induction 1 as [|d' l Hd' Hl IH]; simpl; [by repeat constructor|].
  destruct (String.leb _ _); by repeat constructor.
Qed.

Lemma sortByName_Forall (P : DirEntry -> Prop) (l : list DirEntry) :
  Forall P l -> Forall P (sortByName l).
Proof.
  induction 1; simpl; [constructor|]. by apply insertByName_Forall.
Qed.

(** The names [os.ReadDir] returns are not empty and hold no slash. *)
Lemma entries_names (m : gmap string node) (dir : string) :
  Forall (λ d, Name d ≠ "" ∧ occurs "/" (Name d) = false) (entries m dir).
Proof.
  apply sortByName_Forall. apply Forall_forall. intros d Hd.
  apply list_elem_of_omap in Hd as (kv & _ & Hkv).
  unfold entryOf in Hkv. destruct (under dir kv.1); [|done].
  destruct (bool_decide (_ = "")) eqn:E1; [done|].
  destruct (bool_decide (_ ≠ _)) eqn:E2; [done|].
  simpl in Hkv. injection Hkv as <-. simpl.
  apply bool_decide_eq_false in E1, E2. split; [done|].
  apply Index_char. by apply dec_stable.
Qed.

Lemma dashed_name_plain (n : string) :
  n ≠ "" -> occurs "/" n = false -> Index n "-" ≠ (-1)%Z ->
  plainElem n = true.
Proof.
  intros H1 H2 H3. apply plainElem_spec. repeat split; try done.
  - by intros ->.
  - by intros ->.
Qed.


Lemma foldl_delete_lookup (releases : list ModuleRelease)
  (m : gmap string string) (k v : string) :
  foldl (fun (m : gmap string string) release =>
           delete (ModuleName (Spec release)) m) m releases !! k = Some v ->
  m !! k = Some v.
Proof.
  revert m. induction releases as [|r l IH]; intros m; [done|]. simpl.
  intros H%IH. by apply lookup_delete_Some in H as [_ ?].
Qed.

Lemma foldl_RemoveAll_other (paths : list string) (x : FS) (q : string) :
  Forall (λ p, q ≠ p ∧ under p q = false) paths ->
  nodes (foldl (fun x moduleLinkPath => (RemoveAll moduleLinkPath x).2)
           x paths) !! q = nodes x !! q.
Proof.
  revert x. induction paths as [|p l IH]; intros x Hall; [done|].
  inversion_clear Hall as [|?? [H1 H2] Hl]. simpl.
  rewrite IH by done. by apply RemoveAll_other.
Qed.



(** ** The restoration of absent modules at preflight *)

Ltac unfoldM :=
  repeat progress unfold bind, ret, get, modify, panic, readFS, onFS, getSource.

(** Case analysis on whatever a [match] of the goal looks at, innermost
    first. *)
Ltac cases :=
  match goal with
  | |- context [match ?x with _ => _ end] =>
      lazymatch x with
      | context [match _ with _ => _ end] => fail
      | _ => destruct x eqn:?
      end
  | |- context [if ?x then _ else _] =>
      lazymatch x with
      | context [match _ with _ => _ end] => fail
      | _ => destruct x eqn:?
      end
  end.

Section Restore.
Variable DownloadByModuleVersion :
  string -> ModuleSource -> string -> string -> FS -> option error * FS.
Variable c : Controller.

Local Abbreviation body := (restoreAbsentItem DownloadByModuleVersion c).





End Restore.


(** ** The Pending pass: its status writes *)

Ltac unfoldMin H :=
  repeat progress unfold bind, ret, get, modify, panic, readFS, onFS, getSource in H.

Ltac casesin H :=
  match type of H with
  | context [match ?x with _ => _ end] =>
      lazymatch x with
      | context [match _ with _ => _ end] => fail
      | _ => destruct x eqn:?
      end
  | context [if ?x then _ else _] =>
      lazymatch x with
      | context [match _ with _ => _ end] => fail
      | _ => destruct x eqn:?
      end
  end.

Lemma sameNames_refl (w : World) : sameNames w w.
Proof. done. Qed.

Lemma sameNames_trans (w1 w2 w3 : World) :
  sameNames w1 w2 -> sameNames w2 w3 -> sameNames w1 w3.
Proof. intros H1 H2 p. by rewrite H2, H1. Qed.

(** A status write through a pointer: one call in the log, with the
    object as the caller left it and the time of the write; the cache
    keeps the object, the file system is not touched. *)
Lemma statusWrite_spec (f : ModuleRelease -> ModuleRelease) (p : string)
  (w w' : World) (e : option error) :
  (∀ r, ObjectName (f r) = ObjectName r) ->
  onPointer p (fun r => updateModuleReleaseStatus (f r)) w = Done (e, w') ->
  ∃ r, releasesStore w !! p = Some r
       ∧ apiLog w' = apiLog w
                     ++ [UpdateStatusCall (setTransitionTime (f r) (clock w))
                           (bool_decide (e = None))]
       ∧ sameNames w w' ∧ fs w' = fs w ∧ clock w' = clock w
       ∧ debounce w' = debounce w.
Proof.
  intros Hf H. unfold onPointer, deref, assign, updateModuleReleaseStatus,
    UpdateStatus, nextAnswer, record in H. unfoldMin H.
  destruct (releasesStore w !! p) as [r|] eqn:Hp; [|done].
  exists r. split; [done|].
  assert (Hn : ∀ q,
            ObjectName <$> <[p := setTransitionTime (f r) (clock w)]>
                             (releasesStore w) !! q
            = ObjectName <$> releasesStore w !! q).
  { intros q. destruct (decide (q = p)) as [->|Hq].
    - rewrite lookup_insert_eq, Hp. simpl. by rewrite Hf.
    - by rewrite lookup_insert_ne. }
  repeat (simpl in H; casesin H); simplify_eq; simpl;
    (split; [done|]); (split; [intros q; apply Hn|]); done.
Qed.

Lemma suspend_spec (err : error) (p : string) (w w' : World)
  (e : option error) :
  onPointer p (suspendModuleVersionForRelease err) w = Done (e, w') ->
  ∃ r obj, releasesStore w !! p = Some r
           ∧ ObjectName obj = ObjectName r
           ∧ Phase (Status obj) = PhaseSuspended
           ∧ apiLog w' = apiLog w
                         ++ [UpdateStatusCall obj (bool_decide (e = None))]
           ∧ sameNames w w' ∧ fs w' = fs w ∧ clock w' = clock w
           ∧ debounce w' = debounce w.
Proof.
  intros H. unfold suspendModuleVersionForRelease in H.
  apply (statusWrite_spec
           (fun r => setMessage (setPhase r PhaseSuspended)
                       ("Desired version of the module met problems: "
                        +:+ Error (if IsNotExist (Some err)
                                   then errorString "not found" else err))))
    in H as (r & Hp & Hlog & Hrest); [|done].
  eexists r, _. split; [done|]. split; [|split; [|split; [exact Hlog|exact Hrest]]]; done.
Qed.

Section PendingPass.
Variable calculateRelease : list ModuleRelease -> Prediction.
Variable c : Controller.

Lemma restoreLatest_spec (releases : list string) (pred : Prediction)
  (moduleName cur : string) (w w' : World)
  (r : (Result * option error) + string) :
  restoreLatest c releases pred moduleName cur w = Done (r, w') ->
  sameNames w w' ∧ clock w' = clock w
  ∧ match r with
    | inr _ => apiLog w' = apiLog w
    | inl res => ∃ obj ok, apiLog w' = apiLog w ++ [UpdateStatusCall obj ok]
                           ∧ Phase (Status obj) = PhaseSuspended
                           ∧ res.1 = requeue
    end.
Proof.
  intros H. unfold restoreLatest, at_, deref in H. unfoldMin H.
  repeat (simpl in H; casesin H); simplify_eq; simpl; try done;
    match goal with
    | E : onPointer _ (suspendModuleVersionForRelease _) _ = Done _ |- _ =>
        apply suspend_spec in E
          as (r0 & obj & _ & _ & Hph & Hlog & Hn & _ & Hc & _)
    end.
  all: (split; [exact Hn|]); (split; [exact Hc|]); eauto.
Qed.

Lemma supersedeSkipped_spec (releases : list string) (indexes : list Z)
  (w w' : World) (e : option error) :
  supersedeSkipped releases indexes w = Done (e, w') ->
  sameNames w w' ∧ clock w' = clock w ∧ fs w' = fs w
  ∧ debounce w' = debounce w
  ∧ ∃ l, apiLog w' = apiLog w ++ l
         ∧ Forall writesNoDeployed l
         ∧ (e = None ->
            ∀ idx, idx ∈ indexes ->
              (0 <= idx)%Z
              ∧ ∃ p name, releases !! Z.to_nat idx = Some p
                          ∧ ObjectName <$> releasesStore w !! p = Some name
                          ∧ Exists (writes name PhaseSuperseded true) l).
Proof.
  revert w. induction indexes as [|index rest IH]; intros w H; simpl in H.
  - unfoldMin H. simplify_eq. do 4 (split; [done|]).
    exists []. split; [by rewrite app_nil_r|]. split; [done|].
    intros _ idx Hin. by apply elem_of_nil in Hin.
  - unfold bind at 1 in H. unfold at_ in H.
    destruct (index <? 0)%Z eqn:Hneg; [done|].
    destruct (releases !! Z.to_nat index) as [p|] eqn:Hp; [|done].
    unfold ret at 1 in H. unfold bind at 1 in H.
    destruct (onPointer p _ w) as [[e1 w1]| |] eqn:E1; [|done..].
    apply (statusWrite_spec (fun r => setPhase r PhaseSuperseded)) in E1
      as (r & Hr & Hlog & Hn & Hfs & Hc & Hdb); [|done].
    destruct e1 as [e1|].
    + unfoldMin H. simplify_eq. do 4 (split; [done|]).
      eexists. split; [exact Hlog|]. split; [|done].
      constructor; [|done]. by eexists _, _.
    + apply IH in H as (Hn' & Hc' & Hfs' & Hdb' & l & Hlog' & Hall & Hidx).
      split; [by eapply sameNames_trans|]. split; [congruence|].
      split; [congruence|]. split; [congruence|].
      exists (UpdateStatusCall (setTransitionTime (setPhase r PhaseSuperseded) (clock w)) true :: l).
      split; [by rewrite Hlog', Hlog, <- app_assoc|]. split.
      { constructor; [|done]. by eexists _, _. }
      intros He idx Hin. apply elem_of_cons in Hin as [->|Hin].
      * split; [lia|]. exists p, (ObjectName r). rewrite Hp, Hr.
        do 2 (split; [done|]). left. by eexists.
      * destruct (Hidx He idx Hin) as (H0 & p' & name & Hp' & Hname & Hex).
        split; [done|]. exists p', name. split; [done|].
        split; [by rewrite <- Hn|]. by right.
Qed.

Lemma supersedeCurrent_spec (releases : list string) (pred : Prediction)
  (w w' : World) (e : option error) :
  supersedeCurrent releases pred w = Done (e, w') ->
  sameNames w w' ∧ clock w' = clock w ∧ fs w' = fs w
  ∧ debounce w' = debounce w
  ∧ if (0 <=? currentReleaseIndex pred)%Z then
      ∃ p r obj,
        releases !! Z.to_nat (currentReleaseIndex pred) = Some p
        ∧ releasesStore w !! p = Some r
        ∧ ObjectName obj = ObjectName r
        ∧ Phase (Status obj) = PhaseSuperseded
        ∧ Message (Status obj) = ""
        ∧ apiLog w' = apiLog w
                      ++ [UpdateStatusCall obj (bool_decide (e = None))]
    else apiLog w' = apiLog w ∧ e = None.
Proof.
  intros H. unfold supersedeCurrent in H.
  destruct (0 <=? currentReleaseIndex pred)%Z eqn:Hcur.
  - unfold bind at 1 in H. unfold at_ in H.
    destruct (currentReleaseIndex pred <? 0)%Z; [done|].
    destruct (releases !! _) as [p|] eqn:Hp; [|done].
    unfold ret at 1 in H.
    apply (statusWrite_spec
             (fun r => setMessage (setPhase r PhaseSuperseded) "")) in H
      as (r & Hr & Hlog & Hn & Hfs & Hc & Hdb); [|done].
    do 4 (split; [done|]). eexists p, r, _.
    split; [done|]. split; [done|]. split; [|split; [|split; [|exact Hlog]]]; done.
  - unfoldMin H. by simplify_eq.
Qed.

Lemma deployDesired_spec (releases : list string) (pred : Prediction)
  (moduleName cur reason : string) (w w' : World) (r : error + string) :
  deployDesired c releases pred moduleName cur reason w = Done (r, w') ->
  sameNames w w' ∧ clock w' = clock w
  ∧ if (0 <=? desiredReleaseIndex pred)%Z then
      ∃ p r0 susp,
        releases !! Z.to_nat (desiredReleaseIndex pred) = Some p
        ∧ releasesStore w !! p = Some r0
        ∧ Forall writesNoDeployed susp
        ∧ ((apiLog w' = apiLog w ++ susp ∧ ∃ e, r = inl e)
           ∨ ∃ obj ok,
               apiLog w' = apiLog w ++ susp ++ [UpdateStatusCall obj ok]
               ∧ ObjectName obj = ObjectName r0
               ∧ Phase (Status obj) = PhaseDeployed
               ∧ (ok = true -> r = inr "a new module release found")
               ∧ (ok = false -> ∃ e, r = inl e))
    else apiLog w' = apiLog w ∧ r = inr reason ∧ fs w' = fs w
         ∧ debounce w' = debounce w.
Proof.
  intros H. unfold deployDesired in H.
  destruct (0 <=? desiredReleaseIndex pred)%Z eqn:Hdes;
    [|unfoldMin H; by simplify_eq].
  unfold bind at 1 in H. unfold at_ in H.
  destruct (desiredReleaseIndex pred <? 0)%Z; [done|].
  destruct (releases !! _) as [p|] eqn:Hp; [|done].
  unfold ret at 1 in H. unfold bind at 1 in H. unfold deref in H.
  unfold bind at 1, get at 1 in H.
  destruct (releasesStore w !! p) as [r0|] eqn:Hr0; [|done].
  unfold ret at 1 in H. unfold bind at 1, onFS at 1 in H.
  destruct (enableModule _ _ _ _ (fs w)) as [err x1] eqn:Hen.
  set (w1 := setFs w x1) in *.
  assert (Hw1 : sameNames w w1 ∧ clock w1 = clock w ∧ apiLog w1 = apiLog w
                ∧ releasesStore w1 !! p = Some r0) by done.
  destruct Hw1 as (Hn1 & Hc1 & Hl1 & Hr1). clearbody w1.
  unfold bind at 1 in H.
  assert (Hsusp : ∃ e2 w2 susp,
            match err with
            | Some err => onPointer p (suspendModuleVersionForRelease err)
            | None => ret None
            end w1 = Done (e2, w2)
            ∧ sameNames w1 w2 ∧ clock w2 = clock w1
            ∧ apiLog w2 = apiLog w1 ++ susp
            ∧ Forall writesNoDeployed susp
            ∧ ObjectName <$> releasesStore w2 !! p = Some (ObjectName r0)).
  { destruct err as [err|].
    - destruct (onPointer p _ w1) as [[e2 w2]| |] eqn:E2; [|done..].
      apply suspend_spec in E2 as E2'.
      destruct E2' as (r1 & obj & Hr1' & Hname & Hph & Hlog & Hn2 & _ & Hc2 & _).
      eexists e2, w2, _. split; [done|]. split; [done|]. split; [done|].
      split; [exact Hlog|]. split.
      + constructor; [|done]. exists obj, (bool_decide (e2 = None)).
        split; [done|]. by rewrite Hph.
      + by rewrite Hn2, Hr1.
    - exists None, w1, []. unfold ret. rewrite app_nil_r, Hr1.
      repeat split; done. }
  destruct Hsusp as (e2 & w2 & susp & E2 & Hn2 & Hc2 & Hl2 & Hs2 & Hname2).
  rewrite E2 in H.
  split; [|split]; [| |exists p, r0, susp; do 3 (split; [done|])].
  3: { destruct e2 as [e2|].
       - unfoldMin H. simplify_eq. left. split; [congruence|by eexists].
       - unfold sendDocumentation in H. unfold bind at 1, ret at 1 in H.
         unfold bind at 1 in H.
         destruct (onPointer p _ w2) as [[e3 w3]| |] eqn:E3; [|done..].
         apply (statusWrite_spec
                  (fun r => setMessage (setPhase r PhaseDeployed) "")) in E3
           as (r3 & Hr3 & Hlog3 & _); [|done].
         right.
         exists (setTransitionTime (setMessage (setPhase r3 PhaseDeployed) "")
                   (clock w2)), (bool_decide (e3 = None)).
         split.
         { assert (apiLog w' = apiLog w3) as ->
             by (destruct e3; unfoldMin H; by simplify_eq).
           rewrite Hlog3, Hl2, Hl1, <- app_assoc. done. }
         split.
         { simpl. rewrite Hr3 in Hname2. by injection Hname2. }
         split; [done|].
         destruct e3 as [e3|]; unfoldMin H; simplify_eq; split; try done.
         intros _. by eexists. }
  - destruct e2 as [e2|].
    + unfoldMin H. simplify_eq. by eapply sameNames_trans.
    + unfold sendDocumentation in H. unfold bind at 1, ret at 1 in H.
      unfold bind at 1 in H.
      destruct (onPointer p _ w2) as [[e3 w3]| |] eqn:E3; [|done..].
      apply (statusWrite_spec
               (fun r => setMessage (setPhase r PhaseDeployed) "")) in E3
        as (r3 & Hr3 & Hlog3 & Hn3 & _); [|done].
      assert (w' = w3) as -> by (destruct e3; unfoldMin H; by simplify_eq).
      eapply sameNames_trans; [|exact Hn3]. by eapply sameNames_trans.
  - destruct e2 as [e2|].
    + unfoldMin H. simplify_eq. congruence.
    + unfold sendDocumentation in H. unfold bind at 1, ret at 1 in H.
      unfold bind at 1 in H.
      destruct (onPointer p _ w2) as [[e3 w3]| |] eqn:E3; [|done..].
      apply (statusWrite_spec
               (fun r => setMessage (setPhase r PhaseDeployed) "")) in E3
        as (r3 & Hr3 & Hlog3 & Hn3 & _ & Hc3 & _); [|done].
      assert (w' = w3) as -> by (destruct e3; unfoldMin H; by simplify_eq).
      congruence.
Qed.

Lemma insertByVersion_elem (x a : string * ModuleRelease)
  (l : list (string * ModuleRelease)) :
  x ∈ insertByVersion a l -> x = a ∨ x ∈ l.
Proof.
  induction l as [|b l IH]; simpl.
  - intros ->%list_elem_of_singleton. by left.
  - destruct (LessThan _ _).
    + intros [->|H]%elem_of_cons; [right; by left|].
      destruct (IH H) as [->|?]; [by left|right; by right].
    + intros [->|H]%elem_of_cons; [by left|by right].
Qed.

Lemma sortByVersion_elem (x : string * ModuleRelease)
  (l : list (string * ModuleRelease)) :
  x ∈ sortByVersion l -> x ∈ l.
Proof.
  induction l as [|a l IH]; simpl; [done|].
  intros [->|H]%insertByVersion_elem; [by left|right; auto].
Qed.

(** The pointers of the list lead to the objects of the list. *)
Lemma releasesOf_lookup (moduleName : string) (w : World) (i : nat)
  (p : string) (r : ModuleRelease) :
  releasesOf moduleName w !! i = Some (p, r) -> releasesStore w !! p = Some r.
Proof.
  intros H%list_elem_of_lookup_2. unfold releasesOf in H.
  apply sortByVersion_elem, list_elem_of_filter in H as [_ H].
  by apply elem_of_map_to_list in H.
Qed.

Lemma releasesOf_pointer (moduleName : string) (w : World) (i : nat)
  (p : string) :
  (releasesOf moduleName w).*1 !! i = Some p ->
  ∃ r, (releasesOf moduleName w).*2 !! i = Some r
       ∧ releasesStore w !! p = Some r.
Proof.
  rewrite !list_lookup_fmap.
  destruct (releasesOf moduleName w !! i) as [[p' r]|] eqn:E; [|done].
  simpl. intros [= ->]. exists r. split; [done|].
  by eapply releasesOf_lookup.
Qed.

Lemma writes_noDeployed (name phase : string) (ok : bool) (call : ApiCall) :
  phase ≠ PhaseDeployed -> writes name phase ok call -> writesNoDeployed call.
Proof. intros Hne (obj & -> & _ & Hp). exists obj, ok. by rewrite Hp. Qed.

(** What the Pending pass adds to the log: status writes with a phase
    other than Deployed, then at most one status write with the phase
    Deployed, for the desired release, which the write that supersedes
    the current release (when there is one) has preceded. *)
Lemma pending_pass_log (mr : ModuleRelease) (w w' : World)
  (res : Result * option error) :
  reconcilePendingRelease calculateRelease c mr w = Done (res, w') ->
  let rs := releasesOf (ModuleName (Spec mr)) w in
  let pred := calculateRelease rs.*2 in
  ∃ before final,
    apiLog w' = apiLog w ++ before ++ final
    ∧ Forall writesNoDeployed before
    ∧ (final = []
       ∨ ∃ obj ok des,
           final = [UpdateStatusCall obj ok]
           ∧ Phase (Status obj) = PhaseDeployed
           ∧ (0 <= desiredReleaseIndex pred)%Z
           ∧ rs.*2 !! Z.to_nat (desiredReleaseIndex pred) = Some des
           ∧ ObjectName obj = ObjectName des
           ∧ ((0 <= currentReleaseIndex pred)%Z ->
              ∃ cur,
                rs.*2 !! Z.to_nat (currentReleaseIndex pred) = Some cur
                ∧ Exists (writes (ObjectName cur) PhaseSuperseded true) before))
    ∧ (res = (emptyResult, None) ->
       ∀ idx, idx ∈ skippedPatchesIndexes pred ->
         (0 <= idx)%Z
         ∧ ∃ r, rs.*2 !! Z.to_nat idx = Some r
                ∧ Exists (writes (ObjectName r) PhaseSuperseded true) before).
Proof.
  intros H rs pred. unfold reconcilePendingRelease in H.
  unfold bind at 1, listByModule at 1, bind at 1, get at 1, ret at 1 in H.
  fold (releasesOf (ModuleName (Spec mr)) w) in H. fold rs pred in H.
  unfold bind at 1 in H.
  destruct (currentSymlink c _ w) as [[cur w0]| |] eqn:Hcur; [|done..].
  apply currentSymlink_is_the_walk in Hcur as [_ ->].
  unfold bind at 1 in H.
  destruct (restoreLatest c _ _ _ _ w) as [[ra wa]| |] eqn:Ha; [|done..].
  apply restoreLatest_spec in Ha as (Hna & Hca & Hla).
  destruct ra as [res0|reason].
  { (* the restore failed and the pass returned *)
    unfold ret in H. simplify_eq.
    destruct Hla as (obj & ok & Hlog & Hph & Hres).
    exists [UpdateStatusCall obj ok], []. rewrite app_nil_r.
    split; [done|]. split.
    { constructor; [|done]. exists obj, ok. by rewrite Hph. }
    split; [by left|]. intros ->. done. }
  unfold bind at 1 in H.
  destruct (supersedeSkipped _ _ wa) as [[eb wb]| |] eqn:Hb; [|done..].
  apply supersedeSkipped_spec in Hb
    as (Hnb & Hcb & _ & _ & lb & Hlb & Hallb & Hidx).
  destruct eb as [eb|].
  { unfold ret in H. simplify_eq. exists lb, []. rewrite app_nil_r.
    split; [by rewrite Hlb, Hla|]. split; [done|]. split; [by left|]. done. }
  unfold bind at 1 in H.
  destruct (supersedeCurrent _ _ wb) as [[ec wc]| |] eqn:Hc; [|done..].
  apply supersedeCurrent_spec in Hc as (Hnc & Hcc & _ & _ & Hlc).
  (* the write that supersedes the current release, if there is one *)
  assert (Hcurrent : ∃ lc,
            apiLog wc = apiLog wb ++ lc ∧ Forall writesNoDeployed lc
            ∧ (ec = None -> (0 <= currentReleaseIndex pred)%Z ->
               ∃ cur,
                 rs.*2 !! Z.to_nat (currentReleaseIndex pred) = Some cur
                 ∧ Exists (writes (ObjectName cur) PhaseSuperseded true) lc)).
  { destruct (0 <=? currentReleaseIndex pred)%Z eqn:Hge.
    - destruct Hlc as (p & r & obj & Hp & Hr & Hname & Hph & _ & Hlog).
      eexists. split; [exact Hlog|]. split.
      + constructor; [|done]. eexists _, _. split; [done|]. by rewrite Hph.
      + intros -> _. apply releasesOf_pointer in Hp as (cur0 & Hcur0 & Hst).
        exists cur0. split; [done|]. left. exists obj.
        split; [done|]. split; [|done]. rewrite Hname.
        pose proof (sameNames_trans _ _ _ Hna Hnb p) as Hsame.
        rewrite Hr, Hst in Hsame. by injection Hsame.
    - destruct Hlc as [Hlog ->]. exists []. rewrite app_nil_r.
      split; [done|]. split; [done|]. intros _ ?. apply Z.leb_gt in Hge. lia. }
  destruct Hcurrent as (lc & Hlogc & Hallc & Hcurw).
  assert (Hskipped : ∀ idx, idx ∈ skippedPatchesIndexes pred ->
            (0 <= idx)%Z
            ∧ ∃ r, rs.*2 !! Z.to_nat idx = Some r
                   ∧ Exists (writes (ObjectName r) PhaseSuperseded true) lb).
  { intros idx Hin. destruct (Hidx eq_refl idx Hin) as (H0 & p & name & Hp & Hname & Hex).
    split; [done|]. apply releasesOf_pointer in Hp as (r & Hr & Hst).
    exists r. split; [done|]. rewrite Hna, Hst in Hname. by injection Hname as <-. }
  destruct ec as [ec|].
  { unfold ret in H. simplify_eq. exists (lb ++ lc), []. rewrite app_nil_r.
    split; [by rewrite Hlogc, Hlb, Hla, <- app_assoc|].
    split; [by apply Forall_app|]. split; [by left|]. done. }
  unfold bind at 1 in H.
  destruct (deployDesired c _ _ _ _ _ wc) as [[rd wd]| |] eqn:Hd; [|done..].
  apply deployDesired_spec in Hd as (Hnd & Hcd & Hld).
  assert (Hlogw' : apiLog w' = apiLog wd).
  { destruct rd as [e|reason']; [unfold ret in H; by simplify_eq|].
    unfold bind at 1 in H.
    destruct (bool_decide (reason' ≠ "")); unfold emitRestartNow in H;
      unfoldMin H; by simplify_eq. }
  assert (Hres : res = (emptyResult, None) -> ∃ reason', rd = inr reason').
  { destruct rd as [e|reason']; [unfold ret in H; by simplify_eq|]. by eexists. }
  destruct (0 <=? desiredReleaseIndex pred)%Z eqn:Hge.
  - destruct Hld as (p & r0 & susp & Hp & Hr0 & Halls & Hcases).
    apply Z.leb_le in Hge.
    destruct Hcases as [[Hlog [e ->]]|(obj & ok & Hlog & Hname & Hph & Hok & Hfail)].
    + exists (lb ++ lc ++ susp), []. rewrite app_nil_r.
      split; [by rewrite Hlogw', Hlog, Hlogc, Hlb, Hla, <- !app_assoc|].
      split; [by rewrite !Forall_app|]. split; [by left|].
      intros Hr. by destruct (Hres Hr).
    + exists (lb ++ lc ++ susp), [UpdateStatusCall obj ok].
      split; [by rewrite Hlogw', Hlog, Hlogc, Hlb, Hla, <- !app_assoc|].
      split; [by rewrite !Forall_app|]. split.
      * right. apply releasesOf_pointer in Hp as (des & Hdes & Hst).
        exists obj, ok, des. do 4 (split; [done|]). split.
        { rewrite Hname.
          pose proof (sameNames_trans _ _ _ (sameNames_trans _ _ _ Hna Hnb) Hnc p)
            as Hsame.
          rewrite Hr0, Hst in Hsame. by injection Hsame. }
        intros Hc0. destruct (Hcurw eq_refl Hc0) as (cur0 & Hcur0 & Hex).
        exists cur0. split; [done|]. rewrite !Exists_app. right. by left.
      * intros _ idx Hin. destruct (Hskipped idx Hin) as (H0 & r & Hr & Hex).
        split; [done|]. exists r. split; [done|]. rewrite Exists_app. by left.
  - destruct Hld as (Hlog & -> & _).
    exists (lb ++ lc), []. rewrite app_nil_r.
    split; [by rewrite Hlogw', Hlog, Hlogc, Hlb, Hla, <- !app_assoc|].
    split; [by rewrite !Forall_app|]. split; [by left|].
    intros _ idx Hin. destruct (Hskipped idx Hin) as (H0 & r & Hr & Hex).
    split; [done|]. exists r. split; [done|]. rewrite Exists_app. by left.
Qed.

Lemma last_call_position (P : ApiCall -> Prop) (before final l1 l2 : list ApiCall)
  (call : ApiCall) :
  before ++ final = l1 ++ call :: l2 ->
  Forall P before -> ¬ P call ->
  final = [] ∨ (∃ x, final = [x]) ->
  l2 = [] ∧ l1 = before ∧ final = [call].
Proof.
  intros Heq Hall Hcall [->|[x ->]].
  - rewrite app_nil_r in Heq. subst before.
    apply Forall_app in Hall as [_ Hall]. by inversion Hall.
  - destruct l2 as [|z l2 _] using rev_ind.
    + by apply app_inj_tail in Heq as [-> ->].
    + rewrite app_comm_cons, app_assoc in Heq.
      apply app_inj_tail in Heq as [-> _].
      apply Forall_app in Hall as [_ Hall]. by inversion Hall.
Qed.

(** C7. In a Pending pass for which the predictor reports a current
    release, every status write with the phase Deployed is the last call
    of the pass and is for the desired release; all the status writes
    before it carry another phase, and among them is the accepted write
    that sets the current release to Superseded. So the pass has set no
    release to Deployed before the current one was demoted, and sets at
    most one. *)
Theorem demotion_precedes_promotion (mr : ModuleRelease) (w w' : World)
  (res : Result * option error) :
  reconcilePendingRelease calculateRelease c mr w = Done (res, w') ->
  let rs := releasesOf (ModuleName (Spec mr)) w in
  let pred := calculateRelease rs.*2 in
  (0 <= currentReleaseIndex pred)%Z ->
  ∀ before obj ok after,
    callsSince w w' = before ++ UpdateStatusCall obj ok :: after ->
    Phase (Status obj) = PhaseDeployed ->
    after = []
    ∧ Forall writesNoDeployed before
    ∧ (0 <= desiredReleaseIndex pred)%Z
    ∧ (∃ des, rs.*2 !! Z.to_nat (desiredReleaseIndex pred) = Some des
              ∧ ObjectName obj = ObjectName des)
    ∧ ∃ cur, rs.*2 !! Z.to_nat (currentReleaseIndex pred) = Some cur
             ∧ Exists (writes (ObjectName cur) PhaseSuperseded true) before.
Proof.
  intros H rs pred Hcur before obj ok after Hcalls Hph.
  destruct (pending_pass_log _ _ _ _ H)
    as (before' & final & Hlog & Hall & Hfinal & _).
  fold rs pred in Hfinal.
  unfold callsSince in Hcalls. rewrite Hlog, drop_app_length in Hcalls.
  destruct (last_call_position writesNoDeployed _ _ _ _ _ Hcalls Hall)
    as (-> & -> & ->).
  - intros (obj' & ok' & [= <- <-] & Hne). done.
  - destruct Hfinal as [->|(o & k & d & -> & _)]; [by left|right; by eexists].
  - destruct Hfinal as [[=]|(o & k & des & [= <- <-] & _ & Hdes & Hd & Hname & Hc)].
    split; [done|]. split; [done|]. split; [done|].
    split; [by exists des|]. by apply Hc.
Qed.

(** The Superseded branch of [createOrUpdateReconcile] is where the label
    is written. *)
Lemma superseded_pass_labels (r : ModuleRelease) (w : World) :
  Phase (Status r) = PhaseSuperseded ->
  ∃ mr' ok res w',
    createOrUpdateReconcile calculateRelease c r w = Done (res, w')
    ∧ apiLog w' = apiLog w ++ [UpdateCall mr' ok]
    ∧ ObjectName mr' = ObjectName r
    ∧ Labels mr' !! "status" = Some "superseded".
Proof.
  intros Hph. unfold createOrUpdateReconcile. rewrite Hph. cbn [bool_decide].
  rewrite (bool_decide_eq_false_2 (PhaseSuperseded = "")) by done.
  rewrite (bool_decide_eq_true_2 (PhaseSuperseded = PhaseSuperseded)) by done.
  cbn [orb]. unfold updateModuleRelease, Update, nextAnswer, record. unfoldM.
  assert (HL : Labels (addLabels r {["status" := ToLower PhaseSuperseded]})
               !! "status" = Some "superseded").
  { unfold addLabels. case_bool_decide; simpl.
    - by rewrite lookup_singleton_eq.
    - apply lookup_union_Some_l. by rewrite lookup_singleton_eq. }
  assert (HN : ObjectName (addLabels r {["status" := ToLower PhaseSuperseded]})
               = ObjectName r).
  { unfold addLabels. by case_bool_decide. }
  destruct (apiFaults w) as [|[e|] rest]; simpl;
    repeat (cases; simpl); by eexists _, _, _, _.
Qed.

(** C6, as the code has it. In a Pending pass that comes to its end, for
    every index the predictor reports as a skipped patch the release at
    that index is written with the phase Superseded, through
    [UpdateStatus], and the server accepts the write. The pass itself
    writes no label: all its calls are status writes. The label
    status=superseded is written by the next pass over that release, in
    the Superseded branch of [createOrUpdateReconcile]. *)
Theorem skipped_patches_superseded (mr : ModuleRelease) (w w' : World) :
  reconcilePendingRelease calculateRelease c mr w
    = Done ((emptyResult, None), w') ->
  let rs := releasesOf (ModuleName (Spec mr)) w in
  let pred := calculateRelease rs.*2 in
  Forall (λ call, isUpdate call = false) (callsSince w w')
  ∧ (∀ idx, idx ∈ skippedPatchesIndexes pred ->
       (0 <= idx)%Z
       ∧ ∃ r, rs.*2 !! Z.to_nat idx = Some r
              ∧ Exists (writes (ObjectName r) PhaseSuperseded true)
                  (callsSince w w'))
  ∧ (∀ r w0, Phase (Status r) = PhaseSuperseded ->
       ∃ mr' ok res w1,
         createOrUpdateReconcile calculateRelease c r w0 = Done (res, w1)
         ∧ apiLog w1 = apiLog w0 ++ [UpdateCall mr' ok]
         ∧ ObjectName mr' = ObjectName r
         ∧ Labels mr' !! "status" = Some "superseded").
Proof.
  intros H rs pred.
  destruct (pending_pass_log _ _ _ _ H)
    as (before & final & Hlog & Hall & Hfinal & Hskip).
  fold rs pred in Hskip.
  unfold callsSince. rewrite Hlog, drop_app_length. split; [|split].
  - apply Forall_app. split.
    + eapply Forall_impl; [exact Hall|]. by intros ? (? & ? & -> & _).
    + destruct Hfinal as [->|(o & k & d & -> & _)]; by repeat constructor.
  - intros idx Hin. destruct (Hskip eq_refl idx Hin) as (H0 & r & Hr & Hex).
    split; [done|]. exists r. split; [done|]. rewrite Exists_app. by left.
  - apply superseded_pass_labels.
Qed.

End PendingPass.

Lemma demotion_precedes_promotion_witness :
  match reconcilePendingRelease specPredictor (NewController "/ext") modA102
          worldPatches with
  | Done (_, w') =>
      statusWrites (callsSince worldPatches w') =
        [("mod-a-v1.0.1", "Superseded", "waiting for the update window", true);
         ("mod-a-v1.0.0", "Superseded", "", true);
         ("mod-a-v1.0.2", "Deployed", "", true)]
      ∧ ∀ before obj ok after,
          callsSince worldPatches w' = before ++ UpdateStatusCall obj ok :: after ->
          Phase (Status obj) = PhaseDeployed ->
          after = []
          ∧ Exists (writes "mod-a-v1.0.0" PhaseSuperseded true) before
  | _ => False
  end.
Proof.
  destruct (reconcilePendingRelease specPredictor (NewController "/ext") modA102
              worldPatches) as [[res w']| |] eqn:E.
  - split.
    + vm_compute in E. injection E as _ <-. reflexivity.
    + intros before obj ok after Hcalls Hph.
      destruct (demotion_precedes_promotion specPredictor (NewController "/ext")
                  modA102 worldPatches w' res E) with (before := before)
                  (obj := obj) (ok := ok) (after := after)
        as (Ha & _ & _ & _ & cur & Hcur & Hex).
      * vm_compute; discriminate.
      * exact Hcalls.
      * exact Hph.
      * split; [exact Ha|]. vm_compute in Hcur. injection Hcur as <-. exact Hex.
  - vm_compute in E. discriminate.
  - vm_compute in E. discriminate.
Defined.

Lemma skipped_patches_superseded_witness :
  match reconcilePendingRelease specPredictor (NewController "/ext") modA102
          worldPatches with
  | Done (res, w') =>
      res = (emptyResult, None)
      ∧ Exists (writes "mod-a-v1.0.1" PhaseSuperseded true)
          (callsSince worldPatches w')
  | _ => False
  end.
Proof.
  destruct (reconcilePendingRelease specPredictor (NewController "/ext") modA102
              worldPatches) as [[res w']| |] eqn:E.
  - assert (res = (emptyResult, None)) as Hres.
    { pose proof E as E'. vm_compute in E'. injection E' as <- _. reflexivity. }
    subst res. split; [reflexivity|].
    destruct (skipped_patches_superseded specPredictor (NewController "/ext")
                modA102 worldPatches w' E) as (_ & H & _).
    destruct (H 1%Z) as (_ & r & Hr & Hex).
    + vm_compute. constructor.
    + vm_compute in Hr. injection Hr as <-. exact Hex.
  - vm_compute in E. discriminate.
  - vm_compute in E. discriminate.
Defined.

(** C6, as it is stated, fails: in scenario 2 of the spec the pass for
    1.0.2 sets the skipped patch 1.0.1 to Superseded, but writes no label
    (the stored release has no [status] label after the pass, and the
    pass makes no [Update] call) and leaves its message. *)
Lemma skipped_patch_gets_no_label_counterexample :
  match reconcilePendingRelease specPredictor (NewController "/ext") modA102
          worldPatches with
  | Done (res, w') =>
      res = (emptyResult, None)
      ∧ skippedPatchesIndexes
          (specPredictor (releasesOf "mod-a" worldPatches).*2) = [1%Z]
      ∧ Phase ∘ Status <$> server w' !! "mod-a-v1.0.1" = Some "Superseded"
      ∧ (server w' !! "mod-a-v1.0.1" ≫= λ r, Labels r !! "status") = None
      ∧ filter (λ call, isUpdate call = true) (callsSince worldPatches w') = []
      ∧ Message ∘ Status <$> server w' !! "mod-a-v1.0.1"
        = Some "waiting for the update window"
  | _ => False
  end.
Proof. vm_compute. repeat split. Qed.

(** ** A second pass over the same release *)

Lemma setStatus_same (r : ModuleRelease) : setStatus r (Status r) = r.
Proof. by destruct r. Qed.

Lemma addLabels_again (mr : ModuleRelease) (l : gmap string string) :
  addLabels (addLabels mr l) l = addLabels mr l.
Proof.
  unfold addLabels at 2 3. case_bool_decide as H0; unfold addLabels; simpl.
  - case_bool_decide; simpl; [done|]. by rewrite (idemp_L (∪)).
  - case_bool_decide as H1; simpl.
    + apply map_size_empty_iff in H1. pose proof (map_positive_l _ _ H1) as ->.
      rewrite (left_id_L ∅ (∪)) in H1. rewrite H1, map_size_empty in H0. done.
    + by rewrite (assoc_L (∪)), (idemp_L (∪)).
Qed.

Lemma addLabels_fields (mr : ModuleRelease) (l : gmap string string) :
  ObjectName (addLabels mr l) = ObjectName mr
  ∧ Status (addLabels mr l) = Status mr
  ∧ Finalizers (addLabels mr l) = Finalizers mr
  ∧ Source (addLabels mr l) = Source mr.
Proof. unfold addLabels. by case_bool_decide. Qed.

Lemma setStatus_addLabels (mr : ModuleRelease) (l : gmap string string) :
  setStatus (addLabels mr l) (Status mr) = addLabels mr l.
Proof. unfold addLabels. case_bool_decide; by destruct mr. Qed.

Lemma ContainsFinalizer_Add (f : list string) (finalizer : string) :
  ContainsFinalizer (AddFinalizer f finalizer) finalizer = true.
Proof.
  unfold AddFinalizer. destruct (ContainsFinalizer f finalizer) eqn:E; [done|].
  unfold ContainsFinalizer. apply bool_decide_eq_true.
  apply elem_of_app. right. by left.
Qed.

(** What an accepted [Update] leaves. *)
Lemma Update_inv (mr : ModuleRelease) (w w' : World) (e : option error) :
  Update mr w = Done (e, w') ->
  fs w' = fs w ∧ clock w' = clock w ∧ serverSources w' = serverSources w
  ∧ sourcesStore w' = sourcesStore w ∧ releasesStore w' = releasesStore w
  ∧ apiFaults w' = tail (apiFaults w)
  ∧ apiLog w' = apiLog w ++ [UpdateCall mr (bool_decide (e = None))]
  ∧ (e = None ->
     ∃ stored, server w !! ObjectName mr = Some stored
               ∧ server w' = <[ObjectName mr := setStatus mr (Status stored)]>
                               (server w)).
Proof.
  intros H. unfold Update, nextAnswer, record in H. unfoldMin H.
  repeat (simpl in H; casesin H); simplify_eq; simpl;
    repeat split; try done; intros _; by eexists.
Qed.

Lemma Update_ok (mr stored : ModuleRelease) (w : World) :
  hd None (apiFaults w) = None ->
  server w !! ObjectName mr = Some stored ->
  ∃ w', Update mr w = Done (None, w').
Proof.
  intros Hf Hs. unfold Update, nextAnswer, record. unfoldM.
  destruct (apiFaults w) as [|a rest]; simpl in *; subst; rewrite Hs; by eexists.
Qed.

Lemma UpdateSource_inv (ms : ModuleSource) (w w' : World) (e : option error) :
  UpdateSource ms w = Done (e, w') ->
  fs w' = fs w ∧ server w' = server w
  ∧ apiLog w' = apiLog w ++ [UpdateSourceCall ms (bool_decide (e = None))]
  ∧ apiFaults w' = tail (apiFaults w)
  ∧ (e = None -> serverSources w' = <[SourceName ms := ms]> (serverSources w)).
Proof.
  intros H. unfold UpdateSource, nextAnswer, record in H. unfoldMin H.
  repeat (simpl in H; casesin H); simplify_eq; simpl; repeat split; done.
Qed.

Lemma Update_stored (mr : ModuleRelease) (w : World) :
  hd None (apiFaults w) = None ->
  server w !! ObjectName mr = Some mr ->
  ∃ w', Update mr w = Done (None, w')
        ∧ server w' = server w
        ∧ apiLog w' = apiLog w ++ [UpdateCall mr true]
        ∧ fs w' = fs w ∧ serverSources w' = serverSources w
        ∧ sourcesStore w' = sourcesStore w.
Proof.
  intros Hf Hs. destruct (Update_ok mr mr w Hf Hs) as [w' Hw'].
  exists w'. split; [done|].
  apply Update_inv in Hw' as (Hfs & _ & Hss & Hst & _ & _ & Hlog & Hsrv).
  destruct (Hsrv eq_refl) as (stored & Hst' & ->).
  rewrite Hs in Hst'. injection Hst' as <-.
  rewrite setStatus_same, insert_id by done. done.
Qed.

Section SecondPass.
Variable calculateRelease : list ModuleRelease -> Prediction.
Variable c : Controller.

(** The pass over a release whose labels and finalizers are already what
    the pass makes them, with the caches in step: one [Update] that
    changes nothing. *)
Lemma settled_pass (stored : ModuleRelease) (w : World) :
  hd None (apiFaults w) = None ->
  server w !! ObjectName stored = Some stored ->
  (Phase (Status stored) = PhaseSuperseded
   ∨ Phase (Status stored) = PhaseSuspended
   ∨ (Phase (Status stored) = PhaseDeployed
      ∧ ContainsFinalizer (Finalizers stored) fsReleaseFinalizer = true
      ∧ ∃ ms, sourcesStore w !! Source stored = Some ms
              ∧ ContainsFinalizer (SourceFinalizers ms) sourceReleaseFinalizer
                = true)) ->
  addLabels stored {[ "status" := ToLower (Phase (Status stored)) ]} = stored ->
  ∃ w2,
    createOrUpdateReconcile calculateRelease c stored w
      = Done ((emptyResult, None), w2)
    ∧ apiLog w2 = apiLog w ++ [UpdateCall stored true]
    ∧ server w2 = server w ∧ serverSources w2 = serverSources w
    ∧ fs w2 = fs w.
Proof.
  intros Hf Hs Hph Hl.
  destruct (Update_stored stored w Hf Hs)
    as (w2 & HU & Hsrv & Hlog & Hfs & Hss & Hst).
  exists w2. split; [|done].
  unfold createOrUpdateReconcile.
  destruct Hph as [Hph|[Hph|(Hph & Hfin & ms & Hms & Hmsf)]].
  - rewrite Hph in Hl |- *.
    rewrite (bool_decide_eq_false_2 (PhaseSuperseded = "")) by done.
    rewrite (bool_decide_eq_true_2 (PhaseSuperseded = PhaseSuperseded)) by done.
    cbn [orb]. rewrite Hl. unfold updateModuleRelease, bind. by rewrite HU.
  - rewrite Hph in Hl |- *.
    rewrite (bool_decide_eq_false_2 (PhaseSuspended = "")) by done.
    rewrite (bool_decide_eq_false_2 (PhaseSuspended = PhaseSuperseded)) by done.
    rewrite (bool_decide_eq_true_2 (PhaseSuspended = PhaseSuspended)) by done.
    cbn [orb]. rewrite Hl. unfold updateModuleRelease, bind. by rewrite HU.
  - rewrite Hph in Hl |- *.
    rewrite (bool_decide_eq_false_2 (PhaseDeployed = "")) by done.
    rewrite (bool_decide_eq_false_2 (PhaseDeployed = PhaseSuperseded)) by done.
    rewrite (bool_decide_eq_false_2 (PhaseDeployed = PhaseSuspended)) by done.
    rewrite (bool_decide_eq_true_2 (PhaseDeployed = PhaseDeployed)) by done.
    cbn [orb]. rewrite Hfin. cbn [negb]. rewrite Hl.
    unfold updateModuleRelease, bind at 1. rewrite HU.
    unfoldM. rewrite Hst, Hms, Hmsf. done.
Qed.

(** C3, as the code has it. For a release in phase Superseded, Suspended
    or Deployed, with the caches in step with the server and a first
    pass that succeeded: a second pass with no change from outside (the
    caches having caught up with what the first pass wrote) makes no
    status write and no call on the source, and changes neither the file
    system nor what the server stores; it makes one call, an [Update]
    that sends the release exactly as it is stored. *)
Theorem second_pass_rewrites_the_same (roMR : ModuleRelease) (w w1 : World) :
  Phase (Status roMR) = PhaseSuperseded
  ∨ Phase (Status roMR) = PhaseSuspended
  ∨ Phase (Status roMR) = PhaseDeployed ->
  server w !! ObjectName roMR = Some roMR ->
  sourcesInStep w ->
  createOrUpdateReconcile calculateRelease c roMR w
    = Done ((emptyResult, None), w1) ->
  hd None (apiFaults w1) = None ->
  ∃ stored w2,
    server w1 !! ObjectName roMR = Some stored
    ∧ createOrUpdateReconcile calculateRelease c stored (resync w1)
      = Done ((emptyResult, None), w2)
    ∧ callsSince w1 w2 = [UpdateCall stored true]
    ∧ server w2 = server w1 ∧ serverSources w2 = serverSources w1
    ∧ fs w2 = fs w1.
Proof.
  intros Hph Hsrv [Hstep Hkeys] H1 Hf.
  assert (Hfinish : ∀ stored,
    server w1 !! ObjectName roMR = Some stored ->
    ObjectName stored = ObjectName roMR ->
    (Phase (Status stored) = PhaseSuperseded
     ∨ Phase (Status stored) = PhaseSuspended
     ∨ (Phase (Status stored) = PhaseDeployed
        ∧ ContainsFinalizer (Finalizers stored) fsReleaseFinalizer = true
        ∧ ∃ ms, serverSources w1 !! Source stored = Some ms
                ∧ ContainsFinalizer (SourceFinalizers ms) sourceReleaseFinalizer
                  = true)) ->
    addLabels stored {[ "status" := ToLower (Phase (Status stored)) ]} = stored ->
    ∃ stored w2,
      server w1 !! ObjectName roMR = Some stored
      ∧ createOrUpdateReconcile calculateRelease c stored (resync w1)
        = Done ((emptyResult, None), w2)
      ∧ callsSince w1 w2 = [UpdateCall stored true]
      ∧ server w2 = server w1 ∧ serverSources w2 = serverSources w1
      ∧ fs w2 = fs w1).
  { intros stored Hst Hname Hphase Hl.
    destruct (settled_pass stored (resync w1) Hf) as (w2 & Hp & Hlog & Hrest);
      [by rewrite Hname|exact Hphase|exact Hl|].
    exists stored, w2. split; [done|]. split; [done|]. split; [|exact Hrest].
    unfold callsSince. simpl in Hlog. by rewrite Hlog, drop_app_length. }
  unfold createOrUpdateReconcile in H1.
  destruct Hph as [Hph|[Hph|Hph]]; rewrite Hph in H1.
  - (* Superseded *)
    rewrite (bool_decide_eq_false_2 (PhaseSuperseded = "")) in H1 by done.
    rewrite (bool_decide_eq_true_2 (PhaseSuperseded = PhaseSuperseded)) in H1
      by done.
    cbn [orb] in H1. unfold updateModuleRelease, bind in H1.
    destruct (Update _ w) as [[[e|] wa]| |] eqn:E; try done.
    unfold ret in H1. injection H1 as <-.
    destruct (addLabels_fields roMR {["status" := ToLower PhaseSuperseded]})
      as (Hn & Hs & _ & _).
    apply Update_inv in E as (_ & _ & _ & _ & _ & _ & _ & Hsv).
    destruct (Hsv eq_refl) as (stored0 & Hst0 & Hsrv1).
    rewrite Hn, Hsrv in Hst0. injection Hst0 as <-.
    rewrite setStatus_addLabels, Hn in Hsrv1.
    apply (Hfinish (addLabels roMR {["status" := ToLower PhaseSuperseded]})).
    + by rewrite Hsrv1, lookup_insert_eq.
    + done.
    + left. by rewrite Hs.
    + rewrite Hs, Hph. apply addLabels_again.
  - (* Suspended *)
    rewrite (bool_decide_eq_false_2 (PhaseSuspended = "")) in H1 by done.
    rewrite (bool_decide_eq_false_2 (PhaseSuspended = PhaseSuperseded)) in H1
      by done.
    rewrite (bool_decide_eq_true_2 (PhaseSuspended = PhaseSuspended)) in H1
      by done.
    cbn [orb] in H1. unfold updateModuleRelease, bind in H1.
    destruct (Update _ w) as [[[e|] wa]| |] eqn:E; try done.
    unfold ret in H1. injection H1 as <-.
    destruct (addLabels_fields roMR {["status" := ToLower PhaseSuspended]})
      as (Hn & Hs & _ & _).
    apply Update_inv in E as (_ & _ & _ & _ & _ & _ & _ & Hsv).
    destruct (Hsv eq_refl) as (stored0 & Hst0 & Hsrv1).
    rewrite Hn, Hsrv in Hst0. injection Hst0 as <-.
    rewrite setStatus_addLabels, Hn in Hsrv1.
    apply (Hfinish (addLabels roMR {["status" := ToLower PhaseSuspended]})).
    + by rewrite Hsrv1, lookup_insert_eq.
    + done.
    + right; left. by rewrite Hs.
    + rewrite Hs, Hph. apply addLabels_again.
  - (* Deployed *)
    rewrite (bool_decide_eq_false_2 (PhaseDeployed = "")) in H1 by done.
    rewrite (bool_decide_eq_false_2 (PhaseDeployed = PhaseSuperseded)) in H1
      by done.
    rewrite (bool_decide_eq_false_2 (PhaseDeployed = PhaseSuspended)) in H1
      by done.
    rewrite (bool_decide_eq_true_2 (PhaseDeployed = PhaseDeployed)) in H1
      by done.
    cbn [orb] in H1.
    set (mr0 := if negb (ContainsFinalizer (Finalizers roMR) fsReleaseFinalizer)
                then SetFinalizers roMR
                       (AddFinalizer (Finalizers roMR) fsReleaseFinalizer)
                else roMR) in *.
    assert (Hmr0 : ObjectName mr0 = ObjectName roMR ∧ Status mr0 = Status roMR
                   ∧ Source mr0 = Source roMR
                   ∧ ContainsFinalizer (Finalizers mr0) fsReleaseFinalizer = true).
    { subst mr0. destruct (ContainsFinalizer _ _) eqn:Ec; simpl; [done|].
      repeat split. apply ContainsFinalizer_Add. }
    destruct Hmr0 as (Hn0 & Hs0 & Hsrc0 & Hfin0).
    set (mr1 := addLabels mr0 {["status" := ToLower PhaseDeployed]}) in *.
    destruct (addLabels_fields mr0 {["status" := ToLower PhaseDeployed]})
      as (Hn & Hs & Hfi & Hso). fold mr1 in Hn, Hs, Hfi, Hso.
    unfold updateModuleRelease in H1. unfold bind at 1 in H1.
    destruct (Update mr1 w) as [[[e|] wa]| |] eqn:E; try done.
    { unfold bind in H1. destruct (Update mr1 wa) as [[e' wb]| |]; done. }
    apply Update_inv in E as (_ & _ & Hssa & Hsta & _ & _ & _ & Hsv).
    destruct (Hsv eq_refl) as (stored0 & Hst0 & Hsrva).
    rewrite Hn, Hn0, Hsrv in Hst0. injection Hst0 as <-.
    assert (Hstored : setStatus mr1 (Status roMR) = mr1).
    { rewrite <- Hs0. subst mr1. apply setStatus_addLabels. }
    rewrite Hstored, Hn, Hn0 in Hsrva.
    unfoldMin H1.
    rewrite Hsta, Hso, Hsrc0 in H1.
    destruct (sourcesStore w !! Source roMR) as [ms|] eqn:Hms; [|done].
    assert (Hms' : serverSources w !! Source roMR = Some ms) by by rewrite <- Hstep.
    apply Hkeys in Hms' as Hkey.
    assert (Hmr1 : Phase (Status mr1) = PhaseDeployed) by by rewrite Hs, Hs0.
    assert (Hagain : addLabels mr1 {["status" := ToLower (Phase (Status mr1))]}
                     = mr1).
    { rewrite Hmr1. subst mr1. apply addLabels_again. }
    destruct (ContainsFinalizer (SourceFinalizers ms) sourceReleaseFinalizer)
      eqn:Hmsf; cbn [negb] in H1.
    + unfold ret in H1. injection H1 as <-.
      apply (Hfinish mr1); [by rewrite Hsrva, lookup_insert_eq|by rewrite Hn|
                            |done].
      right; right. split; [done|]. split; [by rewrite Hfi|].
      exists ms. by rewrite Hssa, Hso, Hsrc0.
    + unfold bind in H1.
      destruct (UpdateSource _ wa) as [[[e|] wb]| |] eqn:Eb; try done.
      unfold ret in H1. injection H1 as <-.
      apply UpdateSource_inv in Eb as (_ & Hsrvb & _ & _ & Hssb).
      specialize (Hssb eq_refl). simpl in Hssb.
      apply (Hfinish mr1); [by rewrite Hsrvb, Hsrva, lookup_insert_eq|
                            by rewrite Hn| |done].
      right; right. split; [done|]. split; [by rewrite Hfi|].
      eexists. rewrite Hssb, Hso, Hsrc0, Hkey, lookup_insert_eq.
      split; [done|]. simpl. apply ContainsFinalizer_Add.
Qed.

End SecondPass.

Lemma second_pass_rewrites_the_same_witness :
  match createOrUpdateReconcile specPredictor (NewController "/ext") modA100
          (worldOf fsModA [modA100]) with
  | Done (res, w1) =>
      res = (emptyResult, None)
      ∧ ∃ stored w2,
          server w1 !! "mod-a-v1.0.0" = Some stored
          ∧ createOrUpdateReconcile specPredictor (NewController "/ext") stored
              (resync w1) = Done ((emptyResult, None), w2)
          ∧ callsSince w1 w2 = [UpdateCall stored true]
          ∧ server w2 = server w1 ∧ serverSources w2 = serverSources w1
          ∧ fs w2 = fs w1
  | _ => False
  end.
Proof.
  destruct (createOrUpdateReconcile specPredictor (NewController "/ext") modA100
              (worldOf fsModA [modA100])) as [[res w1]| |] eqn:E.
  - pose proof E as E'. vm_compute in E'. injection E' as Hres Hw1.
    subst res. split; [reflexivity|].
    apply (second_pass_rewrites_the_same specPredictor (NewController "/ext")
             modA100 (worldOf fsModA [modA100]) w1).
    + right; right; reflexivity.
    + vm_compute. reflexivity.
    + split; [vm_compute; reflexivity|]. intros k ms Hk.
      change (serverSources (worldOf fsModA [modA100]))
        with ({[ "S1" := mkSource "S1" [] ]} : gmap string ModuleSource) in Hk.
      apply lookup_singleton_Some in Hk as [<- <-]. reflexivity.
    + exact E.
    + rewrite <- Hw1. reflexivity.
  - vm_compute in E. discriminate.
  - vm_compute in E. discriminate.
Defined.

(** C3, as it is stated, fails: a release that an earlier pass left
    Superseded and labelled is reconciled twice with nothing changed in
    between; the first pass leaves the stored release as it was, and the
    second pass calls [Update] again. *)
Lemma second_pass_calls_update_counterexample :
  match createOrUpdateReconcile specPredictor (NewController "/ext") modOld
          (worldOf fsModA [modOld]) with
  | Done (_, w1) =>
      server w1 !! "mod-a-v0.9.0" = Some modOld
      ∧ match createOrUpdateReconcile specPredictor (NewController "/ext")
                modOld (resync w1) with
        | Done (res, w2) =>
            res = (emptyResult, None)
            ∧ callsSince w1 w2 = [UpdateCall modOld true]
        | _ => False
        end
  | _ => False
  end.
Proof. vm_compute. repeat split. Qed.
(** ** More on the links: [enableModule], [restoreModuleSymlink] *)

Lemma Remove_frame (name p : string) (x : FS) :
  p ≠ name ->
  nodes (Remove name x).2 !! p = nodes x !! p
  ∧ faults (Remove name x).2 = faults x.
Proof.
  intros Hp. unfold Remove. destruct (faults x _); [done|].
  destruct (nodes x !! name) as [n|]; [|done].
  destruct (_ && _); [done|]. simpl. by rewrite lookup_delete_ne.
Qed.

Lemma removeIfExists_frame (name p : string) (x : FS) :
  p ≠ name ->
  nodes (removeIfExists name x).2 !! p = nodes x !! p
  ∧ faults (removeIfExists name x).2 = faults x.
Proof.
  intros Hp. unfold removeIfExists. destruct (Lstat name x); [|done].
  by apply Remove_frame.
Qed.

Lemma Symlink_frame (target name p : string) (x : FS) :
  p ≠ name ->
  nodes (Symlink_ target name x).2 !! p = nodes x !! p
  ∧ faults (Symlink_ target name x).2 = faults x.
Proof.
  intros Hp. unfold Symlink_. destruct (faults x _); [done|].
  destruct (nodes x !! name); [done|]. simpl. by rewrite lookup_insert_ne.
Qed.

Lemma Symlink_done (target name : string) (x x' : FS) :
  Symlink_ target name x = (None, x') ->
  nodes x !! name = None ∧ nodes x' = <[name := Symlink target]> (nodes x)
  ∧ faults x' = faults x.
Proof.
  unfold Symlink_. destruct (faults x _); [done|].
  destruct (nodes x !! name); [done|]. by intros [= <-].
Qed.

Lemma Symlink_failed (target name : string) (x x' : FS) (e : error) :
  Symlink_ target name x = (Some e, x') -> x' = x.
Proof.
  unfold Symlink_. destruct (faults x _); [by intros [= _ <-]|].
  destruct (nodes x !! name); [by intros [= _ <-]|done].
Qed.

Lemma removeIfExists_done (name : string) (x x' : FS) :
  removeIfExists name x = (None, x') ->
  faults x (SysLstat name) = None ->
  nodes x' !! name = None.
Proof.
  unfold removeIfExists, Lstat, Remove. intros H Hf. rewrite Hf in H.
  destruct (nodes x !! name) as [n|] eqn:Hn; [|by injection H as <-].
  destruct (faults x (SysRemove name)); [done|].
  destruct (_ && _); [done|]. injection H as <-. apply lookup_delete_eq.
Qed.

(** X1. [enableModule] changes nothing but [oldSymlinkPath] and
    [newSymlinkPath], whatever it returns and whatever calls fail: every
    other path of the file system holds what it held. *)
Theorem enableModule_touches_two_paths
  (root old new target p : string) (x : FS) :
  p ≠ old -> p ≠ new ->
  nodes (enableModule root old new target x).2 !! p = nodes x !! p.
Proof.
  intros Ho Hn. unfold enableModule.
  set (r1 := if bool_decide (old ≠ "") then removeIfExists old x else (None, x)).
  assert (H1 : nodes r1.2 !! p = nodes x !! p).
  { subst r1. case_bool_decide; [|done]. by apply removeIfExists_frame. }
  destruct r1 as [[e1|] x1]; simpl in H1; [done|].
  pose proof (removeIfExists_frame new p x1 Hn) as [H2 _].
  destruct (removeIfExists new x1) as [[e2|] x2]; simpl in H2;
    [simpl; congruence|].
  pose proof (Symlink_frame target new p x2 Hn) as [H3 _].
  destruct (Stat _ x2) as [n|err]; [congruence|].
  destruct (IsNotExist _); simpl; congruence.
Qed.

Lemma enableModule_touches_two_paths_witness :
  nodes (enableModule "/ext" "/ext/modules/10-mod-a" "/ext/modules/20-mod-a"
           "../mod-a/v1.0.1" fsModA).2 !! "/ext/mod-a/v1.0.0"
  = Some Directory.
Proof.
  rewrite (enableModule_touches_two_paths "/ext" "/ext/modules/10-mod-a"
             "/ext/modules/20-mod-a" "../mod-a/v1.0.1" "/ext/mod-a/v1.0.0"
             fsModA); [reflexivity|discriminate|discriminate].
Defined.

(** X2. When [enableModule] returns nil, [newSymlinkPath] is a symbolic
    link whose text is [modulePath], whatever was there before; and a
    non-empty [oldSymlinkPath] other than [newSymlinkPath] is gone, unless
    [os.Lstat] could not look at it. *)
Theorem enableModule_nil_means_linked
  (root old new target : string) (x x' : FS) :
  enableModule root old new target x = (None, x') ->
  nodes x' !! new = Some (Symlink target)
  ∧ (old ≠ "" -> old ≠ new -> faults x (SysLstat old) = None ->
     nodes x' !! old = None).
Proof.
  unfold enableModule.
  set (r1 := if bool_decide (old ≠ "") then removeIfExists old x else (None, x)).
  assert (H1 : ∀ x1, r1 = (None, x1) ->
            old ≠ "" -> faults x (SysLstat old) = None ->
            nodes x1 !! old = None).
  { subst r1. intros x1 E Hne Hf. rewrite bool_decide_eq_true_2 in E by done.
    by eapply removeIfExists_done. }
  destruct r1 as [[e1|] x1]; [done|]. specialize (H1 x1 eq_refl).
  destruct (removeIfExists new x1) as [[e2|] x2] eqn:E2; [done|].
  intros H.
  assert (Hs : Symlink_ target new x2 = (None, x')).
  { destruct (Stat _ x2) as [n|err]; [done|]. by destruct (IsNotExist _). }
  apply Symlink_done in Hs as (_ & Hx' & _). rewrite Hx'. split.
  - apply lookup_insert_eq.
  - intros Hne Hon Hf. rewrite lookup_insert_ne by done.
    destruct (removeIfExists_frame new old x1 Hon) as [Hfr _].
    rewrite E2 in Hfr. simpl in Hfr. rewrite Hfr. by apply H1.
Qed.

Lemma enableModule_nil_means_linked_witness :
  ∃ x', enableModule "/ext" "/ext/modules/10-mod-a" "/ext/modules/20-mod-a"
          "../mod-a/v1.0.1" fsModA = (None, x')
        ∧ nodes x' !! "/ext/modules/20-mod-a" = Some (Symlink "../mod-a/v1.0.1").
Proof.
  destruct (enableModule "/ext" "/ext/modules/10-mod-a" "/ext/modules/20-mod-a"
              "../mod-a/v1.0.1" fsModA) as [[e|] x'] eqn:E.
  - vm_compute in E. discriminate.
  - exists x'. split; [reflexivity|].
    exact (proj1 (enableModule_nil_means_linked _ _ _ _ _ _ E)).
Defined.

(** X3. [restoreModuleSymlink] never replaces anything: either it returns
    an error and the file system is as it was, or it returns nil, and then
    nothing was at [symlinkPath] before and the only change is the new
    link there, whose text is [moduleRelativePath]. *)
Theorem restoreModuleSymlink_adds_or_fails
  (root symlinkPath rel : string) (x : FS) :
  match restoreModuleSymlink root symlinkPath rel x with
  | (Some _, x') => x' = x
  | (None, x') =>
      nodes x !! symlinkPath = None
      ∧ nodes x' = <[symlinkPath := Symlink rel]> (nodes x)
      ∧ faults x' = faults x
  end.
Proof.
  unfold restoreModuleSymlink.
  assert (Hs : match Symlink_ rel symlinkPath x with
               | (Some _, x') => x' = x
               | (None, x') =>
                   nodes x !! symlinkPath = None
                   ∧ nodes x' = <[symlinkPath := Symlink rel]> (nodes x)
                   ∧ faults x' = faults x
               end).
  { destruct (Symlink_ rel symlinkPath x) as [[e|] x'] eqn:E.
    - by eapply Symlink_failed.
    - by apply Symlink_done. }
  destruct (Stat _ x) as [n|err]; [done|]. by destruct (IsNotExist _).
Qed.

(** X4. [addLabels] sets every label it is given and keeps every other
    label the release had, in both of its branches; nothing but the
    labels changes. *)
Theorem addLabels_lookup (mr : ModuleRelease) (labels : gmap string string)
  (k : string) :
  Labels (addLabels mr labels) !! k
  = match labels !! k with
    | Some v => Some v
    | None => Labels mr !! k
    end
  ∧ SetLabels (addLabels mr labels) (Labels mr) = mr.
Proof.
  unfold addLabels. case_bool_decide as Hsz; simpl.
  - apply map_size_empty_iff in Hsz. split; [|by destruct mr].
    rewrite Hsz, lookup_empty. by destruct (labels !! k).
  - split; [|by destruct mr]. rewrite lookup_union.
    destruct (labels !! k), (Labels mr !! k); done.
Qed.

(** ** The order of the releases *)

Lemma LessThan_cases (a b : semver) :
  LessThan a b = true
  <-> (Major a < Major b
       ∨ (Major a = Major b
          ∧ (Minor a < Minor b ∨ (Minor a = Minor b ∧ Patch a < Patch b))))%N.
Proof.
  unfold LessThan.
  destruct (N.eqb_spec (Major a) (Major b)); simpl;
    [destruct (N.eqb_spec (Minor a) (Minor b)); simpl|];
    rewrite N.ltb_lt; lia.
Qed.

Lemma LessThan_asym (a b : semver) :
  LessThan a b = true -> LessThan b a = false.
Proof.
  intros H%LessThan_cases. apply not_true_is_false.
  intros H'%LessThan_cases. lia.
Qed.

Lemma notLess_trans (a b c : semver) :
  LessThan b a = false -> LessThan c b = false -> LessThan c a = false.
Proof.
  intros H1%not_true_iff_false H2%not_true_iff_false.
  apply not_true_is_false. intros H3%LessThan_cases.
  rewrite LessThan_cases in H1, H2. lia.
Qed.

Lemma insertByVersion_perm (r : string * ModuleRelease)
  (l : list (string * ModuleRelease)) :
  insertByVersion r l ≡ₚ r :: l.
Proof.
  induction l as [|r' l IH]; simpl; [done|].
  destruct (LessThan _ _); [|done]. rewrite IH. apply Permutation_swap.
Qed.

Lemma insertByVersion_sorted (r : string * ModuleRelease)
  (l : list (string * ModuleRelease)) :
  StronglySorted ascending l -> StronglySorted ascending (insertByVersion r l).
Proof.
  induction 1 as [|r' l Hl IH Hall]; simpl.
  - by repeat constructor.
  - destruct (LessThan _ _) eqn:E.
    + constructor; [done|]. rewrite insertByVersion_perm.
      constructor; [|done]. by apply LessThan_asym.
    + constructor; [by constructor|]. constructor; [done|].
      eapply Forall_impl; [exact Hall|]. intros y Hy.
      unfold ascending in *. by eapply notLess_trans.
Qed.

(** X5. [sort.Sort(byVersion(...))] leaves the releases it was given, each
    as often as before, in ascending order of version: no release of the
    list has a lower version than one before it. *)
Theorem sortByVersion_ascending (l : list (string * ModuleRelease)) :
  sortByVersion l ≡ₚ l ∧ StronglySorted ascending (sortByVersion l).
Proof.
  induction l as [|r l [IHp IHs]]; simpl.
  - split; [done|constructor].
  - split.
    + by rewrite insertByVersion_perm, IHp.
    + by apply insertByVersion_sorted.
Qed.

(** ** More on the search for the current symlink *)

Section WalkFlat.
Context {St : Type} (x : FS) (fn : WalkDirFunc St).


End WalkFlat.





(** X7. When [os.Lstat] fails on the directory of the symlinks (it does
    not exist, say), [filepath.WalkDir] calls the closure with a nil
    entry, whose name the closure asks for: [findExistingModuleSymlink]
    panics, and with it the pass over a Pending release, before it has
    written anything. *)
Theorem pending_pass_panics_without_symlinks_dir
  (calculateRelease : list ModuleRelease -> Prediction) (c : Controller)
  (mr : ModuleRelease) (w : World) (err : error) :
  Lstat (symlinksDir c) (fs w) = inr err ->
  findExistingModuleSymlink (symlinksDir c) (ModuleName (Spec mr)) (fs w)
  = Panic "invalid memory address or nil pointer dereference"
  ∧ reconcilePendingRelease calculateRelease c mr w
    = Panic "invalid memory address or nil pointer dereference".
Proof.
  intros Hl.
  assert (Hf : findExistingModuleSymlink (symlinksDir c) (ModuleName (Spec mr))
                 (fs w)
               = Panic "invalid memory address or nil pointer dereference").
  { unfold findExistingModuleSymlink, WalkDir. by rewrite Hl. }
  split; [done|].
  unfold reconcilePendingRelease, listByModule, currentSymlink. unfoldM.
  by rewrite Hf.
Qed.

Lemma pending_pass_panics_without_symlinks_dir_witness :
  reconcilePendingRelease specPredictor (NewController "/ext") modB
    (worldOf (mkFS ∅ noFaults) [modB])
  = Panic "invalid memory address or nil pointer dereference".
Proof.
  apply (pending_pass_panics_without_symlinks_dir specPredictor
           (NewController "/ext") modB (worldOf (mkFS ∅ noFaults) [modB])
           (PathError "lstat" "/ext/modules" ENOENT)).
  reflexivity.
Defined.

(** ** What the passes return *)

Section Keeps.
Context (R : World -> World -> Prop).
Hypothesis R_refl : ∀ w, R w w.
Hypothesis R_trans : ∀ w1 w2 w3, R w1 w2 -> R w2 w3 -> R w1 w3.

Lemma keeps_ret {A} (Q : A -> Prop) (a : A) : Q a -> keeps R Q (ret a).
Proof using R_refl. intros Ha w a' w' [= <- <-]. auto. Qed.

Lemma keeps_bind {A B} (P : A -> Prop) (Q : B -> Prop) (m : M A)
  (k : A -> M B) :
  keeps R P m -> (∀ a, P a -> keeps R Q (k a)) -> keeps R Q (bind m k).
Proof using R_trans.
  intros Hm Hk w b w'. unfold bind.
  destruct (m w) as [[a w1]| |] eqn:E; [|done..].
  intros H. apply Hm in E as [HR Ha]. apply (Hk a Ha) in H as [HR' Hb].
  eauto.
Qed.

Lemma keeps_get : keeps R anyResult get.
Proof using R_refl. intros w a w' [= <- <-]. by split. Qed.

Lemma keeps_panic {A} (Q : A -> Prop) (msg : string) : keeps R Q (panic msg).
Proof. intros w a w'. done. Qed.

Lemma keeps_modify (f : World -> World) :
  (∀ w, R w (f w)) -> keeps R anyResult (modify f).
Proof. intros Hf w a w' [= <- <-]. by split. Qed.

Lemma keeps_readFS {A} (f : FS -> A) : keeps R anyResult (readFS f).
Proof using R_refl. intros w a w' [= <- <-]. by split. Qed.

Lemma keeps_weaken {A} (P Q : A -> Prop) (m : M A) :
  keeps R P m -> (∀ a, P a -> Q a) -> keeps R Q m.
Proof. intros Hm HPQ w a w' E. apply Hm in E as [? ?]. auto. Qed.

End Keeps.

Lemma keeps_any {A} (m : M A) : keeps anyWorlds anyResult m.
Proof. intros w a w' _. by split. Qed.

(** One step through a body of the monad. *)
Ltac keeps_step side any :=
  lazymatch goal with
  | |- keeps _ _ (ret _) => apply keeps_ret; [side|]
  | |- keeps _ _ (panic _) => apply keeps_panic
  | |- keeps _ _ (bind _ _) => eapply keeps_bind; [side|any|intros ? _]
  | |- keeps _ _ (match ?x with _ => _ end) => destruct x
  | |- keeps _ _ (if ?b then _ else _) => destruct b
  end.

Ltac any_step := keeps_step ltac:(by intros) ltac:(apply keeps_any).

Section Results.
Variable calculateRelease : list ModuleRelease -> Prediction.
Variable c : Controller.

Lemma restoreLatest_result (releases : list string) (pred : Prediction)
  (moduleName cur : string) :
  keeps anyWorlds
    (λ r, match r with inl res => passResult res | inr _ => True end)
    (restoreLatest c releases pred moduleName cur).
Proof.
  unfold restoreLatest.
  repeat any_step; simpl; done || by right.
Qed.

Lemma reconcilePendingRelease_result (mr : ModuleRelease) :
  keeps anyWorlds passResult (reconcilePendingRelease calculateRelease c mr).
Proof.
  unfold reconcilePendingRelease. cbv zeta.
  eapply keeps_bind; [done|apply keeps_any|intros otherReleases _].
  eapply keeps_bind; [done|apply keeps_any|intros cur _].
  eapply keeps_bind; [done|apply restoreLatest_result|intros r Hr].
  destruct r as [res|reason]; [by apply keeps_ret|].
  repeat any_step; (by left) || by right.
Qed.

Lemma createOrUpdateReconcile_result (roMR : ModuleRelease) :
  keeps anyWorlds passResult (createOrUpdateReconcile calculateRelease c roMR).
Proof.
  unfold createOrUpdateReconcile. cbv zeta.
  destruct (bool_decide _); [|destruct (_ || _); [|destruct (bool_decide _)]].
  4: apply reconcilePendingRelease_result.
  all: repeat any_step; (by left) || by right.
Qed.

Lemma deleteReconcile_result (roMR : ModuleRelease) :
  keeps anyWorlds passResult (deleteReconcile c roMR).
Proof.
  unfold deleteReconcile. cbv zeta.
  repeat any_step; (by left) || by right.
Qed.

Lemma Reconcile_result (releaseName : string) :
  keeps anyWorlds passResult (Reconcile calculateRelease c releaseName).
Proof.
  unfold Reconcile.
  eapply keeps_bind; [done|apply keeps_any|intros w0 _].
  destruct (releasesStore w0 !! releaseName) as [mr|];
    [|apply keeps_ret; [done|by left]].
  destruct (DeletionTimestamp mr);
    [apply deleteReconcile_result|apply createOrUpdateReconcile_result].
Qed.

Lemma passResult_requeue (res : Result) (err : option error) :
  passResult (res, err) ->
  RequeueAfter res = 0%Z
  ∧ (err ≠ None -> Requeue res = true)
  ∧ (Requeue res = false -> res = emptyResult ∧ err = None).
Proof. intros [[= -> ->]|Hr]; [done|]. simpl in Hr. by subst res. Qed.

(** X8. Whatever [Reconcile] returns, for any key and any state of the
    cluster and of the disk: [RequeueAfter] is zero, and an error comes
    with [Requeue] set; a result without [Requeue] carries no error. *)
Theorem Reconcile_requeues_on_error (releaseName : string) (w w' : World)
  (res : Result) (err : option error) :
  Reconcile calculateRelease c releaseName w = Done ((res, err), w') ->
  RequeueAfter res = 0%Z
  ∧ (err ≠ None -> Requeue res = true)
  ∧ (Requeue res = false -> res = emptyResult ∧ err = None).
Proof.
  intros H. apply Reconcile_result in H as [_ H]. by apply passResult_requeue.
Qed.

(** X9. [processNextWorkItem] returns false only when the queue is shut
    down. For a key it returns true whether the pass fails or not, having
    called [Done] on the item once, last, and before it one of
    [AddRateLimited], when the pass asked for a requeue, and [Forget],
    when it did not; since no pass sets [RequeueAfter], [AddAfter] is
    never called. *)
Theorem processNextWorkItem_requeues_or_forgets (got : option QueueItem)
  (w w' : World) (again : bool) (calls : list QueueCall) :
  processNextWorkItem calculateRelease c got w = Done ((again, calls), w') ->
  match got with
  | None => again = false ∧ calls = [] ∧ w' = w
  | Some (ForeignItem shown) =>
      again = true ∧ w' = w
      ∧ calls = [QueueForget (ForeignItem shown); QueueDone (ForeignItem shown)]
  | Some (KeyItem key) =>
      again = true
      ∧ ∃ res err,
          Reconcile calculateRelease c key w = Done ((res, err), w')
          ∧ calls = [if Requeue res then QueueAddRateLimited key
                     else QueueForget (KeyItem key);
                     QueueDone (KeyItem key)]
          ∧ (err ≠ None -> calls = [QueueAddRateLimited key;
                                     QueueDone (KeyItem key)])
  end.
Proof.
  unfold processNextWorkItem. destruct got as [[key|shown]|].
  - unfold bind, ret.
    destruct (Reconcile calculateRelease c key w) as [[[res err] w1]| |] eqn:E;
      [|done..].
    intros [= <- <- <-]. split; [done|]. exists res, err. split; [done|].
    apply Reconcile_result in E as [_ E].
    apply passResult_requeue in E as (Hafter & Herr & _).
    simpl. rewrite Hafter. rewrite bool_decide_eq_false_2 by (by intros []).
    split; [done|]. intros He. by rewrite (Herr He).
  - by intros [= <- <- <-].
  - by intros [= <- <- <-].
Qed.

End Results.

Lemma Reconcile_requeues_on_error_witness :
  match Reconcile specPredictor (NewController "/ext") "mod-b-v2.0.0"
          (setApiFaults (worldOf fsEmpty [setPhase modB ""])
             [Some (errorString "the server is not ready")]) with
  | Done ((res, err), _) =>
      err = Some (errorString "the server is not ready") ∧ Requeue res = true
      ∧ RequeueAfter res = 0%Z
  | _ => False
  end.
Proof.
  destruct (Reconcile specPredictor (NewController "/ext") "mod-b-v2.0.0"
              (setApiFaults (worldOf fsEmpty [setPhase modB ""])
                 [Some (errorString "the server is not ready")]))
    as [[[res err] w']| |] eqn:E.
  - destruct (Reconcile_requeues_on_error _ _ _ _ _ _ _ E) as (Ha & He & _).
    assert (Herr : err = Some (errorString "the server is not ready")).
    { pose proof E as E'. vm_compute in E'. by injection E' as _ <- _. }
    split; [exact Herr|]. split; [|exact Ha]. apply He. by rewrite Herr.
  - vm_compute in E. discriminate.
  - vm_compute in E. discriminate.
Defined.

Lemma processNextWorkItem_requeues_or_forgets_witness :
  match processNextWorkItem specPredictor (NewController "/ext")
          (Some (KeyItem "mod-b-v2.0.0"))
          (setApiFaults (worldOf fsEmpty [setPhase modB ""])
             [Some (errorString "the server is not ready")]) with
  | Done ((again, calls), _) =>
      again = true
      ∧ calls = [QueueAddRateLimited "mod-b-v2.0.0";
                 QueueDone (KeyItem "mod-b-v2.0.0")]
  | _ => False
  end.
Proof.
  destruct (processNextWorkItem specPredictor (NewController "/ext")
              (Some (KeyItem "mod-b-v2.0.0"))
              (setApiFaults (worldOf fsEmpty [setPhase modB ""])
                 [Some (errorString "the server is not ready")]))
    as [[[again calls] w']| |] eqn:E.
  - destruct (processNextWorkItem_requeues_or_forgets _ _ _ _ _ _ _ E)
      as (Hagain & res & err & Hrec & _ & Herr).
    split; [exact Hagain|]. apply Herr.
    vm_compute in Hrec. by injection Hrec as _ <- _.
  - vm_compute in E. discriminate.
  - vm_compute in E. discriminate.
Defined.

(** ** What the passes leave alone *)

Section KeepsMore.
Context (R : World -> World -> Prop).
Hypothesis R_refl : ∀ w, R w w.
Hypothesis R_trans : ∀ w1 w2 w3, R w1 w2 -> R w2 w3 -> R w1 w3.

Lemma keeps_bind_any {A B} (Q : B -> Prop) (m : M A) (k : A -> M B) :
  keeps R anyResult m -> (∀ a, keeps R Q (k a)) -> keeps R Q (bind m k).
Proof using R_trans. intros Hm Hk. eapply keeps_bind; eauto. Qed.

Lemma keeps_onFS {A} (f : FS -> A * FS) :
  (∀ w x, R w (setFs w x)) -> keeps R anyResult (onFS f).
Proof.
  intros Hf w a w'. unfold onFS. destruct (f (fs w)) as [a' x].
  intros [= <- <-]. by split.
Qed.

Lemma keeps_stuck {A} (Q : A -> Prop) : keeps R Q (fun _ => OutOfFuel).
Proof. by intros w a w'. Qed.

End KeepsMore.

(** The steps through a body when only the worlds matter; [prim] is for
    the calls of the body. *)
Ltac frame_step prim :=
  lazymatch goal with
  | |- keeps _ _ (ret _) => apply keeps_ret; [assumption|done]
  | |- keeps _ _ (panic _) => apply keeps_panic
  | |- keeps _ _ (fun _ => OutOfFuel) => apply keeps_stuck
  | |- keeps _ _ get => apply keeps_get; assumption
  | |- keeps _ _ (readFS _) => apply keeps_readFS; assumption
  | |- keeps _ _ (bind _ _) => apply keeps_bind_any; [assumption| |intros ?]
  | |- keeps _ _ (match ?x with _ => _ end) => destruct x
  | |- keeps _ _ (if ?b then _ else _) => destruct b
  | |- _ => prim
  end.

Section PendingFrame.
Context (R : World -> World -> Prop).
Hypothesis R_refl : ∀ w, R w w.
Hypothesis R_trans : ∀ w1 w2 w3, R w1 w2 -> R w2 w3 -> R w1 w3.
Hypothesis R_fs : ∀ w x, R w (setFs w x).
Hypothesis R_cache : ∀ w x, R w (setReleasesStore w x).
Hypothesis R_config : ∀ w x, R w (setConfigSources w x).
Hypothesis R_sources : ∀ w x, R w (setSourceModules w x).
Hypothesis R_timer : ∀ w x, R w (setDebounce w x).
Hypothesis R_status : ∀ mr, keeps R anyResult (UpdateStatus mr).

Variable calculateRelease : list ModuleRelease -> Prediction.
Variable c : Controller.

Local Ltac prim :=
  idtac;
  lazymatch goal with
  | |- keeps _ _ (UpdateStatus _) => apply R_status
  | |- keeps _ _ (onFS _) => apply keeps_onFS; assumption
  | |- keeps _ _ (modify _) => apply keeps_modify; intros ?; cbv beta; auto
  end.

Lemma statusWrite_frame (f : ModuleRelease -> ModuleRelease) (p : string) :
  keeps R anyResult (onPointer p (fun r => updateModuleReleaseStatus (f r))).
Proof using R_refl R_trans R_cache R_status.
  unfold onPointer, deref, assign, updateModuleReleaseStatus.
  repeat frame_step prim.
Qed.

Lemma suspend_frame (err : error) (p : string) :
  keeps R anyResult (onPointer p (suspendModuleVersionForRelease err)).
Proof using R_refl R_trans R_cache R_status.
  unfold suspendModuleVersionForRelease.
  apply (statusWrite_frame
           (fun r => setMessage (setPhase r PhaseSuspended)
                       ("Desired version of the module met problems: "
                        +:+ Error (if IsNotExist (Some err)
                                   then errorString "not found" else err)))).
Qed.

Lemma supersedeSkipped_frame (releases : list string) (indexes : list Z) :
  keeps R anyResult (supersedeSkipped releases indexes).
Proof using R_refl R_trans R_cache R_status.
  induction indexes as [|index rest IH]; simpl.
  - by apply keeps_ret.
  - unfold at_.
    repeat frame_step
      ltac:(idtac;
            lazymatch goal with
            | |- keeps _ _ (supersedeSkipped _ _) => apply IH
            | |- keeps _ _ (onPointer _ _) => apply statusWrite_frame
            end).
Qed.

Lemma reconcilePendingRelease_frame (mr : ModuleRelease) :
  keeps R anyResult (reconcilePendingRelease calculateRelease c mr).
Proof using All.
  unfold reconcilePendingRelease, listByModule, currentSymlink, restoreLatest,
    supersedeCurrent, deployDesired, sendDocumentation, emitRestartNow, at_,
    deref.
  cbv zeta.
  repeat frame_step
    ltac:(idtac;
          lazymatch goal with
          | |- keeps _ _ (supersedeSkipped _ _) => apply supersedeSkipped_frame
          | |- keeps _ _ (onPointer _ (suspendModuleVersionForRelease _)) =>
              apply suspend_frame
          | |- keeps _ _ (onPointer _ _) => apply statusWrite_frame
          | |- _ => prim
          end).
Qed.

End PendingFrame.

Lemma statusPass_same (w w' : World) :
  server w' = server w -> serverSources w' = serverSources w ->
  apiLog w' = apiLog w -> statusPass w w'.
Proof.
  intros Hs Hss Hl. split; [done|]. split; [by rewrite Hs|].
  exists []. by rewrite app_nil_r.
Qed.

Lemma statusPass_refl (w : World) : statusPass w w.
Proof. by apply statusPass_same. Qed.

Lemma statusPass_trans (w1 w2 w3 : World) :
  statusPass w1 w2 -> statusPass w2 w3 -> statusPass w1 w3.
Proof.
  intros (Hs & Hr & l & Hl & Hall) (Hs' & Hr' & l' & Hl' & Hall').
  split; [congruence|]. split; [intros n; by rewrite Hr', Hr|].
  exists (l ++ l'). split; [by rewrite Hl', Hl, <- app_assoc|].
  by apply Forall_app.
Qed.

Lemma UpdateStatus_statusPass (mr : ModuleRelease) :
  keeps statusPass anyResult (UpdateStatus mr).
Proof.
  intros w e w' H. split; [|done].
  unfold UpdateStatus, nextAnswer, record in H. unfoldMin H.
  assert (Hcall : ∀ ok, Forall isStatusCall [UpdateStatusCall mr ok])
    by (intros ok; constructor; [by eexists _, _|done]).
  repeat (simpl in H; casesin H); simplify_eq; simpl;
    (split; [done|]); (split; [|eexists; split; [done|apply Hcall]]);
    try done.
  all: intros n; simpl; destruct (decide (n = ObjectName mr)) as [->|Hn];
    [rewrite lookup_insert_eq|by rewrite lookup_insert_ne].
  all: match goal with H : _ !! _ = Some _ |- _ => rewrite H end; done.
Qed.

(** X10. The pass over a Pending release writes statuses and nothing
    else: every call it makes is an [UpdateStatus], and when it returns,
    with whatever result, every release on the server has the labels, the
    finalizers and the spec it had, no release has come or gone, and the
    sources are as they were. The "status" label and the finalizers of a
    release it deploys are left to a later pass. *)
Theorem pending_pass_writes_only_statuses
  (calculateRelease : list ModuleRelease -> Prediction) (c : Controller)
  (mr : ModuleRelease) (w w' : World) (res : Result * option error) :
  reconcilePendingRelease calculateRelease c mr w = Done (res, w') ->
  Forall isStatusCall (callsSince w w')
  ∧ (∀ name,
       Labels <$> server w' !! name = Labels <$> server w !! name
       ∧ Finalizers <$> server w' !! name = Finalizers <$> server w !! name
       ∧ Spec <$> server w' !! name = Spec <$> server w !! name)
  ∧ serverSources w' = serverSources w.
Proof.
  intros H.
  apply (reconcilePendingRelease_frame statusPass statusPass_refl
           statusPass_trans) in H as [(Hs & Hr & l & Hl & Hall) _];
    [|by intros; apply statusPass_same..|apply UpdateStatus_statusPass].
  split; [|split; [|done]].
  - unfold callsSince. by rewrite Hl, drop_app_length.
  - intros n. specialize (Hr n).
    destruct (server w' !! n) as [r'|], (server w !! n) as [r|];
      try done.
    destruct r', r. unfold eraseStatus, setStatus in Hr. simpl in *.
    injection Hr; intros; subst; done.
Qed.

Lemma pending_pass_writes_only_statuses_witness :
  match reconcilePendingRelease specPredictor (NewController "/ext") modA102
          worldPatches with
  | Done (_, w') =>
      Forall isStatusCall (callsSince worldPatches w')
      ∧ Finalizers <$> server w' !! "mod-a-v1.0.2" = Some []
  | _ => False
  end.
Proof.
  destruct (reconcilePendingRelease specPredictor (NewController "/ext") modA102
              worldPatches) as [[res w']| |] eqn:E.
  - destruct (pending_pass_writes_only_statuses _ _ _ _ _ _ E) as (Hc & Hn & _).
    split; [exact Hc|]. destruct (Hn "mod-a-v1.0.2") as (_ & -> & _).
    reflexivity.
  - vm_compute in E. discriminate.
  - vm_compute in E. discriminate.
Defined.

(** ** The passes that write labels and finalizers *)

Lemma labelPass_same (w w' : World) :
  fs w' = fs w -> debounce w' = debounce w ->
  releasesStore w' = releasesStore w -> server w' = server w ->
  apiLog w' = apiLog w -> labelPass w w'.
Proof.
  intros Hf Hd Hr Hs Hl. do 3 (split; [done|]). split; [by rewrite Hs|].
  exists []. by rewrite app_nil_r.
Qed.

Lemma labelPass_refl (w : World) : labelPass w w.
Proof. by apply labelPass_same. Qed.

Lemma labelPass_trans (w1 w2 w3 : World) :
  labelPass w1 w2 -> labelPass w2 w3 -> labelPass w1 w3.
Proof.
  intros (Hf & Hd & Hr & Hs & l & Hl & Hall)
         (Hf' & Hd' & Hr' & Hs' & l' & Hl' & Hall').
  do 3 (split; [congruence|]). split; [intros n; by rewrite Hs', Hs|].
  exists (l ++ l'). split; [by rewrite Hl', Hl, <- app_assoc|].
  by apply Forall_app.
Qed.

Lemma Update_labelPass (mr : ModuleRelease) :
  keeps labelPass anyResult (Update mr).
Proof.
  intros w e w' H. split; [|done].
  unfold Update, nextAnswer, record in H. unfoldMin H.
  repeat (simpl in H; casesin H); simplify_eq; simpl;
    do 3 (split; [done|]);
    (split; [|eexists; split; [done|by repeat constructor]]); try done.
  all: intros n; simpl; destruct (decide (n = ObjectName mr)) as [->|Hn];
    [rewrite lookup_insert_eq|by rewrite lookup_insert_ne].
  all: match goal with H : _ !! _ = Some _ |- _ => rewrite H end; done.
Qed.

Lemma UpdateSource_labelPass (ms : ModuleSource) :
  keeps labelPass anyResult (UpdateSource ms).
Proof.
  intros w e w' H. split; [|done].
  unfold UpdateSource, nextAnswer, record in H. unfoldMin H.
  repeat (simpl in H; casesin H); simplify_eq; simpl;
    do 4 (split; [done|]); eexists; split; done || by repeat constructor.
Qed.

(** X11. The pass over a release in phase Superseded, Suspended or
    Deployed touches neither the disk, nor the restart timer, nor the
    cache of releases, nor the status of any release on the server; the
    calls it makes are [Update] calls on releases and sources, never a
    status write. *)
Theorem label_pass_leaves_disk_and_statuses
  (calculateRelease : list ModuleRelease -> Prediction) (c : Controller)
  (roMR : ModuleRelease) (w w' : World) (res : Result * option error) :
  Phase (Status roMR) = PhaseSuperseded
  ∨ Phase (Status roMR) = PhaseSuspended
  ∨ Phase (Status roMR) = PhaseDeployed ->
  createOrUpdateReconcile calculateRelease c roMR w = Done (res, w') ->
  fs w' = fs w ∧ debounce w' = debounce w
  ∧ releasesStore w' = releasesStore w
  ∧ (∀ name, Status <$> server w' !! name = Status <$> server w !! name)
  ∧ Forall (λ call, isUpdate call = true) (callsSince w w').
Proof.
  intros Hph H.
  assert (Hk : keeps labelPass anyResult
                 (createOrUpdateReconcile calculateRelease c roMR)).
  { pose proof labelPass_refl as Hrefl. pose proof labelPass_trans as Htrans.
    unfold createOrUpdateReconcile, updateModuleRelease, getSource. cbv zeta.
    destruct Hph as [Hph|[Hph|Hph]]; rewrite Hph.
    - rewrite (bool_decide_eq_false_2 (PhaseSuperseded = "")) by done.
      rewrite (bool_decide_eq_true_2 (PhaseSuperseded = PhaseSuperseded))
        by done.
      cbn [orb].
      repeat frame_step ltac:(idtac; apply Update_labelPass).
    - rewrite (bool_decide_eq_false_2 (PhaseSuspended = "")) by done.
      rewrite (bool_decide_eq_false_2 (PhaseSuspended = PhaseSuperseded))
        by done.
      rewrite (bool_decide_eq_true_2 (PhaseSuspended = PhaseSuspended))
        by done.
      cbn [orb].
      repeat frame_step ltac:(idtac; apply Update_labelPass).
    - rewrite (bool_decide_eq_false_2 (PhaseDeployed = "")) by done.
      rewrite (bool_decide_eq_false_2 (PhaseDeployed = PhaseSuperseded))
        by done.
      rewrite (bool_decide_eq_false_2 (PhaseDeployed = PhaseSuspended))
        by done.
      rewrite (bool_decide_eq_true_2 (PhaseDeployed = PhaseDeployed))
        by done.
      cbn [orb].
      repeat frame_step
        ltac:(idtac;
              lazymatch goal with
              | |- keeps _ _ (Update _) => apply Update_labelPass
              | |- keeps _ _ (UpdateSource _) => apply UpdateSource_labelPass
              end). }
  apply Hk in H as [(Hf & Hd & Hr & Hs & l & Hl & Hall) _].
  do 4 (split; [done|]). unfold callsSince. by rewrite Hl, drop_app_length.
Qed.

Lemma label_pass_leaves_disk_and_statuses_witness :
  match createOrUpdateReconcile specPredictor (NewController "/ext") modA100
          (worldOf fsModA [modA100]) with
  | Done (_, w') =>
      fs w' = fsModA
      ∧ Forall (λ call, isUpdate call = true)
          (callsSince (worldOf fsModA [modA100]) w')
  | _ => False
  end.
Proof.
  destruct (createOrUpdateReconcile specPredictor (NewController "/ext") modA100
              (worldOf fsModA [modA100])) as [[res w']| |] eqn:E.
  - destruct (label_pass_leaves_disk_and_statuses specPredictor
                (NewController "/ext") modA100 (worldOf fsModA [modA100]) w' res
                (or_intror (or_intror eq_refl)) E) as (Hf & _ & _ & _ & Hc).
    split; [exact Hf|exact Hc].
  - vm_compute in E. discriminate.
  - vm_compute in E. discriminate.
Defined.

(** What [UpdateStatus] does, whatever the server answers. *)
Lemma UpdateStatus_run (mr : ModuleRelease) (w : World) :
  ∃ e w',
    UpdateStatus mr w = Done (e, w')
    ∧ fs w' = fs w ∧ debounce w' = debounce w
    ∧ releasesStore w' = releasesStore w
    ∧ serverSources w' = serverSources w
    ∧ apiFaults w' = tail (apiFaults w)
    ∧ apiLog w' = apiLog w ++ [UpdateStatusCall mr (bool_decide (e = None))]
    ∧ match e with
      | None =>
          hd None (apiFaults w) = None
          ∧ ∃ stored, server w !! ObjectName mr = Some stored
                      ∧ server w' = <[ObjectName mr := setStatus stored (Status mr)]>
                                      (server w)
      | Some _ => server w' = server w
      end.
Proof.
  unfold UpdateStatus, nextAnswer, record. unfoldM.
  destruct (apiFaults w) as [|[a|] rest] eqn:Hf; simpl;
    destruct (server w !! ObjectName mr) as [stored|] eqn:Hs; simpl;
    eexists _, _; (split; [reflexivity|]); simpl; rewrite ?Hf;
    do 6 (split; [done|]); try done; (split; [done|]); by eexists.
Qed.

(** X12. The first pass over a release, whose phase is still empty, makes
    one call: a status write with the phase Pending, the message it had
    and the time of the pass. It touches neither the disk, nor the timer,
    nor the cached object. When the server takes the write the stored
    release has that status and the result is success; when it does not,
    nothing is stored and the result is the error with a requeue. *)
Theorem first_pass_marks_pending
  (calculateRelease : list ModuleRelease -> Prediction) (c : Controller)
  (roMR : ModuleRelease) (w : World) :
  Phase (Status roMR) = "" ->
  let sent := setTransitionTime (setPhase roMR PhasePending) (clock w) in
  ∃ e w',
    createOrUpdateReconcile calculateRelease c roMR w
    = Done ((if e is Some _ then requeue else emptyResult, e), w')
    ∧ callsSince w w' = [UpdateStatusCall sent (bool_decide (e = None))]
    ∧ Status sent = mkStatus PhasePending (Message (Status roMR)) (clock w)
    ∧ fs w' = fs w ∧ debounce w' = debounce w
    ∧ releasesStore w' = releasesStore w
    ∧ match e with
      | None =>
          ∃ stored, server w !! ObjectName roMR = Some stored
                    ∧ server w' = <[ObjectName roMR := setStatus stored (Status sent)]>
                                    (server w)
      | Some _ => server w' = server w
      end.
Proof.
  intros Hph sent.
  destruct (UpdateStatus_run sent w)
    as (e & w' & HU & Hf & Hd & Hr & _ & _ & Hl & Hs).
  exists e, w'. split.
  { unfold createOrUpdateReconcile. rewrite Hph.
    rewrite bool_decide_eq_true_2 by done.
    unfold updateModuleReleaseStatus, bind, get, ret. subst sent.
    rewrite HU. by destruct e. }
  split; [unfold callsSince; by rewrite Hl, drop_app_length|].
  do 4 (split; [done|]). destruct e; [done|]. by destruct Hs.
Qed.

Lemma first_pass_marks_pending_witness :
  ∃ w', createOrUpdateReconcile specPredictor (NewController "/ext") modBNew
          (worldOf fsEmpty [modBNew]) = Done ((emptyResult, None), w')
        ∧ Phase ∘ Status <$> server w' !! "mod-b-v2.0.0" = Some "Pending".
Proof.
  destruct (first_pass_marks_pending specPredictor (NewController "/ext")
              modBNew (worldOf fsEmpty [modBNew]) eq_refl)
    as (e & w' & Hrun & _ & _ & _ & _ & _ & Hs).
  assert (He : e = None).
  { destruct e as [e|]; [|done]. vm_compute in Hrun. discriminate. }
  subst e. exists w'. split; [exact Hrun|].
  destruct Hs as (stored & _ & ->). reflexivity.
Defined.

(** X13. In the pass over a Deployed release, when the server refuses the
    [Update] that carries the label and the finalizer, the pass sends the
    same object once more and returns what the second call returns: the
    first error is dropped, so that the result is a requeue with no error
    when the second call goes through; the source is not looked at in
    this pass. *)
Theorem deployed_pass_returns_the_retry
  (calculateRelease : list ModuleRelease -> Prediction) (c : Controller)
  (roMR stored : ModuleRelease) (w : World) (e : error)
  (second : option error) (rest : list (option error)) :
  Phase (Status roMR) = PhaseDeployed ->
  apiFaults w = Some e :: second :: rest ->
  server w !! ObjectName roMR = Some stored ->
  ∃ obj w',
    createOrUpdateReconcile calculateRelease c roMR w
    = Done ((requeue, second), w')
    ∧ callsSince w w'
      = [UpdateCall obj false; UpdateCall obj (bool_decide (second = None))]
    ∧ ContainsFinalizer (Finalizers obj) fsReleaseFinalizer = true
    ∧ Labels obj !! "status" = Some "deployed"
    ∧ serverSources w' = serverSources w
    ∧ apiFaults w' = rest.
Proof.
  intros Hph Hfaults Hs. unfold createOrUpdateReconcile. rewrite Hph.
  rewrite (bool_decide_eq_false_2 (PhaseDeployed = "")) by done.
  rewrite (bool_decide_eq_false_2 (PhaseDeployed = PhaseSuperseded)) by done.
  rewrite (bool_decide_eq_false_2 (PhaseDeployed = PhaseSuspended)) by done.
  rewrite (bool_decide_eq_true_2 (PhaseDeployed = PhaseDeployed)) by done.
  cbn [orb].
  set (mr0 := if negb (ContainsFinalizer (Finalizers roMR) fsReleaseFinalizer)
              then SetFinalizers roMR
                     (AddFinalizer (Finalizers roMR) fsReleaseFinalizer)
              else roMR).
  assert (Hmr0 : ObjectName mr0 = ObjectName roMR
                 ∧ ContainsFinalizer (Finalizers mr0) fsReleaseFinalizer = true).
  { subst mr0. destruct (ContainsFinalizer _ _) eqn:Ec; simpl; [done|].
    split; [done|]. apply ContainsFinalizer_Add. }
  destruct Hmr0 as [Hn0 Hfin0].
  set (obj := addLabels mr0 {["status" := ToLower PhaseDeployed]}).
  destruct (addLabels_fields mr0 {["status" := ToLower PhaseDeployed]})
    as (Hn & _ & Hfi & _). fold obj in Hn, Hfi.
  assert (Hlab : Labels obj !! "status" = Some "deployed").
  { subst obj. unfold addLabels. case_bool_decide; simpl.
    - by rewrite lookup_singleton_eq.
    - rewrite lookup_union, lookup_singleton_eq.
      by destruct (Labels mr0 !! "status"). }
  exists obj.
  unfold updateModuleRelease, Update, nextAnswer, record. unfoldM.
  rewrite Hfaults. simpl.
  destruct second as [e2|]; simpl.
  - eexists. split; [done|]. simpl. unfold callsSince; simpl.
    rewrite <- app_assoc, drop_app_length. by rewrite Hfi.
  - rewrite Hn, Hn0, Hs. eexists. split; [done|]. simpl.
    unfold callsSince; simpl.
    rewrite <- app_assoc, drop_app_length. by rewrite Hfi.
Qed.

Lemma deployed_pass_returns_the_retry_witness :
  ∃ w', createOrUpdateReconcile specPredictor (NewController "/ext") modA100
          (setApiFaults (worldOf fsModA [modA100])
             [Some (errorString "conflict"); None])
        = Done ((requeue, None), w')
        ∧ serverSources w' = serverSources (worldOf fsModA [modA100]).
Proof.
  destruct (deployed_pass_returns_the_retry specPredictor (NewController "/ext")
              modA100 modA100
              (setApiFaults (worldOf fsModA [modA100])
                 [Some (errorString "conflict"); None])
              (errorString "conflict") None [] eq_refl eq_refl)
    as (obj & w' & Hrun & _ & _ & _ & Hss & _).
  - vm_compute. reflexivity.
  - exists w'. split; [exact Hrun|exact Hss].
Defined.

(** ** The pass over a release that has no release of its module in the
    cache *)

(** X14. When the cache holds no release with the label [module] of the
    release at hand (it has no such label itself, say) and the predictor
    reports no deployed release, -1, for releases it was not given, the
    pass over a Pending release takes the empty list for one whose latest
    release is deployed and indexes it at -1: it panics, having written
    nothing. *)
Theorem pending_pass_panics_on_no_release
  (calculateRelease : list ModuleRelease -> Prediction) (c : Controller)
  (mr : ModuleRelease) (w : World) (found : string) (err : option error) :
  (∀ p r, releasesStore w !! p = Some r ->
     Labels r !! "module" ≠ Some (ModuleName (Spec mr))) ->
  currentReleaseIndex (calculateRelease []) = (-1)%Z ->
  findExistingModuleSymlink (symlinksDir c) (ModuleName (Spec mr)) (fs w)
  = Done (found, err) ->
  reconcilePendingRelease calculateRelease c mr w = Panic "index out of range".
Proof.
  intros Hnone Hcur Hwalk.
  assert (Hlist : filter (λ kv : string * ModuleRelease,
                            Labels kv.2 !! "module" = Some (ModuleName (Spec mr)))
                    (map_to_list (releasesStore w)) = []).
  { assert (Hall : Forall (λ kv : string * ModuleRelease,
                              Labels kv.2 !! "module"
                              ≠ Some (ModuleName (Spec mr)))
                      (map_to_list (releasesStore w))).
    { apply Forall_forall. intros [p r] Hin.
      apply elem_of_map_to_list in Hin. simpl. by eapply Hnone. }
    induction Hall as [|kv l Hkv _ IH]; [done|].
    by rewrite filter_cons_False. }
  unfold reconcilePendingRelease, listByModule, currentSymlink, restoreLatest.
  unfoldM. rewrite Hlist. simpl. rewrite Hwalk, Hcur.
  by destruct err.
Qed.

Lemma pending_pass_panics_on_no_release_witness :
  reconcilePendingRelease specPredictor (NewController "/ext") modBBare
    (worldOf fsEmpty [modBBare])
  = Panic "index out of range".
Proof.
  apply (pending_pass_panics_on_no_release specPredictor (NewController "/ext")
           modBBare (worldOf fsEmpty [modBBare]) "" None).
  - intros p r Hp.
    change (releasesStore (worldOf fsEmpty [modBBare]))
      with ({[ "mod-b-v2.0.0" := modBBare ]} : gmap string ModuleRelease) in Hp.
    apply lookup_singleton_Some in Hp as [_ <-]. discriminate.
  - reflexivity.
  - vm_compute. reflexivity.
Defined.

(** ** The pass over a release that is being deleted *)

Lemma RemoveAll_run (name : string) (x : FS) :
  match RemoveAll name x with
  | (Some _, x') => x' = x
  | (None, x') =>
      (∀ p, within name p -> nodes x' !! p = None)
      ∧ (∀ p, ¬ within name p -> nodes x' !! p = nodes x !! p)
  end.
Proof.
  unfold RemoveAll. destruct (faults x _); [done|]. simpl. split.
  - intros p Hp. apply map_lookup_filter_None. right. intros n _ Hno.
    by apply Hno.
  - intros p Hp. destruct (nodes x !! p) as [n|] eqn:E.
    + apply map_lookup_filter_Some. split; [done|]. simpl.
      intros Hw. by apply Hp.
    + apply map_lookup_filter_None. by left.
Qed.

Lemma callsSince_none (w w' : World) :
  apiLog w' = apiLog w -> callsSince w w' = [].
Proof. intros Hl. unfold callsSince. rewrite Hl. apply drop_all. Qed.

Lemma callsSince_one (w w' : World) (call : ApiCall) :
  apiLog w' = apiLog w ++ [call] -> callsSince w w' = [call].
Proof. intros Hl. unfold callsSince. by rewrite Hl, drop_app_length. Qed.

Lemma RemoveFinalizer_spec (f : list string) (finalizer g : string) :
  g ∈ RemoveFinalizer f finalizer <-> g ≠ finalizer ∧ g ∈ f.
Proof. unfold RemoveFinalizer. by rewrite list_elem_of_filter. Qed.

Lemma Update_timer (mr : ModuleRelease) (w w' : World) (e : option error) :
  Update mr w = Done (e, w') -> debounce w' = debounce w.
Proof.
  intros H. unfold Update, nextAnswer, record in H. unfoldMin H.
  repeat (simpl in H; casesin H); by simplify_eq.
Qed.

Section Delete.
Variable c : Controller.
Variable roMR : ModuleRelease.

Local Abbreviation payload :=
  (Join [externalModulesDir c; ModuleName (Spec roMR);
         "v" +:+ VersionString (Version (Spec roMR))]).
Local Abbreviation link :=
  (Join [externalModulesDir c; "modules";
         weighted (Weight (Spec roMR)) (ModuleName (Spec roMR))]).
Local Abbreviation released :=
  (SetFinalizers roMR (RemoveFinalizer (Finalizers roMR) fsReleaseFinalizer)).

(** The pass, step by step. *)
Lemma deleteReconcile_run (w w' : World) (res : Result) (err : option error) :
  deleteReconcile c roMR w = Done ((res, err), w') ->
  releasesStore w' = releasesStore w ∧ debounce w' = debounce w
  ∧ (∀ p, ¬ within payload p ->
       (Phase (Status roMR) = PhaseDeployed -> ¬ within link p) ->
       nodes (fs w') !! p = nodes (fs w) !! p)
  ∧ ((callsSince w w' = [] ∧ server w' = server w
      ∧ (err = None ->
         ContainsFinalizer (Finalizers roMR) fsReleaseFinalizer = false))
     ∨ (callsSince w w' = [UpdateCall released (bool_decide (err = None))]
        ∧ ContainsFinalizer (Finalizers roMR) fsReleaseFinalizer = true
        ∧ (err = None ->
           Finalizers <$> server w' !! ObjectName roMR
           = Some (Finalizers released))))
  ∧ (callsSince w w' ≠ [] ∨ err = None ->
     (∀ p, within payload p -> nodes (fs w') !! p = None)
     ∧ (Phase (Status roMR) = PhaseDeployed ->
        ∀ p, within link p -> nodes (fs w') !! p = None)).
Proof.
  intros H. unfold deleteReconcile in H. cbv zeta in H.
  unfold bind at 1, onFS at 1 in H.
  pose proof (RemoveAll_run payload (fs w)) as H1.
  destruct (RemoveAll payload (fs w)) as [[e1|] x1].
  { (* the payload could not be removed *)
    injection H as <- <- <-. subst x1. simpl.
    do 3 (split; [done|]). split.
    - left. by rewrite callsSince_none.
    - rewrite callsSince_none by done. by intros [|]. }
  destruct H1 as [Hgone1 Hkeep1].
  unfold bind at 1 in H.
  set (w1 := setFs w x1) in *.
  assert (Hstep : ∃ e2 w2,
            (if bool_decide (Phase (Status roMR) = PhaseDeployed)
             then onFS (RemoveAll link) else ret None) w1 = Done (e2, w2)
            ∧ releasesStore w2 = releasesStore w ∧ debounce w2 = debounce w
            ∧ apiLog w2 = apiLog w ∧ server w2 = server w
            ∧ (∀ p, ¬ within payload p ->
                 (Phase (Status roMR) = PhaseDeployed -> ¬ within link p) ->
                 nodes (fs w2) !! p = nodes (fs w) !! p)
            ∧ (e2 = None ->
               (∀ p, within payload p -> nodes (fs w2) !! p = None)
               ∧ (Phase (Status roMR) = PhaseDeployed ->
                  ∀ p, within link p -> nodes (fs w2) !! p = None))).
  { case_bool_decide as Hph.
    - unfold onFS. pose proof (RemoveAll_run link (fs w1)) as H2.
      destruct (RemoveAll link (fs w1)) as [[e2|] x2].
      + subst x2. eexists _, _. split; [done|]. simpl.
        do 4 (split; [done|]). split; [|done].
        intros p Hp _. by apply Hkeep1.
      + destruct H2 as [Hgone2 Hkeep2]. eexists _, _. split; [done|]. simpl.
        do 4 (split; [done|]). split.
        * intros p Hp Hl. rewrite Hkeep2 by auto. by apply Hkeep1.
        * intros _. split; [|done]. intros p Hp.
          destruct (decide (within link p)) as [Hin|Hout]; [by apply Hgone2|].
          rewrite Hkeep2 by done. by apply Hgone1.
    - eexists _, _. split; [done|]. simpl. do 4 (split; [done|]). split.
      + intros p Hp _. by apply Hkeep1.
      + intros _. split; [done|]. intros Hd. by destruct Hph. }
  destruct Hstep as (e2 & w2 & Hrun & Hr2 & Hd2 & Hl2 & Hs2 & Hkeep & Hgone).
  rewrite Hrun in H. clear Hrun. clearbody w1. destruct e2 as [e2|].
  { (* the link could not be removed *)
    injection H as <- <- <-. do 3 (split; [done|]). split.
    - left. by rewrite callsSince_none.
    - rewrite callsSince_none by done. by intros [|]. }
  specialize (Hgone eq_refl).
  destruct (ContainsFinalizer (Finalizers roMR) fsReleaseFinalizer) eqn:Hfin;
    cbn [negb] in H.
  - unfold bind in H.
    destruct (Update released w2) as [[e3 w3]| |] eqn:EU; [|done..].
    apply Update_timer in EU as Hd3.
    apply Update_inv in EU
      as (Hf3 & _ & _ & _ & Hr3 & _ & Hl3 & Hs3).
    assert (Hend : w' = w3 ∧ err = e3)
      by (destruct e3; by injection H as <- <- <-).
    destruct Hend as [-> ->]. clear H.
    split; [congruence|]. split; [congruence|]. split.
    { intros p Hp Hl. rewrite Hf3. by apply Hkeep. }
    assert (Hcalls : callsSince w w3
                     = [UpdateCall released (bool_decide (e3 = None))]).
    { apply callsSince_one. by rewrite Hl3, Hl2. }
    split.
    + right. split; [done|]. split; [done|]. intros He.
      destruct (Hs3 He) as (stored & _ & ->). simpl.
      by rewrite lookup_insert_eq.
    + intros _. rewrite Hf3. done.
  - injection H as <- <- <-. do 3 (split; [done|]). split.
    + left. by rewrite callsSince_none.
    + done.
Qed.

(** X15. [deleteReconcile] gives up the finalizer only when the files are
    gone: whenever it sends an [Update], or returns without an error, the
    payload directory ROOT/<module>/v<version> and everything below it
    are no longer on disk, and for a Deployed release neither is the link
    ROOT/modules/<weight>-<module>. What lies outside the two is as it
    was; for a release that is not Deployed the link stays. *)
Theorem deleteReconcile_files_before_finalizer (w w' : World) (res : Result)
  (err : option error) :
  deleteReconcile c roMR w = Done ((res, err), w') ->
  (callsSince w w' ≠ [] ∨ err = None ->
   (∀ p, within payload p -> nodes (fs w') !! p = None)
   ∧ (Phase (Status roMR) = PhaseDeployed ->
      ∀ p, within link p -> nodes (fs w') !! p = None))
  ∧ (∀ p, ¬ within payload p ->
       (Phase (Status roMR) = PhaseDeployed -> ¬ within link p) ->
       nodes (fs w') !! p = nodes (fs w) !! p).
Proof.
  intros H. apply deleteReconcile_run in H as (_ & _ & Hkeep & _ & Hgone).
  by split.
Qed.

(** X16. The only call [deleteReconcile] can make is one [Update] of the
    release with "modules.deckhouse.io/exist-on-fs" taken out of its
    finalizers and every other finalizer kept; it makes none when the
    finalizer is not there, or when a removal failed. It writes no
    status and leaves the cache and the timer alone. *)
Theorem deleteReconcile_gives_up_its_finalizer (w w' : World) (res : Result)
  (err : option error) :
  deleteReconcile c roMR w = Done ((res, err), w') ->
  (callsSince w w' = []
   ∨ callsSince w w' = [UpdateCall released (bool_decide (err = None))])
  ∧ (ContainsFinalizer (Finalizers roMR) fsReleaseFinalizer = false ->
     callsSince w w' = [] ∧ server w' = server w)
  ∧ (err = None ->
     ContainsFinalizer (Finalizers roMR) fsReleaseFinalizer = true ->
     callsSince w w' = [UpdateCall released true])
  ∧ (∀ f, f ∈ Finalizers released
          <-> f ≠ fsReleaseFinalizer ∧ f ∈ Finalizers roMR)
  ∧ releasesStore w' = releasesStore w ∧ debounce w' = debounce w.
Proof.
  intros H. apply deleteReconcile_run in H as (Hr & Hd & _ & Hcalls & _).
  split; [destruct Hcalls as [(-> & _)|(-> & _)]; auto|].
  split.
  { intros Hno. destruct Hcalls as [(Hc & Hs & _)|(_ & Hyes & _)]; [done|].
    congruence. }
  split.
  { intros -> Hyes. destruct Hcalls as [(_ & _ & Hno)|(Hc & _)]; [|done].
    specialize (Hno eq_refl). congruence. }
  split; [intros f; apply RemoveFinalizer_spec|]. done.
Qed.

End Delete.

Lemma deleteReconcile_files_before_finalizer_witness :
  match deleteReconcile (NewController "/ext") modAGoing
          (worldOf fsModA [modAGoing]) with
  | Done ((_, err), w') =>
      err = None
      ∧ nodes (fs w') !! "/ext/mod-a/v1.0.0" = None
      ∧ nodes (fs w') !! "/ext/modules/10-mod-a" = None
      ∧ nodes (fs w') !! "/ext/mod-a/v1.0.1" = Some Directory
  | _ => False
  end.
Proof.
  destruct (deleteReconcile (NewController "/ext") modAGoing
              (worldOf fsModA [modAGoing])) as [[[res err] w']| |] eqn:E.
  - assert (He : err = None).
    { pose proof E as E'. vm_compute in E'. by injection E' as _ <- _. }
    destruct (deleteReconcile_files_before_finalizer _ _ _ _ _ _ E)
      as (Hgone & Hkeep).
    destruct (Hgone (or_intror He)) as (Hp & Hl).
    split; [exact He|]. split; [apply Hp; by left|].
    split; [apply (Hl eq_refl); by left|].
    rewrite Hkeep;
      [reflexivity
      |intros [Heq|Hu]; [vm_compute in Heq|vm_compute in Hu]; discriminate
      |intros _ [Heq|Hu]; [vm_compute in Heq|vm_compute in Hu]; discriminate].
  - vm_compute in E. discriminate.
  - vm_compute in E. discriminate.
Defined.

Lemma deleteReconcile_gives_up_its_finalizer_witness :
  match deleteReconcile (NewController "/ext") modAGoing
          (worldOf fsModA [modAGoing]) with
  | Done ((_, err), w') =>
      err = None
      ∧ callsSince (worldOf fsModA [modAGoing]) w'
        = [UpdateCall (SetFinalizers modAGoing ["keep"]) true]
  | _ => False
  end.
Proof.
  destruct (deleteReconcile (NewController "/ext") modAGoing
              (worldOf fsModA [modAGoing])) as [[[res err] w']| |] eqn:E.
  - assert (He : err = None).
    { pose proof E as E'. vm_compute in E'. by injection E' as _ <- _. }
    destruct (deleteReconcile_gives_up_its_finalizer _ _ _ _ _ _ E)
      as (_ & _ & Hs & _).
    split; [exact He|]. exact (Hs He eq_refl).
  - vm_compute in E. discriminate.
  - vm_compute in E. discriminate.
Defined.

(** ** More on the preflight check *)

Lemma onlyAdds_same (w w' : World) :
  fs w' = fs w -> apiLog w' = apiLog w -> server w' = server w ->
  serverSources w' = serverSources w -> releasesStore w' = releasesStore w ->
  onlyAdds w w'.
Proof. intros Hf. unfold onlyAdds. rewrite Hf. auto. Qed.

Lemma onlyAdds_refl (w : World) : onlyAdds w w.
Proof. by apply onlyAdds_same. Qed.

Lemma onlyAdds_trans (w1 w2 w3 : World) :
  onlyAdds w1 w2 -> onlyAdds w2 w3 -> onlyAdds w1 w3.
Proof.
  intros (Hf & ? & ? & ? & ?) (Hf' & ? & ? & ? & ?).
  split; [auto|]. repeat split; congruence.
Qed.

Lemma onlyAdds_onFS {A} (f : FS -> A * FS) :
  (∀ x p n, nodes x !! p = Some n -> nodes (f x).2 !! p = Some n) ->
  keeps onlyAdds anyResult (onFS f).
Proof.
  intros Hf w a w'. unfold onFS. specialize (Hf (fs w)).
  destruct (f (fs w)) as [a' x]. intros [= <- <-]. split; [|done].
  split; [exact Hf|done].
Qed.

Lemma restoreModuleSymlink_keeps (root symlinkPath rel : string) (x : FS)
  (p : string) (n : node) :
  nodes x !! p = Some n ->
  nodes (restoreModuleSymlink root symlinkPath rel x).2 !! p = Some n.
Proof.
  intros Hp. unfold restoreModuleSymlink.
  assert (Hs : nodes (Symlink_ rel symlinkPath x).2 !! p = Some n).
  { destruct (Symlink_ rel symlinkPath x) as [[e|] x'] eqn:E; simpl.
    - apply Symlink_failed in E. by subst.
    - apply Symlink_done in E as (Hfree & -> & _).
      rewrite lookup_insert_ne; [done|]. intros <-. congruence. }
  destruct (Stat _ x) as [?|err]; [done|]. by destruct (IsNotExist _).
Qed.

Section RestoreAdds.
Variable DownloadByModuleVersion :
  string -> ModuleSource -> string -> string -> FS -> option error * FS.
Variable c : Controller.
Hypothesis download_keeps : ∀ dir ms moduleName moduleVersion x p n,
  nodes x !! p = Some n ->
  nodes (DownloadByModuleVersion dir ms moduleName moduleVersion x).2 !! p
  = Some n.

Lemma restoreAbsentItem_adds (item : ModuleRelease) :
  keeps onlyAdds anyResult (restoreAbsentItem DownloadByModuleVersion c item).
Proof using download_keeps.
  pose proof onlyAdds_refl as Hrefl. pose proof onlyAdds_trans as Htrans.
  unfold restoreAbsentItem, getSource. cbv zeta.
  repeat frame_step
    ltac:(idtac;
          lazymatch goal with
          | |- keeps _ _ (modify _) =>
              apply keeps_modify; intros ?; by apply onlyAdds_same
          | |- keeps _ _ (onFS (restoreModuleSymlink _ _ _)) =>
              apply onlyAdds_onFS; intros ? ? ?; apply restoreModuleSymlink_keeps
          | |- keeps _ _ (onFS _) =>
              apply onlyAdds_onFS; intros ? ? ?; apply download_keeps
          end).
Qed.

Lemma forEach_adds (items : list ModuleRelease) :
  keeps onlyAdds anyResult
    (forEach items (restoreAbsentItem DownloadByModuleVersion c)).
Proof using download_keeps.
  induction items as [|item items IH]; simpl.
  - apply keeps_ret; [apply onlyAdds_refl|done].
  - apply keeps_bind_any; [apply onlyAdds_trans| |intros _; apply IH].
    apply restoreAbsentItem_adds.
Qed.

(** X17. [restoreAbsentSourceModules] makes one call, the [List] of the
    releases, and returns an error only when that call fails, in which
    case it has done nothing else. It writes nothing to the cluster. And
    with a downloader that removes and replaces nothing on disk, the
    restore removes and replaces nothing either: whatever was at a path
    before is there after, so that a link that is already there, dangling
    or pointing to another version, is never repaired by it. *)
Theorem restore_only_adds (w w' : World) (r : option error) :
  restoreAbsentSourceModules DownloadByModuleVersion c w = Done (r, w') ->
  callsSince w w' = [ListCall (bool_decide (r = None))]
  ∧ r = hd None (apiFaults w)
  ∧ (r ≠ None -> fs w' = fs w)
  ∧ server w' = server w ∧ serverSources w' = serverSources w
  ∧ releasesStore w' = releasesStore w
  ∧ ∀ p n, nodes (fs w) !! p = Some n -> nodes (fs w') !! p = Some n.
Proof using download_keeps.
  unfold restoreAbsentSourceModules, ListReleases, nextAnswer, record.
  unfold bind at 1 2 3, get, modify, ret.
  set (body := restoreAbsentItem DownloadByModuleVersion c).
  assert (Hloop : ∀ items w1 w2 u,
            apiLog w1 = apiLog w ++ [ListCall true] -> fs w1 = fs w ->
            server w1 = server w -> serverSources w1 = serverSources w ->
            releasesStore w1 = releasesStore w ->
            forEach items body w1 = Done (u, w2) ->
            callsSince w w2 = [ListCall true]
            ∧ server w2 = server w ∧ serverSources w2 = serverSources w
            ∧ releasesStore w2 = releasesStore w
            ∧ ∀ p n, nodes (fs w) !! p = Some n -> nodes (fs w2) !! p = Some n).
  { intros items w1 w2 u Hl Hf Hs Hss Hr Hrun.
    apply forEach_adds in Hrun as [(Hk & Hl2 & Hs2 & Hss2 & Hr2) _].
    split; [apply callsSince_one; congruence|].
    do 3 (split; [congruence|]). intros p n Hp. apply Hk. by rewrite Hf. }
  destruct (apiFaults w) as [|[e|] rest] eqn:Hfaults; simpl.
  - unfold bind.
    destruct (forEach _ body _) as [[u w2]| |] eqn:Hrun; [|done..].
    intros [= <- <-]. apply Hloop in Hrun as (? & ? & ? & ? & ?); done.
  - intros [= <- <-]. simpl. split; [by apply callsSince_one|]. done.
  - unfold bind.
    destruct (forEach _ body _) as [[u w2]| |] eqn:Hrun; [|done..].
    intros [= <- <-]. apply Hloop in Hrun as (? & ? & ? & ? & ?); done.
Qed.

End RestoreAdds.

Lemma fetchIfAbsent_keeps (dir : string) (ms : ModuleSource)
  (moduleName moduleVersion : string) (x : FS) (p : string) (n : node) :
  nodes x !! p = Some n ->
  nodes (fetchIfAbsent dir ms moduleName moduleVersion x).2 !! p = Some n.
Proof.
  intros Hp. unfold fetchIfAbsent, fetchPayload.
  destruct (nodes x !! Join _) eqn:E; [done|]. simpl.
  rewrite lookup_insert_ne; [done|]. intros <-. congruence.
Qed.

Lemma restore_only_adds_witness :
  match restoreAbsentSourceModules fetchIfAbsent (NewController "/ext")
          (worldOf fsDangling [modC]) with
  | Done (r, w') =>
      r = None
      ∧ nodes (fs w') !! "/ext/modules/5-mod-c" = Some (Symlink "../mod-c/v3.0.0")
      ∧ nodes (fs w') !! "/ext/mod-c/v3.1.0" = Some Directory
  | _ => False
  end.
Proof.
  destruct (restoreAbsentSourceModules fetchIfAbsent (NewController "/ext")
              (worldOf fsDangling [modC])) as [[r w']| |] eqn:E.
  - destruct (restore_only_adds fetchIfAbsent (NewController "/ext")
                fetchIfAbsent_keeps _ _ _ E) as (_ & Hr & _ & _ & _ & _ & Hk).
    split; [exact Hr|]. split; [by apply Hk|].
    vm_compute in E. by injection E as _ <-.
  - vm_compute in E. discriminate.
  - vm_compute in E. discriminate.
Defined.

(** ** More on the purge of orphans *)

(** The links [readModulesFromFS] returns, with the names they come
    from. *)
Lemma readModulesFromFS_keys (dir : string) (x : FS)
  (modules : gmap string string) :
  readModulesFromFS dir x = inl modules ->
  ∀ k v, modules !! k = Some v ->
    ∃ n, v = Join [dir; n] ∧ plainElem n = true ∧ moduleOfLink n = k.
Proof.
  unfold readModulesFromFS.
  destruct (ReadDir dir x) as [moduleLinks|] eqn:E; [|done].
  assert (Hnames : Forall (λ d, Name d ≠ "" ∧ occurs "/" (Name d) = false)
                     moduleLinks).
  { unfold ReadDir in E. destruct (faults x _); [done|].
    destruct (followLinks _ _ _) as [|[d []]]; try done.
    injection E as <-. apply entries_names. }
  clear E. intros [= <-].
  assert (Hinv : ∀ (acc : gmap string string),
    (∀ k v, acc !! k = Some v ->
       ∃ n, v = Join [dir; n] ∧ plainElem n = true ∧ moduleOfLink n = k) ->
    ∀ k v,
      foldl (fun (modules : gmap string string) moduleLink =>
               let index := Index (Name moduleLink) "-" in
               if bool_decide (index = (-1)%Z) then modules
               else
                 let moduleName := sliceFrom (Name moduleLink) (index + 1) in
                 <[moduleName := Join [dir; Name moduleLink]]> modules)
        acc moduleLinks !! k = Some v ->
      ∃ n, v = Join [dir; n] ∧ plainElem n = true ∧ moduleOfLink n = k).
  { induction Hnames as [|d l [Hd1 Hd2] Hl IH]; intros acc Hacc k v; [apply Hacc|].
    simpl. apply IH. case_bool_decide as Hi; [done|].
    intros k' v'. destruct (decide (k' = sliceFrom (Name d) (Index (Name d) "-" + 1)))
      as [->|Hk].
    - rewrite lookup_insert_eq. intros [= <-]. exists (Name d).
      split; [done|]. split; [|done]. by apply dashed_name_plain.
    - rewrite lookup_insert_ne by done. apply Hacc. }
  apply Hinv. intros k v. by rewrite lookup_empty.
Qed.

(** A link whose module name no other link of the directory gives is
    what [readModulesFromFS] returns for that name. *)
Lemma readModulesFromFS_finds (dir : string) (x : FS) (ds : list DirEntry)
  (d : DirEntry) :
  ReadDir dir x = inl ds ->
  d ∈ ds ->
  Index (Name d) "-" ≠ (-1)%Z ->
  (∀ d', d' ∈ ds -> Index (Name d') "-" ≠ (-1)%Z ->
     moduleOfLink (Name d') = moduleOfLink (Name d) -> Name d' = Name d) ->
  ∃ modules, readModulesFromFS dir x = inl modules
             ∧ modules !! moduleOfLink (Name d) = Some (Join [dir; Name d]).
Proof.
  intros Hread Hin Hdash Huniq. unfold readModulesFromFS. rewrite Hread.
  eexists. split; [done|].
  assert (Hinv : ∀ l (acc : gmap string string),
    (∀ d', d' ∈ l -> Index (Name d') "-" ≠ (-1)%Z ->
       moduleOfLink (Name d') = moduleOfLink (Name d) -> Name d' = Name d) ->
    acc !! moduleOfLink (Name d) = Some (Join [dir; Name d]) ∨ d ∈ l ->
    foldl (fun (modules : gmap string string) moduleLink =>
             let index := Index (Name moduleLink) "-" in
             if bool_decide (index = (-1)%Z) then modules
             else
               let moduleName := sliceFrom (Name moduleLink) (index + 1) in
               <[moduleName := Join [dir; Name moduleLink]]> modules)
      acc l !! moduleOfLink (Name d) = Some (Join [dir; Name d])).
  { induction l as [|d0 l IH]; intros acc Hu Hacc; simpl.
    - destruct Hacc as [?|Hnil]; [done|]. by apply elem_of_nil in Hnil.
    - apply IH; [intros d' Hd'; apply Hu; by right|].
      case_bool_decide as Hi.
      + destruct Hacc as [?|[->|?]%elem_of_cons]; [by left|done|by right].
      + fold (moduleOfLink (Name d0)).
        destruct (decide (moduleOfLink (Name d0) = moduleOfLink (Name d)))
          as [Heq|Hne].
        * left. rewrite Heq, lookup_insert_eq.
          by rewrite (Hu d0) by (done || by left).
        * rewrite lookup_insert_ne by done.
          destruct Hacc as [?|[->|?]%elem_of_cons]; [by left|done|by right]. }
  apply Hinv; [done|by right].
Qed.

Lemma foldl_delete_keeps (releases : list ModuleRelease)
  (m : gmap string string) (k : string) :
  (∀ release, release ∈ releases -> ModuleName (Spec release) ≠ k) ->
  foldl (fun (m : gmap string string) release =>
           delete (ModuleName (Spec release)) m) m releases !! k = m !! k.
Proof.
  revert m. induction releases as [|r l IH]; intros m Hk; [done|]. simpl.
  rewrite IH by (intros; apply Hk; by right).
  apply lookup_delete_ne. apply Hk. by left.
Qed.

Lemma foldl_delete_gone (releases : list ModuleRelease)
  (m : gmap string string) (release : ModuleRelease) :
  release ∈ releases ->
  foldl (fun (m : gmap string string) release =>
           delete (ModuleName (Spec release)) m) m releases
    !! ModuleName (Spec release) = None.
Proof.
  intros Hin. destruct (foldl _ m releases !! _) as [v|] eqn:E; [|done].
  exfalso. revert m E.
  induction releases as [|r l IH]; intros m E; [by apply elem_of_nil in Hin|].
  simpl in E. apply elem_of_cons in Hin as [->|Hin]; [|by eapply IH].
  apply foldl_delete_lookup in E. by rewrite lookup_delete_eq in E.
Qed.

Lemma RemoveAll_faults (p : string) (x : FS) :
  faults (RemoveAll p x).2 = faults x.
Proof. unfold RemoveAll. by destruct (faults x _). Qed.

Lemma RemoveAll_stays_gone (p q : string) (x : FS) :
  nodes x !! q = None -> nodes (RemoveAll p x).2 !! q = None.
Proof.
  intros Hq. unfold RemoveAll. destruct (faults x _); [done|]. simpl.
  apply map_lookup_filter_None. by left.
Qed.

Lemma foldl_RemoveAll_gone (paths : list string) (x : FS) (path q : string) :
  path ∈ paths ∨ nodes x !! q = None ->
  (∀ p, faults x (SysRemoveAll p) = None) ->
  within path q ->
  nodes (foldl (fun x moduleLinkPath => (RemoveAll moduleLinkPath x).2)
           x paths) !! q = None.
Proof.
  revert x. induction paths as [|p l IH]; intros x Hin Hf Hq; simpl.
  - destruct Hin as [Hin|?]; [by apply elem_of_nil in Hin|done].
  - apply IH; [|intros p'; by rewrite RemoveAll_faults|done].
    destruct Hin as [[->|Hin]%elem_of_cons|Hgone].
    + right. pose proof (RemoveAll_run p x) as Hr.
      unfold RemoveAll in *. rewrite Hf in *. simpl. by apply Hr.
    + by left.
    + right. by apply RemoveAll_stays_gone.
Qed.

Lemma prefix_String (a b : ascii) (s t : string) :
  String.prefix (String a s) (String b t)
  = if ascii_dec a b then String.prefix s t else false.
Proof. done. Qed.

Lemma prefix_split (pre q : string) :
  String.prefix pre q = true -> ∃ rest, q = pre +:+ rest.
Proof.
  revert q. induction pre as [|a pre IH]; intros q Hq.
  - exists q. by rewrite app_empty.
  - destruct q as [|b q]; [done|]. rewrite prefix_String in Hq.
    destruct (ascii_dec a b) as [->|]; [|done].
    destruct (IH q Hq) as [rest ->]. exists rest. by rewrite app_String.
Qed.

(** A name without a slash that is a prefix, up to the slash, of a path
    that starts with such a name, is that name. *)
Lemma prefix_name (n name rest : string) :
  occurs "/" n = false -> occurs "/" name = false ->
  String.prefix (n +:+ "/") (name +:+ "/" +:+ rest) = true -> n = name.
Proof.
  revert name. induction n as [|a n IH]; intros [|b name] Hn Hname.
  - done.
  - rewrite (app_empty "/"), (app_String b name), prefix_String.
    destruct (ascii_dec "/" b) as [<-|]; [|done]. simpl in Hname. done.
  - rewrite (app_String a n), (app_empty ("/" +:+ rest)).
    rewrite (app_String "/" "" rest), prefix_String.
    destruct (ascii_dec a "/") as [->|]; [|done]. simpl in Hn. done.
  - rewrite (app_String a n), (app_String b name), prefix_String.
    destruct (ascii_dec a b) as [->|]; [|done].
    simpl in Hn, Hname. apply orb_false_iff in Hn as [_ Hn].
    apply orb_false_iff in Hname as [_ Hname].
    intros H. f_equal. by apply IH.
Qed.

(** Removing an entry of a directory leaves the other entries, and what
    lies below them. *)
Lemma within_other_entry (dir n name q : string) :
  plainElem n = true -> plainElem name = true -> n ≠ name ->
  within (dir +:+ "/" +:+ name) q ->
  q ≠ dir +:+ "/" +:+ n ∧ under (dir +:+ "/" +:+ n) q = false.
Proof.
  intros Hn Hname Hne Hq.
  apply plainElem_spec in Hn as (_ & _ & _ & Hn).
  apply plainElem_spec in Hname as (_ & _ & _ & Hname).
  destruct Hq as [->|Hq].
  - split; [|by apply under_sibling].
    intros Heq. apply (inj (String.app _)) in Heq.
    apply (inj (String.app _)) in Heq. congruence.
  - unfold under in Hq. apply prefix_split in Hq as [rest ->].
    rewrite !append_assoc. split.
    + intros Heq. apply (inj (String.app _)) in Heq.
      apply (inj (String.app _)) in Heq. subst n.
      rewrite occurs_app in Hn. apply orb_false_iff in Hn as [_ Hn].
      rewrite (app_String "/" "" rest) in Hn. simpl in Hn. done.
    + unfold under. rewrite !append_assoc, !prefix_app.
      destruct (String.prefix _ _) eqn:E; [|done].
      apply prefix_name in E; congruence.
Qed.

Section Purge.
Variable c : Controller.

Local Abbreviation dir := (Join [externalModulesDir c; "modules"]).

(** X18. The purge of orphans spares the modules that have a release: an
    entry of ROOT/modules whose name gives, after its first '-', the
    module name of a release in the cache, is left as it is, with all
    that lies below it. *)
Theorem purge_spares_released_modules (w w' : World) (r : option error)
  (release : ModuleRelease) (p : string) (name q : string) :
  deleteModulesWithAbsentRelease c w = Done (r, w') ->
  releasesStore w !! p = Some release ->
  plainElem name = true ->
  moduleOfLink name = ModuleName (Spec release) ->
  within (dir +:+ "/" +:+ name) q ->
  nodes (fs w') !! q = nodes (fs w) !! q.
Proof.
  intros Hrun Hrel Hname Hmod Hq. revert Hrun.
  unfold deleteModulesWithAbsentRelease.
  unfold bind, readFS, listEverything, get, modify, onFS, ret. simpl.
  destruct (readModulesFromFS _ _) as [links|err] eqn:E;
    [|by intros [= _ <-]].
  intros [= _ <-]. simpl.
  apply foldl_RemoveAll_other. apply Forall_forall. intros v Hv.
  apply list_elem_of_fmap in Hv as ([k v'] & -> & Hkv). simpl.
  apply elem_of_map_to_list in Hkv.
  assert (Hk : k ≠ ModuleName (Spec release)).
  { intros ->. rewrite foldl_delete_gone in Hkv; [done|].
    apply list_elem_of_fmap. exists (p, release). split; [done|].
    by apply elem_of_map_to_list. }
  apply foldl_delete_lookup in Hkv.
  destruct (readModulesFromFS_keys _ _ _ E _ _ Hkv) as (n & -> & Hn & Hkn).
  pose proof (properDir_Join (externalModulesDir c) "modules" eq_refl) as Hd.
  rewrite Join_child by done.
  apply (within_other_entry dir n name q); try done. congruence.
Qed.

(** X19. The purge of orphans removes the orphans: an entry of
    ROOT/modules with a '-' in its name, whose module name (what follows
    the first '-') is the module name of no release in the cache and of
    no other entry, is removed with all that lies below it, when
    [os.RemoveAll] is not failed from outside. *)
Theorem purge_removes_orphans (w w' : World) (r : option error)
  (ds : list DirEntry) (d : DirEntry) (q : string) :
  deleteModulesWithAbsentRelease c w = Done (r, w') ->
  ReadDir dir (fs w) = inl ds ->
  d ∈ ds ->
  Index (Name d) "-" ≠ (-1)%Z ->
  (∀ d', d' ∈ ds -> Index (Name d') "-" ≠ (-1)%Z ->
     moduleOfLink (Name d') = moduleOfLink (Name d) -> Name d' = Name d) ->
  (∀ p release, releasesStore w !! p = Some release ->
     ModuleName (Spec release) ≠ moduleOfLink (Name d)) ->
  (∀ p, faults (fs w) (SysRemoveAll p) = None) ->
  within (Join [dir; Name d]) q ->
  r = None ∧ nodes (fs w') !! q = None.
Proof.
  intros Hrun Hread Hin Hdash Huniq Hnone Hfaults Hq. revert Hrun.
  destruct (readModulesFromFS_finds dir (fs w) ds d Hread Hin Hdash Huniq)
    as (links & E & Hlink).
  unfold deleteModulesWithAbsentRelease.
  unfold bind, readFS, listEverything, get, modify, onFS, ret. simpl.
  rewrite E. intros [= <- <-]. split; [done|]. simpl.
  apply (foldl_RemoveAll_gone _ _ (Join [dir; Name d])); [|done..].
  left. apply list_elem_of_fmap. exists (moduleOfLink (Name d), Join [dir; Name d]).
  split; [done|]. apply elem_of_map_to_list.
  rewrite foldl_delete_keeps; [done|].
  intros release Hr. apply list_elem_of_fmap in Hr as ([p r'] & -> & Hr).
  apply elem_of_map_to_list in Hr. by eapply Hnone.
Qed.

(** X20. After the purge [GetModuleSources] knows every module that has a
    release in the cache, with the source of one of its releases, and has
    forgotten nothing: a module without a release keeps the source it
    had. *)
Theorem purge_records_sources (w w' : World) :
  deleteModulesWithAbsentRelease c w = Done (None, w') ->
  ∃ sources,
    GetModuleSources w' = Done (sources, w')
    ∧ (∀ p release, releasesStore w !! p = Some release ->
         ∃ p' release',
           releasesStore w !! p' = Some release'
           ∧ ModuleName (Spec release') = ModuleName (Spec release)
           ∧ sources !! ModuleName (Spec release) = Some (Source release'))
    ∧ (∀ k, (∀ p release, releasesStore w !! p = Some release ->
               ModuleName (Spec release) ≠ k) ->
         sources !! k = sourceModules w !! k).
Proof.
  unfold deleteModulesWithAbsentRelease.
  unfold bind, readFS, listEverything, get, modify, onFS, ret. simpl.
  destruct (readModulesFromFS _ _) as [links|err]; [|done].
  intros [= <-]. eexists. split; [done|]. simpl.
  assert (Hfold : ∀ l (m : gmap string string),
    (∀ release, release ∈ l ->
       ∃ release', release' ∈ l
         ∧ ModuleName (Spec release') = ModuleName (Spec release)
         ∧ foldl (fun (m : gmap string string) release =>
                    <[ModuleName (Spec release) := Source release]> m) m l
             !! ModuleName (Spec release) = Some (Source release'))
    ∧ (∀ k, (∀ release, release ∈ l -> ModuleName (Spec release) ≠ k) ->
         foldl (fun (m : gmap string string) release =>
                  <[ModuleName (Spec release) := Source release]> m) m l !! k
         = m !! k)).
  { induction l as [|a l IH] using rev_ind; intros m.
    - split; [intros ? Hin; by apply elem_of_nil in Hin|done].
    - rewrite foldl_app. simpl. destruct (IH m) as [IH1 IH2]. split.
      + intros release Hin.
        destruct (decide (ModuleName (Spec release) = ModuleName (Spec a)))
          as [Heq|Hne].
        * exists a. split; [apply elem_of_app; right; by left|].
          split; [done|]. by rewrite Heq, lookup_insert_eq.
        * apply elem_of_app in Hin as [Hin|Hin%list_elem_of_singleton];
            [|by subst].
          destruct (IH1 release Hin) as (r' & Hr' & Hn & Hl).
          exists r'. split; [apply elem_of_app; by left|]. split; [done|].
          by rewrite lookup_insert_ne.
      + intros k Hk. rewrite lookup_insert_ne.
        * apply IH2. intros release Hin. apply Hk, elem_of_app. by left.
        * apply Hk, elem_of_app. right. by left. }
  destruct (Hfold (map_to_list (releasesStore w)).*2 (sourceModules w))
    as [H1 H2].
  split.
  - intros p release Hp.
    destruct (H1 release) as (r' & Hr' & Hn & Hl).
    { apply list_elem_of_fmap. exists (p, release). split; [done|].
      by apply elem_of_map_to_list. }
    apply list_elem_of_fmap in Hr' as ([p' r''] & -> & Hr').
    apply elem_of_map_to_list in Hr'. by exists p', r''.
  - intros k Hk. apply H2. intros release Hin.
    apply list_elem_of_fmap in Hin as ([p r'] & -> & Hr').
    apply elem_of_map_to_list in Hr'. by eapply Hk.
Qed.

End Purge.

Lemma purge_spares_released_modules_witness :
  match deleteModulesWithAbsentRelease (NewController "/ext")
          (worldOf fsOrphan [modA100]) with
  | Done (_, w') =>
      nodes (fs w') !! "/ext/modules/10-mod-a" = Some (Symlink "../mod-a/v1.0.0")
  | _ => False
  end.
Proof.
  destruct (deleteModulesWithAbsentRelease (NewController "/ext")
              (worldOf fsOrphan [modA100])) as [[r w']| |] eqn:E.
  - apply (purge_spares_released_modules (NewController "/ext")
             (worldOf fsOrphan [modA100]) w' r modA100 "mod-a-v1.0.0"
             "10-mod-a" "/ext/modules/10-mod-a" E);
      [reflexivity|reflexivity|reflexivity|by left].
  - vm_compute in E. discriminate.
  - vm_compute in E. discriminate.
Defined.

Lemma purge_removes_orphans_witness :
  match deleteModulesWithAbsentRelease (NewController "/ext")
          (worldOf fsOrphan [modA100]) with
  | Done (r, w') =>
      r = None ∧ nodes (fs w') !! "/ext/modules/30-old-mod" = None
  | _ => False
  end.
Proof.
  destruct (deleteModulesWithAbsentRelease (NewController "/ext")
              (worldOf fsOrphan [modA100])) as [[r w']| |] eqn:E.
  - apply (purge_removes_orphans (NewController "/ext")
             (worldOf fsOrphan [modA100]) w' r
             [mkDirEntry "10-mod-a" (Symlink "../mod-a/v1.0.0");
              mkDirEntry "30-old-mod" (Symlink "../old-mod/v0.1.0")]
             (mkDirEntry "30-old-mod" (Symlink "../old-mod/v0.1.0"))
             "/ext/modules/30-old-mod" E).
    + vm_compute. reflexivity.
    + right. by left.
    + vm_compute. discriminate.
    + intros d' [->|[->|Hnil]%elem_of_cons]%elem_of_cons _ Hm;
        [vm_compute in Hm; discriminate|reflexivity|].
      by apply elem_of_nil in Hnil.
    + intros p release Hp.
      change (releasesStore (worldOf fsOrphan [modA100]))
        with ({[ "mod-a-v1.0.0" := modA100 ]} : gmap string ModuleRelease) in Hp.
      apply lookup_singleton_Some in Hp as [_ <-]. vm_compute. discriminate.
    + reflexivity.
    + by left.
  - vm_compute in E. discriminate.
  - vm_compute in E. discriminate.
Defined.

Lemma purge_records_sources_witness :
  ∃ w', deleteModulesWithAbsentRelease (NewController "/ext")
          (worldOf fsOrphan [modA100]) = Done (None, w')
        ∧ sourceModules w' !! "mod-a" = Some "S1".
Proof.
  destruct (deleteModulesWithAbsentRelease (NewController "/ext")
              (worldOf fsOrphan [modA100])) as [[[e|] w']| |] eqn:E;
    try (vm_compute in E; discriminate).
  exists w'. split; [reflexivity|].
  destruct (purge_records_sources (NewController "/ext")
              (worldOf fsOrphan [modA100]) w' E) as (sources & Hget & Hs & _).
  injection Hget as <-.
  destruct (Hs "mod-a-v1.0.0" modA100 eq_refl) as (p' & r' & Hp' & _ & Hl).
  change (releasesStore (worldOf fsOrphan [modA100]))
    with ({[ "mod-a-v1.0.0" := modA100 ]} : gmap string ModuleRelease) in Hp'.
  apply lookup_singleton_Some in Hp' as [_ <-]. exact Hl.
Defined.

(** ** The preflight check as a whole *)


(** ** More on the restart debouncer *)

Lemma restartLoop_timer (turns : nat) (horizon : Z) (d : Debounce) :
  (turns = 0%nat ∨ (delayTimer d + delay * (Z.of_nat turns - 1) <= horizon)%Z) ->
  delayTimer (restartLoop turns horizon d)
  = (delayTimer d + delay * Z.of_nat turns)%Z.
Proof.
  unfold delay. revert d. induction turns as [|n IH]; intros d Hh; simpl.
  - lia.
  - destruct Hh as [|Hh]; [done|].
    rewrite (proj2 (Z.leb_le _ _)) by lia.
    rewrite IH; simpl; [unfold delay; lia|].
    unfold delay. destruct n; [by left|right; lia].
Qed.




(** X23. With no reason recorded, the loop left to itself sends no
    signal, however long it runs; and whether a reason is recorded or
    not, it has re-armed the timer for an instant that is still to
    come. *)
Theorem restartLoop_keeps_ticking (d : Debounce) (horizon : Z) :
  (horizon < delayTimer (idleUntil horizon d))%Z
  ∧ restartReason (idleUntil horizon d) = restartReason d
  ∧ (restartReason d = "" -> signals (idleUntil horizon d) = signals d).
Proof.
  unfold idleUntil. split; [|split].
  - rewrite restartLoop_timer by apply turnsUntil_fits.
    unfold turnsUntil, delay.
    destruct (decide (delayTimer d <= horizon)%Z) as [Hle|Hgt].
    + rewrite Z2Nat.id
        by (pose proof (Z.div_pos (horizon - delayTimer d) 5000); lia).
      pose proof (Z.mod_pos_bound (horizon - delayTimer d) 5000).
      pose proof (Z.div_mod (horizon - delayTimer d) 5000). lia.
    + lia.
  - apply restartLoop_reason.
  - apply restartLoop_quiet.
Qed.

Lemma restartLoop_keeps_ticking_witness :
  signals (idleUntil 60000 (mkDebounce 5000 "" [])) = []
  ∧ (60000 < delayTimer (idleUntil 60000 (mkDebounce 5000 "" [])))%Z.
Proof.
  destruct (restartLoop_keeps_ticking (mkDebounce 5000 "" []) 60000)
    as (Hlater & _ & Hquiet).
  split; [exact (Hquiet eq_refl)|exact Hlater].
Defined.

(** ** The check of the symlink, [isModuleExistsOnFS] *)
















Section Exists.
Variables (root m n ver : string).
Hypothesis root_proper : properDir root.
Hypothesis root_abs : IsAbs root = true.
Hypothesis m_plain : plainElem m = true.
Hypothesis n_plain : plainElem n = true.
Hypothesis v_plain : plainElem ("v" +:+ ver) = true.

Local Abbreviation linksDir := (Join [root; "modules"]).
Local Abbreviation link := (Join [linksDir; n]).
Local Abbreviation modulePath := (generateModulePath m ver).
Local Abbreviation payload := (Join [root; m; "v" +:+ ver]).



End Exists.


(** ** The worker *)

Lemma processNextWorkItem_item
  (calculateRelease : list ModuleRelease -> Prediction) (c : Controller)
  (obj : QueueItem) (w w' : World) (r : bool * list QueueCall) :
  processNextWorkItem calculateRelease c (Some obj) w = Done (r, w') ->
  r.1 = true ∧ doneItems r.2 = [obj].
Proof.
  unfold processNextWorkItem. destruct obj as [key|shown].
  - unfold bind, ret.
    destruct (Reconcile calculateRelease c key w) as [[res w1]| |]; [|done..].
    intros [= <- <-]. simpl. split; [done|].
    unfold doneItems. by repeat case_match.
  - intros [= <- <-]. by split.
Qed.

Lemma runWorker_cons
  (calculateRelease : list ModuleRelease -> Prediction) (c : Controller)
  (got : option QueueItem) (rest : list (option QueueItem)) :
  runWorker calculateRelease c (got :: rest)
  = (r <- processNextWorkItem calculateRelease c got ;;
     if r.1 then
       calls <- runWorker calculateRelease c rest ;;
       ret (r.2 ++ calls)
     else ret r.2).
Proof. done. Qed.

(** X25. A worker goes on until the queue is shut down, whether the
    passes fail or not: of the items the queue hands out before the
    shutdown, each is marked [Done] once, in the order in which they
    came, and nothing that comes after the shutdown is taken. *)
Theorem runWorker_marks_every_item_done
  (calculateRelease : list ModuleRelease -> Prediction) (c : Controller)
  (items : list QueueItem) (later : list (option QueueItem))
  (w w' : World) (calls : list QueueCall) :
  runWorker calculateRelease c ((Some <$> items) ++ None :: later) w
  = Done (calls, w') ->
  doneItems calls = items.
Proof.
  revert w calls. induction items as [|obj items IH]; intros w calls.
  - by intros [= <- <-].
  - change ((Some <$> obj :: items) ++ None :: later)
      with (Some obj :: ((Some <$> items) ++ None :: later)).
    rewrite runWorker_cons. unfold bind at 1.
    destruct (processNextWorkItem calculateRelease c (Some obj) w)
      as [[r w1]| |] eqn:E; [|done..].
    apply processNextWorkItem_item in E as [Hagain Hdone]. rewrite Hagain.
    unfold bind.
    destruct (runWorker _ _ _ w1) as [[calls' w2]| |] eqn:E2; [|done..].
    intros [= <- <-]. unfold doneItems in *. rewrite omap_app.
    by rewrite Hdone, (IH _ _ E2).
Qed.

Lemma runWorker_marks_every_item_done_witness :
  match runWorker specPredictor (NewController "/ext")
          [Some (KeyItem "mod-b-v2.0.0"); Some (ForeignItem "42"); None;
           Some (KeyItem "never")]
          (setApiFaults (worldOf fsEmpty [modBNew])
             [Some (errorString "the server is not ready")]) with
  | Done (calls, _) =>
      doneItems calls = [KeyItem "mod-b-v2.0.0"; ForeignItem "42"]
  | _ => False
  end.
Proof.
  destruct (runWorker specPredictor (NewController "/ext")
              [Some (KeyItem "mod-b-v2.0.0"); Some (ForeignItem "42"); None;
               Some (KeyItem "never")]
              (setApiFaults (worldOf fsEmpty [modBNew])
                 [Some (errorString "the server is not ready")]))
    as [[calls w']| |] eqn:E.
  - exact (runWorker_marks_every_item_done specPredictor (NewController "/ext")
             [KeyItem "mod-b-v2.0.0"; ForeignItem "42"]
             [Some (KeyItem "never")] _ _ _ E).
  - vm_compute in E. discriminate.
  - vm_compute in E. discriminate.
Defined.

(** ** The names of the links and of the payloads *)

Lemma pretty_N_char_digit (x : N) : isDigit (pretty_N_char x) = true.
Proof. unfold pretty_N_char. by repeat case_match. Qed.

Lemma pretty_N_go_digits (x : N) (s : string) :
  allDigits s = true -> allDigits (pretty_N_go x s) = true.
Proof.
  revert s. induction (N.lt_wf_0 x) as [x _ IH]; intros s Hs.
  assert (x = 0 ∨ 0 < x)%N as [->|?] by lia.
  - by rewrite pretty_N_go_0.
  - rewrite pretty_N_go_step by done. apply IH.
    + by apply N.div_lt.
    + simpl. by rewrite pretty_N_char_digit.
Qed.

Lemma pretty_N_go_not_empty (x : N) (s : string) :
  s ≠ "" -> pretty_N_go x s ≠ "".
Proof.
  revert s. induction (N.lt_wf_0 x) as [x _ IH]; intros s Hs.
  assert (x = 0 ∨ 0 < x)%N as [->|?] by lia.
  - by rewrite pretty_N_go_0.
  - rewrite pretty_N_go_step by done. apply IH; [by apply N.div_lt|done].
Qed.

Lemma decimal_digits (n : N) : allDigits (decimal n) = true ∧ decimal n ≠ "".
Proof.
  unfold decimal, pretty, pretty_N. case_decide; [done|]. split.
  - by apply pretty_N_go_digits.
  - rewrite pretty_N_go_step by lia. by apply pretty_N_go_not_empty.
Qed.

Lemma digit_not_dash (c : ascii) : isDigit c = true -> Ascii.eqb c "-" = false.
Proof.
  intros Hc. destruct (Ascii.eqb_spec c "-") as [->|]; [|done].
  by vm_compute in Hc.
Qed.

Lemma Index_after_digits (ds m : string) :
  allDigits ds = true ->
  Index (ds +:+ "-" +:+ m) "-" = Z.of_nat (String.length ds).
Proof.
  induction ds as [|c r IH]; intros Hds.
  - rewrite app_empty, (app_String "-" "" m), app_empty.
    cbn [Index]. by rewrite prefix_char, Ascii.eqb_refl.
  - simpl in Hds. apply andb_true_iff in Hds as [Hc Hr].
    rewrite (app_String c r). cbn [Index]. rewrite prefix_char.
    rewrite digit_not_dash by done. rewrite IH by done.
    rewrite (proj2 (Z.ltb_ge _ _)) by lia. cbn [String.length]. lia.
Qed.

Lemma substring_all (s : string) : substring 0 (String.length s) s = s.
Proof. induction s as [|c s IH]; [done|]. simpl. by rewrite IH. Qed.

Lemma String_length_app (a b : string) :
  String.length (a +:+ b) = (String.length a + String.length b)%nat.
Proof. induction a as [|c a IH]; [done|]. rewrite app_String. simpl. by rewrite IH. Qed.

Lemma substring_after (pre s : string) :
  substring (String.length pre)
    (String.length (pre +:+ s) - String.length pre) (pre +:+ s) = s.
Proof.
  induction pre as [|c pre IH].
  - rewrite app_empty. simpl. rewrite Nat.sub_0_r. apply substring_all.
  - rewrite app_String. simpl. apply IH.
Qed.

Lemma sliceFrom_after (pre s : string) :
  sliceFrom (pre +:+ s) (Z.of_nat (String.length pre)) = s.
Proof. unfold sliceFrom. rewrite Nat2Z.id. apply substring_after. Qed.

Lemma TrimPrefix_app (pre s : string) : TrimPrefix (pre +:+ s) pre = s.
Proof.
  unfold TrimPrefix.
  assert (Hp : String.prefix pre (pre +:+ s) = true).
  { induction pre as [|c pre IH]; [rewrite app_empty; by destruct s|].
    rewrite app_String, prefix_String. by destruct (ascii_dec c c). }
  rewrite Hp. apply substring_after.
Qed.

Lemma dropDigits_after (ds m : string) :
  allDigits ds = true -> dropDigits (ds +:+ "-" +:+ m) = "-" +:+ m.
Proof.
  induction ds as [|c r IH]; intros Hds; [done|].
  simpl in Hds. apply andb_true_iff in Hds as [Hc Hr].
  rewrite app_String. simpl. rewrite Hc. by apply IH.
Qed.

(** X26. The name the controller gives to the link of a module,
    <weight>-<module>, is read back as it should be, whatever the weight
    and whatever dashes the module name holds: [readModulesFromFS] takes
    what follows the first '-', which is the module name; and for a
    module name without a character that means something in a regular
    expression, the expression of [findExistingModuleSymlink] for the
    module matches the name. *)
Theorem link_name_is_read_back (weight : N) (moduleName : string) :
  Index (weighted weight moduleName) "-" ≠ (-1)%Z
  ∧ moduleOfLink (weighted weight moduleName) = moduleName
  ∧ (literalName moduleName = true ->
     moduleRegexpMatch moduleName (weighted weight moduleName) = true).
Proof.
  destruct (decimal_digits weight) as [Hd Hne].
  unfold moduleOfLink, weighted. rewrite Index_after_digits by done.
  split; [lia|]. split.
  - rewrite <- append_assoc.
    replace (Z.of_nat (String.length (decimal weight)) + 1)%Z
      with (Z.of_nat (String.length (decimal weight +:+ "-"))).
    + apply sliceFrom_after.
    + rewrite String_length_app. simpl. lia.
  - intros _. unfold moduleRegexpMatch. rewrite dropDigits_after by done.
    destruct (decimal weight) as [|c r] eqn:E; [congruence|].
    rewrite app_String. simpl in Hd. apply andb_true_iff in Hd as [Hc _].
    rewrite Hc. rewrite (app_String "-" "" moduleName), app_empty.
    rewrite (bool_decide_eq_true_2 (moduleName = moduleName)) by done.
    apply orb_true_r.
Qed.

Lemma link_name_is_read_back_witness :
  moduleOfLink (weighted 900 "mod-a") = "mod-a"
  ∧ moduleRegexpMatch "mod-a" (weighted 900 "mod-a") = true.
Proof.
  destruct (link_name_is_read_back 900 "mod-a") as (_ & Hname & Hmatch).
  split; [exact Hname|]. apply Hmatch. reflexivity.
Defined.

(** X27. [enableModule] and [restoreModuleSymlink] look for the payload
    where [deleteReconcile] removes it and where the restore has it
    downloaded: for a module name that is a plain file name, the
    directory they check, [externalModulesDir] joined to the module path
    of [generateModulePath] without its "../", is
    [externalModulesDir]/<module>/v<version>. *)
Theorem payload_paths_agree (root moduleName : string) (v : semver) :
  plainElem moduleName = true ->
  Join [root; TrimPrefix (generateModulePath moduleName (VersionString v)) "../"]
  = Join [root; moduleName; "v" +:+ VersionString v].
Proof.
  intros Hm. rewrite generateModulePath_plain by done.
  rewrite (TrimPrefix_app "../").
  apply plainElem_spec in Hm as Hm'.
  unfold Join. case_bool_decide as Hroot.
  - rewrite !bool_decide_eq_false_2.
    + change ("/v" +:+ VersionString v) with ("/" +:+ "v" +:+ VersionString v).
      done.
    + tauto.
    + destruct moduleName; [tauto|done].
  - change (joinSlash [root; moduleName +:+ "/v" +:+ VersionString v])
      with (root +:+ "/" +:+ moduleName +:+ "/" +:+ "v" +:+ VersionString v).
    done.
Qed.

Lemma payload_paths_agree_witness :
  Join ["/ext"; TrimPrefix (generateModulePath "mod-a"
                              (VersionString (mkVersion 1 0 1))) "../"]
  = "/ext/mod-a/v1.0.1".
Proof.
  rewrite (payload_paths_agree "/ext" "mod-a" (mkVersion 1 0 1)) by reflexivity.
  vm_compute. reflexivity.
Defined.

(** ** The pass when no release is desired *)

Section NoSuccessor.
Variable calculateRelease : list ModuleRelease -> Prediction.
Variable c : Controller.

(** X28. The write that supersedes the current release does not wait for
    a release to take its place. Whenever the predictor reports a
    current release and no desired one, a pass over a Pending release
    that returns success has written the current release Superseded,
    and has written no release Deployed: the module is left without a
    Deployed release. *)
Theorem current_superseded_without_successor (mr : ModuleRelease)
  (w w' : World) :
  reconcilePendingRelease calculateRelease c mr w
  = Done ((emptyResult, None), w') ->
  let rs := releasesOf (ModuleName (Spec mr)) w in
  let pred := calculateRelease rs.*2 in
  (0 <= currentReleaseIndex pred)%Z ->
  (desiredReleaseIndex pred < 0)%Z ->
  ∃ cur,
    rs.*2 !! Z.to_nat (currentReleaseIndex pred) = Some cur
    ∧ Exists (writes (ObjectName cur) PhaseSuperseded true) (callsSince w w')
    ∧ Forall writesNoDeployed (callsSince w w').
Proof.
  intros H rs pred Hcur0 Hdes. unfold reconcilePendingRelease in H.
  unfold bind at 1, listByModule at 1, bind at 1, get at 1, ret at 1 in H.
  fold (releasesOf (ModuleName (Spec mr)) w) in H. fold rs pred in H.
  unfold bind at 1 in H.
  destruct (currentSymlink c _ w) as [[cur w0]| |] eqn:Hcur; [|done..].
  apply currentSymlink_is_the_walk in Hcur as [_ ->].
  unfold bind at 1 in H.
  destruct (restoreLatest c _ _ _ _ w) as [[ra wa]| |] eqn:Ha; [|done..].
  apply restoreLatest_spec in Ha as (Hna & Hca & Hla).
  destruct ra as [res0|reason].
  { unfold ret in H. simplify_eq.
    by destruct Hla as (obj & ok & _ & _ & Hres). }
  unfold bind at 1 in H.
  destruct (supersedeSkipped _ _ wa) as [[eb wb]| |] eqn:Hb; [|done..].
  apply supersedeSkipped_spec in Hb
    as (Hnb & Hcb & _ & _ & lb & Hlb & Hallb & _).
  destruct eb as [eb|]; [unfold ret in H; by simplify_eq|].
  unfold bind at 1 in H.
  destruct (supersedeCurrent _ _ wb) as [[ec wc]| |] eqn:Hc; [|done..].
  apply supersedeCurrent_spec in Hc as (Hnc & Hcc & _ & _ & Hlc).
  destruct ec as [ec|]; [unfold ret in H; by simplify_eq|].
  rewrite (proj2 (Z.leb_le _ _) Hcur0) in Hlc.
  destruct Hlc as (p & r & obj & Hp & Hr & Hname & Hph & _ & Hlogc).
  unfold bind at 1 in H.
  destruct (deployDesired c _ _ _ _ _ wc) as [[rd wd]| |] eqn:Hd; [|done..].
  apply deployDesired_spec in Hd as (_ & _ & Hld).
  rewrite (proj2 (Z.leb_gt _ _) Hdes) in Hld.
  destruct Hld as (Hlogd & -> & _).
  assert (Hlogw' : apiLog w' = apiLog wd).
  { unfold bind at 1 in H.
    destruct (bool_decide (reason ≠ "")); unfold emitRestartNow in H;
      unfoldMin H; by simplify_eq. }
  apply releasesOf_pointer in Hp as (cur0 & Hcur & Hst).
  exists cur0. split; [done|].
  assert (Hcalls : callsSince w w' = lb ++ [UpdateStatusCall obj true]).
  { unfold callsSince.
    rewrite Hlogw', Hlogd, Hlogc, Hlb, Hla, <- app_assoc.
    by rewrite drop_app_length. }
  rewrite Hcalls. split.
  - apply Exists_app. right. left. exists obj. split; [done|].
    split; [|done]. rewrite Hname.
    pose proof (sameNames_trans _ _ _ Hna Hnb p) as Hsame.
    rewrite Hr, Hst in Hsame. by injection Hsame.
  - apply Forall_app. split; [done|]. constructor; [|done].
    exists obj, true. split; [done|]. by rewrite Hph.
Qed.

End NoSuccessor.

Lemma current_superseded_without_successor_witness :
  match reconcilePendingRelease specPredictor (NewController "/ext") modA090
          (worldOf fsModA [modA090; modA100]) with
  | Done (res, w') =>
      res = (emptyResult, None)
      ∧ Exists (writes "mod-a-v1.0.0" PhaseSuperseded true)
          (callsSince (worldOf fsModA [modA090; modA100]) w')
      ∧ Forall writesNoDeployed
          (callsSince (worldOf fsModA [modA090; modA100]) w')
  | _ => False
  end.
Proof.
  destruct (reconcilePendingRelease specPredictor (NewController "/ext") modA090
              (worldOf fsModA [modA090; modA100])) as [[res w']| |] eqn:E.
  - assert (Hres : res = (emptyResult, None)).
    { pose proof E as E'. vm_compute in E'. injection E' as <- _. reflexivity. }
    subst res. split; [reflexivity|].
    destruct (current_superseded_without_successor specPredictor
                (NewController "/ext") modA090
                (worldOf fsModA [modA090; modA100]) w' E)
      as (cur & Hcur & Hex & Hall).
    + vm_compute. discriminate.
    + vm_compute. reflexivity.
    + vm_compute in Hcur. injection Hcur as <-. split; [exact Hex|exact Hall].
  - vm_compute in E. discriminate.
  - vm_compute in E. discriminate.
Defined.

